(** * WYGIWYH exchange rates: schedule check, hour-set parser, rate graph,
      conversion-path search and the per-service fetch loop.

    Shallow embedding of
      - [apps/currencies/models.py]
          ([ExchangeRateService._parse_hour_ranges], [ExchangeRateService.clean],
           the [ExchangeRate] table),
      - [apps/currencies/exchange_rates/fetcher.py]
          ([ExchangeRateFetcher._should_fetch_at_hour], [_fetch_service_rates],
           [PROVIDER_MAPPING]),
      - [apps/currencies/exchange_rates/providers/transitive_rate.py]
          ([get_rates], [_build_currency_graph], [_find_conversion_path]),
      - [apps/currencies/exchange_rates/providers/twelvedata.py]
          ([TwelveDataMarketsProvider._parse_code]).
    The providers that call a remote service are a parameter of the model.

    Conventions of the embedding.
      - Python exceptions are values of [exn]; a computation that may raise
        has type [result A]; [try ... except ValueError] is
        [try_except_ValueError].
      - Python [int] is [Z]; a Python [set] is a [gset]; a Python [dict],
        whose iteration order is its insertion order, is an association list
        (the breadth-first search iterates [.items()]).
      - [decimal.Decimal] is a coefficient and an exponent; arithmetic is the
        one of the default context (28 significant digits, round-half-even).
        The exponent limits of that context (+-999999) are not modelled; a
        stored rate has at most 42 digits and exponent -30: a write rounds
        the rate to the 30 decimal places of its column and fails when more
        than 12 integer digits are left.
      - a [str] field is a [string], its characters a [list ascii], read as
        ASCII text.
      - a timestamp is a number of microseconds since the epoch (UTC); the
        value of [timezone.now()] is an input. *)

From Stdlib Require Import ZArith List Bool Ascii String Lia.
From stdpp Require Import base decidable option list numbers sets gmap strings sorting.

Set Warnings "-clear-no-such-hyp".
Local Open Scope Z_scope.

(** ** Exceptions *)

Inductive exn : Type :=
  | ValueError        (* int(), tuple unpacking, explicit raise *)
  | DivisionByZero    (* decimal.DivisionByZero *)
  | InvalidOperation  (* decimal.InvalidOperation (0/0) *)
  | IntegrityError    (* django.db.IntegrityError (unique_together) *)
  | DataError.        (* django.db.DataError (numeric field overflow) *)

Inductive result (A : Type) : Type :=
  | Ok (a : A)
  | Raise (e : exn).
Arguments Ok {A} a.
Arguments Raise {A} e.

Definition result_bind {A B} (m : result A) (k : A → result B) : result B :=
  match m with
  | Ok a => k a
  | Raise e => Raise e
  end.

#[global] Instance result_ret : MRet result := λ A a, Ok a.
#[global] Instance result_mbind : MBind result := λ A B k m, result_bind m k.

(** [try: body except ValueError: handler] *)
Definition try_except_ValueError {A} (body : result A) (handler : result A) : result A :=
  match body with
  | Raise ValueError => handler
  | r => r
  end.

(** ** decimal.Decimal under the default context *)

Module Dec.

Record Decimal : Type := mkDec { coef : Z; exp : Z }.

Definition prec : Z := 28.

(** number of decimal digits of a non-negative coefficient ([len(self._int)]) *)
Fixpoint ndigits_fuel (fuel : nat) (n : Z) : Z :=
  match fuel with
  | O => 1
  | S fuel' => if n <? 10 then 1 else 1 + ndigits_fuel fuel' (n / 10)
  end.

Definition ndigits (n : Z) : Z := ndigits_fuel (Z.to_nat (Z.log2 n)) n.

Definition is_zero (d : Decimal) : bool := coef d =? 0.

(** [Decimal._fix]: round to [prec] significant digits, ROUND_HALF_EVEN. *)
Definition fix_ (d : Decimal) : Decimal :=
  let c := Z.abs (coef d) in
  let n := ndigits c in
  if n <=? prec then d
  else
    let drop := n - prec in
    let p := 10 ^ drop in
    let q := c / p in
    let r := c mod p in
    let up := (p <? 2 * r) || ((2 * r =? p) && Z.odd q) in
    let q' := if up then q + 1 else q in
    let '(q'', e'') :=
      if ndigits q' >? prec then (q' / 10, exp d + drop + 1)
      else (q', exp d + drop) in
    mkDec (Z.sgn (coef d) * q'') e''.

(** [Decimal.__mul__] *)
Definition mul (a b : Decimal) : Decimal :=
  fix_ (mkDec (coef a * coef b) (exp a + exp b)).

(** strip trailing zeros of an exact quotient towards the ideal exponent *)
Fixpoint to_ideal (fuel : nat) (c e ideal : Z) : Z * Z :=
  match fuel with
  | O => (c, e)
  | S fuel' =>
      if (e <? ideal) && (c mod 10 =? 0) then to_ideal fuel' (c / 10) (e + 1) ideal
      else (c, e)
  end.

(** [Decimal.__truediv__] *)
Definition div (a b : Decimal) : result Decimal :=
  if is_zero b then
    if is_zero a then Raise InvalidOperation else Raise DivisionByZero
  else if is_zero a then Ok (fix_ (mkDec 0 (exp a - exp b)))
  else
    let ca := Z.abs (coef a) in
    let cb := Z.abs (coef b) in
    let shift := ndigits cb - ndigits ca + prec + 1 in
    let e := exp a - exp b - shift in
    let '(q, r) :=
      if 0 <=? shift then (ca * 10 ^ shift / cb, (ca * 10 ^ shift) mod cb)
      else (ca / (cb * 10 ^ (- shift)), ca mod (cb * 10 ^ (- shift))) in
    let '(c', e') :=
      if r =? 0 then to_ideal (Z.to_nat (exp a - exp b - e)) q e (exp a - exp b)
      else (if q mod 5 =? 0 then q + 1 else q, e) in
    Ok (fix_ (mkDec (Z.sgn (coef a) * Z.sgn (coef b) * c') e')).

(** [Decimal("1")] *)
Definition one : Decimal := mkDec 1 0.

(** [a == b] on decimals: numeric comparison, whatever the exponents *)
Definition eqb (a b : Decimal) : bool :=
  let m := Z.min (exp a) (exp b) in
  coef a * 10 ^ (exp a - m) =? coef b * 10 ^ (exp b - m).


#[global] Instance Decimal_eq_dec : EqDecision Decimal.
Proof. solve_decision. Defined.

End Dec.

Abbreviation Decimal := Dec.Decimal.

(** ** Insertion-ordered dictionaries with integer keys *)

Section Dict.
Context {V : Type}.

Fixpoint dict_get (d : list (Z * V)) (k : Z) : option V :=
  match d with
  | [] => None
  | (k', v) :: d' => if k =? k' then Some v else dict_get d' k
  end.

(** [k in d] *)
Definition dict_mem (d : list (Z * V)) (k : Z) : bool :=
  match dict_get d k with Some _ => true | None => false end.

(** [d[k] = v]: an existing key keeps its position, a new key goes last *)
Fixpoint dict_set (d : list (Z * V)) (k : Z) (v : V) : list (Z * V) :=
  match d with
  | [] => [(k, v)]
  | (k', v') :: d' =>
      if k =? k' then (k, v) :: d' else (k', v') :: dict_set d' k v
  end.

End Dict.

(** ** The ExchangeRate table row (models.py); the primary key is the key of
    the row in the table *)

Record ExchangeRate : Type := mkRate {
  from_currency_id : Z;
  to_currency_id : Z;
  rate : Decimal;
  date : Z;
  automatic : bool
}.

(** ** transitive_rate.py *)

Definition Graph : Type := list (Z * list (Z * Decimal)).

(** [graph.get(k, {})] *)
Definition graph_get (graph : Graph) (k : Z) : list (Z * Decimal) :=
  match dict_get graph k with Some d => d | None => [] end.

(** [graph[a][b] = w], for [a] already a key of [graph] *)
Definition graph_set_edge (graph : Graph) (a b : Z) (w : Decimal) : Graph :=
  dict_set graph a (dict_set (graph_get graph a) b w).

(** [if k not in graph: graph[k] = {}] *)
Definition graph_ensure (graph : Graph) (k : Z) : Graph :=
  if dict_mem graph k then graph else dict_set graph k [].

(** one iteration of the loop of [_build_currency_graph] *)
Definition add_rate (graph : Graph) (r : ExchangeRate) : result Graph :=
  let graph := graph_ensure graph (from_currency_id r) in
  let graph := graph_set_edge graph (from_currency_id r) (to_currency_id r) (rate r) in
  let graph := graph_ensure graph (to_currency_id r) in
  inv ← Dec.div Dec.one (rate r);
  Ok (graph_set_edge graph (to_currency_id r) (from_currency_id r) inv).

Fixpoint build_from (graph : Graph) (rates : list ExchangeRate) : result Graph :=
  match rates with
  | [] => Ok graph
  | r :: rates' => graph' ← add_rate graph r; build_from graph' rates'
  end.

Definition _build_currency_graph (rates : list ExchangeRate) : result Graph :=
  build_from [] rates.

(** the weight of the edge [a -> b], if the graph has it *)
Definition edge_weight (graph : Graph) (a b : Z) : option Decimal :=
  dict_get (graph_get graph a) b.



(** *** [_find_conversion_path] *)

(** a queue entry [(current, path, current_rate)] *)
Definition QueueEntry : Type := Z * list Z * Decimal.

(** the loop [for neighbor, rate in graph.get(current, {}).items()] *)
Fixpoint expand (items : list (Z * Decimal)) (path : list Z) (current_rate : Decimal)
    (queue : list QueueEntry) (visited : gset Z) : list QueueEntry * gset Z :=
  match items with
  | [] => (queue, visited)
  | (neighbor, rate) :: items' =>
      if decide (neighbor ∈ visited) then
        expand items' path current_rate queue visited
      else
        expand items' path current_rate
          (queue ++ [(neighbor, path ++ [neighbor], Dec.mul current_rate rate)])
          ({[neighbor]} ∪ visited)
  end.

(** the loop [while queue]; [None] stands for an exhausted iteration budget,
    [Some None] for the pair [(None, None)] of the source *)
Fixpoint bfs_loop (fuel : nat) (graph : Graph) (to_id : Z)
    (queue : list QueueEntry) (visited : gset Z) : option (option (list Z * Decimal)) :=
  match queue with
  | [] => Some None
  | (current, path, current_rate) :: queue' =>
      if current =? to_id then Some (Some (path, current_rate))
      else
        match fuel with
        | O => None
        | S fuel' =>
            let '(queue'', visited') :=
              expand (graph_get graph current) path current_rate queue' visited in
            bfs_loop fuel' graph to_id queue'' visited'
        end
  end.

(** every id that occurs as a neighbour in the graph *)
Definition targets (graph : Graph) : gset Z :=
  list_to_set (concat (map (λ kv, map fst kv.2) graph)).

(** an iteration budget the loop never exceeds, see [bfs_loop_correct] *)
Definition bfs_fuel (graph : Graph) : nat := S (size (targets graph)).

Definition _find_conversion_path (graph : Graph) (from_id to_id : Z)
    : option (option (list Z * Decimal)) :=
  if negb (dict_mem graph from_id) || negb (dict_mem graph to_id) then Some None
  else bfs_loop (bfs_fuel graph) graph to_id [(from_id, [from_id], Dec.one)] {[from_id]}.

(** ** Python strings *)

Definition str : Type := list ascii.

(** [c.isspace()] on ASCII: tab, LF, VT, FF, CR, FS, GS, RS, US, space *)
Definition is_space (c : ascii) : bool :=
  let n := Z.of_nat (nat_of_ascii c) in
  ((9 <=? n) && (n <=? 13)) || ((28 <=? n) && (n <=? 32)).

(** the white space [int()] skips around an ASCII literal: tab, LF, VT, FF,
    CR, space *)
Definition is_int_space (c : ascii) : bool :=
  let n := Z.of_nat (nat_of_ascii c) in
  ((9 <=? n) && (n <=? 13)) || (n =? 32).

Fixpoint lstrip_with (sp : ascii → bool) (s : str) : str :=
  match s with
  | [] => []
  | c :: s' => if sp c then lstrip_with sp s' else s
  end.

Definition strip_with (sp : ascii → bool) (s : str) : str :=
  rev (lstrip_with sp (rev (lstrip_with sp s))).

(** [s.strip()] *)
Definition strip (s : str) : str := strip_with is_space s.

(** [s.split(sep)] for a one-character separator *)
Fixpoint split_on (sep : ascii) (s : str) : list str :=
  match s with
  | [] => [[]]
  | c :: s' =>
      if Ascii.eqb c sep then [] :: split_on sep s'
      else match split_on sep s' with
           | [] => [[c]]
           | w :: ws => (c :: w) :: ws
           end
  end.

(** [sep in s] *)
Definition contains (sep : ascii) (s : str) : bool :=
  existsb (Ascii.eqb sep) s.

Definition digit_val (c : ascii) : option Z :=
  let n := Z.of_nat (nat_of_ascii c) in
  if (48 <=? n) && (n <=? 57) then Some (n - 48) else None.

(** the digits of an integer literal: single underscores may separate digits *)
Fixpoint parse_digits (acc : Z) (after_digit : bool) (s : str) : option Z :=
  match s with
  | [] => if after_digit then Some acc else None
  | c :: s' =>
      match digit_val c with
      | Some v => parse_digits (10 * acc + v) true s'
      | None =>
          if Ascii.eqb c "_"%char && after_digit then parse_digits acc false s'
          else None
      end
  end.

(** [int(s)], [None] when it raises ValueError: surrounding white space, an
    optional sign, decimal digits *)
Definition py_int (s : str) : option Z :=
  match strip_with is_int_space s with
  | c :: s' =>
      if Ascii.eqb c "+"%char then parse_digits 0 false s'
      else if Ascii.eqb c "-"%char then Z.opp <$> parse_digits 0 false s'
      else parse_digits 0 false (c :: s')
  | [] => None
  end.

Definition int (s : str) : result Z :=
  match py_int s with
  | Some n => Ok n
  | None => Raise ValueError
  end.

(** ** models.py: ExchangeRateService *)

Inductive IntervalType : Type :=
  | ON
  | EVERY
  | NOT_ON
  | OtherInterval (s : string).  (* a stored value that is none of the choices *)

Record ExchangeRateService : Type := mkService {
  name : string;
  interval_type : IntervalType;
  fetch_interval : string;
  last_fetch : option Z;
  singleton : bool
}.

Definition in_hours (h : Z) : bool := (0 <=? h) && (h <=? 23).

(** [range(start, end + 1)] *)
Definition hour_range (start end_ : Z) : list Z := seqZ start (end_ + 1 - start).

(** the body of the loop of [_parse_hour_ranges]: the hours one part adds *)
Definition parse_part (part : str) : result (list Z) :=
  let part := strip part in
  if contains "-" part then
    match split_on "-" part with
    | [start; end_] =>
        start ← int start;
        end_ ← int end_;
        if negb (in_hours start && in_hours end_) then Raise ValueError
        else if end_ <? start then Raise ValueError
        else Ok (hour_range start end_)
    | _ => Raise ValueError  (* start, end = ... does not unpack *)
    end
  else
    hour ← int part;
    if negb (in_hours hour) then Raise ValueError
    else Ok [hour].

Fixpoint parse_parts (parts : list str) (hours : gset Z) : result (gset Z) :=
  match parts with
  | [] => Ok hours
  | part :: parts' =>
      hs ← parse_part part;
      parse_parts parts' (hours ∪ list_to_set hs)
  end.

(** the parts the loop iterates over: [interval_str.strip().split(",")] *)
Definition interval_parts (interval_str : string) : list str :=
  split_on "," (strip (list_ascii_of_string interval_str)).

Definition _parse_hour_ranges (interval_str : string) : result (gset Z) :=
  parse_parts (interval_parts interval_str) ∅.

(** ** fetcher.py: the schedule check *)

(** one hour, in microseconds *)
Definition hour_us : Z := 3600000000.

(** [t.replace(minute=0, second=0, microsecond=0)] *)
Definition truncate_hour (t : Z) : Z := t - t mod hour_us.

(** [_should_fetch_at_hour]; [now] is what [timezone.now()] returns. The
    source divides [total_seconds()] by 3600 in floating point; both instants
    are at the start of an hour, so the quotient is a whole number, which the
    float holds exactly. *)
Definition _should_fetch_at_hour (service : ExchangeRateService)
    (current_hour : Z) (now : Z) : result bool :=
  try_except_ValueError
    (match interval_type service with
     | NOT_ON =>
         blocked_hours ← _parse_hour_ranges (fetch_interval service);
         Ok (negb (bool_decide (current_hour ∈ blocked_hours)))
     | ON =>
         allowed_hours ← _parse_hour_ranges (fetch_interval service);
         Ok (bool_decide (current_hour ∈ allowed_hours))
     | EVERY =>
         try_except_ValueError
           (interval_hours ← int (list_ascii_of_string (fetch_interval service));
            match last_fetch service with
            | None => Ok true
            | Some last =>
                let now := truncate_hour now in
                let last_fetch := truncate_hour last in
                let hours_since_last := (now - last_fetch) / hour_us in
                Ok (interval_hours <=? hours_since_last)
            end)
           (Ok false)
     | OtherInterval _ => Ok false
     end)
    (Ok false).

(** ** fetcher.py: the per-service fetch loop *)

(** the ExchangeRate table: primary key |-> row *)
Abbreviation Table := (gmap Z ExchangeRate).

(** [unique_together = ("from_currency", "to_currency", "date")]: a row other
    than [skip] already holds the triple *)
Definition conflicts (rows : Table) (skip : option Z) (f t d : Z) : Prop :=
  map_Exists (λ k r, Some k ≠ skip ∧ from_currency_id r = f ∧
                     to_currency_id r = t ∧ date r = d) rows.

#[global] Instance conflicts_dec rows skip f t d : Decision (conflicts rows skip f t d).
Proof. unfold conflicts. apply _. Defined.

(** [rate = models.DecimalField(max_digits=42, decimal_places=30)] *)
Definition max_digits : Z := 42.
Definition decimal_places : Z := 30.

(** who rounds a rate to the column: Django, where it formats the value
    itself ([format_number]: [quantize] to [decimal_places] under a context of
    precision [max_digits], ROUND_HALF_EVEN, decimal.InvalidOperation when the
    digits do not suffice), or the database, where Django hands the Decimal
    over as it is (PostgreSQL's numeric(42, 30): a tie goes away from zero,
    DataError on overflow) *)
Inductive Backend : Type :=
  | django_format
  | postgresql.

(** what the column holds once [value] is written to it *)
Definition stored_rate (backend : Backend) (value : Decimal) : result Decimal :=
  let c := Z.abs (Dec.coef value) in
  let drop := - decimal_places - Dec.exp value in
  let q :=
    if drop <=? 0 then c * 10 ^ (- drop)
    else
      let p := 10 ^ drop in
      let q := c / p in
      let r := c mod p in
      let up :=
        (p <? 2 * r) ||
        ((2 * r =? p) &&
         match backend with django_format => Z.odd q | postgresql => true end) in
      if up then q + 1 else q in
  if 10 ^ max_digits <=? q then
    Raise (match backend with django_format => InvalidOperation | postgresql => DataError end)
  else Ok (Dec.mkDec (Z.sgn (Dec.coef value) * q) (- decimal_places)).

(** [ExchangeRate.objects.create(automatic=True, from_currency=f,
    to_currency=t, rate=rate, date=now)] *)
Definition create (backend : Backend) (rows : Table) (f t : Z) (rate_ : Decimal)
    (now : Z) : result Table :=
  stored ← stored_rate backend rate_;
  if decide (conflicts rows None f t now) then Raise IntegrityError
  else Ok (<[fresh (dom rows) := mkRate f t stored now true]> rows).

(** [exchange_rate.save()] for the instance with primary key [k] *)
Definition save (backend : Backend) (rows : Table) (k : Z) (r : ExchangeRate)
    : result Table :=
  stored ← stored_rate backend (rate r);
  if decide (conflicts rows (Some k) (from_currency_id r) (to_currency_id r) (date r))
  then Raise IntegrityError
  else Ok (<[k := mkRate (from_currency_id r) (to_currency_id r) stored (date r)
                         (automatic r)]> rows).

(** [.order_by("-date").first()]: the row with the greatest date (of two rows
    with the same date, which the uniqueness constraint excludes for one
    pair, the one met first) *)
Definition newer (best : option (Z * ExchangeRate)) (kr : Z * ExchangeRate)
    : option (Z * ExchangeRate) :=
  match best with
  | None => Some kr
  | Some b => if date b.2 <? date kr.2 then Some kr else Some b
  end.

Definition is_automatic_pair (f t : Z) (kr : Z * ExchangeRate) : bool :=
  automatic kr.2 && (from_currency_id kr.2 =? f) && (to_currency_id kr.2 =? t).

(** [ExchangeRate.objects.filter(automatic=True, from_currency=f,
    to_currency=t).order_by("-date").first()] *)
Definition latest_automatic (rows : Table) (f t : Z) : option (Z * ExchangeRate) :=
  fold_left newer (List.filter (is_automatic_pair f t) (map_to_list rows)) None.

(** the state the loop works on: the table, the set [processed_pairs], and
    how many times [timezone.now()] has been read *)
Record FetchState : Type := mkState {
  rows : Table;
  processed_pairs : gset (Z * Z);
  clock_reads : nat
}.

Section Fetch.
Variable backend : Backend.
(** [clock n] is what the [n]-th call of [timezone.now()] returns *)
Variable clock : nat → Z.
(** [provider.rates_inverted] *)
Variable rates_inverted : bool.
Variable service : ExchangeRateService.

(** the body of [for from_currency, to_currency, rate in rates]; currencies
    are given by their ids *)
Definition process_tuple (st : FetchState) (tuple : Z * Z * Decimal) : result FetchState :=
  let '(from_currency, to_currency, rate_) := tuple in
  let pair_key := (from_currency, to_currency) in
  if decide (pair_key ∈ processed_pairs st) then Ok st
  else
    let now := clock (clock_reads st) in
    if rates_inverted then
      let exchange_rate :=
        if singleton service then latest_automatic (rows st) to_currency from_currency
        else None in
      rows' ← match exchange_rate with
              | None => create backend (rows st) to_currency from_currency rate_ now
              | Some (k, er) =>
                  save backend (rows st) k
                    (mkRate (from_currency_id er) (to_currency_id er) rate_ now
                            (automatic er))
              end;
      Ok (mkState rows' ({[(to_currency, from_currency)]} ∪ processed_pairs st)
                  (S (clock_reads st)))
    else
      let exchange_rate :=
        if singleton service then latest_automatic (rows st) from_currency to_currency
        else None in
      rows' ← match exchange_rate with
              | None => create backend (rows st) from_currency to_currency rate_ now
              | Some (k, er) =>
                  save backend (rows st) k
                    (mkRate (from_currency_id er) (to_currency_id er) rate_ now
                            (automatic er))
              end;
      Ok (mkState rows' ({[(from_currency, to_currency)]} ∪ processed_pairs st)
                  (S (clock_reads st))).

(** the loop; an exception leaves it, with the table as it is by then *)
Fixpoint fetch_loop (st : FetchState) (rates : list (Z * Z * Decimal))
    : FetchState * option exn :=
  match rates with
  | [] => (st, None)
  | tuple :: rates' =>
      match process_tuple st tuple with
      | Ok st' => fetch_loop st' rates'
      | Raise e => (st, Some e)
      end
  end.

(** [_fetch_service_rates] from [rates = provider.get_rates(...)] on: the
    loop, then [service.last_fetch = timezone.now()]; [except Exception]
    logs and returns. The result is the table and the service afterwards. *)
Definition _fetch_service_rates (table : Table)
    (rates : list (Z * Z * Decimal)) : Table * ExchangeRateService :=
  match fetch_loop (mkState table ∅ 0) rates with
  | (st, None) =>
      (rows st,
       mkService (name service) (interval_type service) (fetch_interval service)
                 (Some (clock (clock_reads st))) (singleton service))
  | (st, Some _) => (rows st, service)
  end.

End Fetch.


(** ** models.py: [ExchangeRateService.clean] *)

(** the ValidationError messages of [clean] *)
Inductive ValidationError : Type :=
  | every_requires_integer  (* 'Every X hours' interval type requires a positive integer. *)
  | every_out_of_range      (* 'Every X hours' interval must be between 1 and 24. *)
  | invalid_hour_format     (* Invalid hour format. Use comma-separated hours ... *)
  | invalid_format.         (* Invalid format. Please check the requirements ... *)

(** [s.isdigit()] on ASCII text *)
Definition isdigit (s : str) : bool :=
  match s with
  | [] => false
  | _ => forallb (λ c, match digit_val c with Some _ => true | None => false end) s
  end.

Definition digit_char (d : Z) : ascii := ascii_of_nat (Z.to_nat (48 + d)).

Fixpoint digits_fuel (fuel : nat) (n : Z) (acc : str) : str :=
  match fuel with
  | O => acc
  | S fuel' =>
      let acc' := digit_char (n mod 10) :: acc in
      if n <? 10 then acc' else digits_fuel fuel' (n / 10) acc'
  end.

(** [str(n)] for an int *)
Definition str_of_Z (n : Z) : str :=
  if n <? 0 then "-"%char :: digits_fuel (S (Z.to_nat (Z.log2 (- n)))) (- n) []
  else digits_fuel (S (Z.to_nat (Z.log2 n))) n [].

(** [sep.join(pieces)] *)
Fixpoint str_join (sep : ascii) (pieces : list str) : str :=
  match pieces with
  | [] => []
  | [w] => w
  | w :: ws => w ++ sep :: str_join sep ws
  end.

(** [",".join(str(h) for h in sorted(hours))] *)
Definition normalized_interval (hours : gset Z) : string :=
  string_of_list_ascii (str_join "," (map str_of_Z (merge_sort Z.le (elements hours)))).

(** [clean]: a ValidationError, or the service as [clean] leaves it. The
    string is within the field's [max_length] of 1000, so that [int()] reads
    every string of digits. *)
Definition clean (service : ExchangeRateService) : ValidationError + ExchangeRateService :=
  match interval_type service with
  | EVERY =>
      if negb (isdigit (list_ascii_of_string (fetch_interval service))) then
        inl every_requires_integer
      else
        match int (list_ascii_of_string (fetch_interval service)) with
        | Ok hours =>
            if (hours <? 1) || (24 <? hours) then inl every_out_of_range
            else inr service
        | Raise _ => inl invalid_format
        end
  | _ =>
      match _parse_hour_ranges (fetch_interval service) with
      | Ok hours =>
          inr (mkService (name service) (interval_type service)
                         (normalized_interval hours)
                         (last_fetch service) (singleton service))
      | Raise ValueError => inl invalid_hour_format
      | Raise _ => inl invalid_format
      end
  end.

(** ** twelvedata.py: [TwelveDataMarketsProvider._parse_code] *)

(** [s.startswith(p)] *)
Fixpoint startswith (p s : str) : bool :=
  match p, s with
  | [], _ => true
  | c :: p', c' :: s' => Ascii.eqb c c' && startswith p' s'
  | _ :: _, [] => false
  end.

(** [s.removeprefix(p)] *)
Definition removeprefix (p s : str) : str :=
  if startswith p s then drop (length p) s else s.

Definition _parse_code (raw_code : str) : str * str :=
  if startswith (list_ascii_of_string "figi:") raw_code then
    (list_ascii_of_string "figi", removeprefix (list_ascii_of_string "figi:") raw_code)
  else if startswith (list_ascii_of_string "cusip:") raw_code then
    (list_ascii_of_string "cusip", removeprefix (list_ascii_of_string "cusip:") raw_code)
  else if startswith (list_ascii_of_string "isin:") raw_code then
    (list_ascii_of_string "isin", removeprefix (list_ascii_of_string "isin:") raw_code)
  else (list_ascii_of_string "symbol", raw_code).

(** ** models.py: Currency, as far as the providers read it *)

Record Currency : Type := mkCurrency {
  currency_id : Z;
  code : string;
  exchange_currency_id : option Z   (* the foreign key [exchange_currency] *)
}.

(** ** transitive_rate.py: [TransitiveRateProvider.get_rates] *)

(** the pair [path, rate] of [_find_conversion_path]; the search always
    returns ([find_conversion_path_returns]) *)
Definition find_path (graph : Graph) (from_id to_id : Z) : option (list Z * Decimal) :=
  match _find_conversion_path graph from_id to_id with
  | Some res => res
  | None => None
  end.

(** the loop [for target in target_currencies]. A set of currencies is the
    set of their ids. The codes of the path are looked up for a log line
    only; the nodes of the graph are foreign keys of stored rows. *)
Fixpoint transitive_loop (currency_graph : Graph) (exchange_currencies : gset Z)
    (target_currencies : list Currency) (results : list (Z * Z * Decimal))
    : list (Z * Z * Decimal) :=
  match target_currencies with
  | [] => results
  | target :: rest =>
      match exchange_currency_id target with
      | None => transitive_loop currency_graph exchange_currencies rest results
      | Some exchange =>
          if decide (exchange ∉ exchange_currencies) then
            transitive_loop currency_graph exchange_currencies rest results
          else
            let from_id := exchange in
            let to_id := currency_id target in
            match find_path currency_graph from_id to_id with
            | Some (path, rate_) =>
                (* if path and rate: *)
                if negb (bool_decide (path = [])) && negb (Dec.is_zero rate_) then
                  transitive_loop currency_graph exchange_currencies rest
                    (results ++ [(exchange, currency_id target, rate_)])
                else transitive_loop currency_graph exchange_currencies rest results
            | None => transitive_loop currency_graph exchange_currencies rest results
            end
      end
  end.

(** [get_rates]; [recent_rates] is what [ExchangeRate.objects.all()] yields *)
Definition transitive_get_rates (recent_rates : list ExchangeRate)
    (target_currencies : list Currency) (exchange_currencies : gset Z)
    : result (list (Z * Z * Decimal)) :=
  currency_graph ← _build_currency_graph recent_rates;
  Ok (transitive_loop currency_graph exchange_currencies target_currencies []).

(** ** fetcher.py: [_fetch_service_rates] as a whole *)

(** [ExchangeRateService.ServiceType] *)
Inductive ServiceType : Type :=
  | COINGECKO_FREE | COINGECKO_PRO | PICTET | TRANSITIVE
  | FRANKFURTER | TWELVEDATA | TWELVEDATA_MARKETS.

(** the provider classes that [PROVIDER_MAPPING] names *)
Inductive ProviderClass : Type :=
  | CoinGeckoFreeProvider | CoinGeckoProProvider | TransitiveRateProvider
  | FrankfurterProvider | TwelveDataProvider | TwelveDataMarketsProvider.

(** [PROVIDER_MAPPING[service_type]]; [None] is the KeyError *)
Definition PROVIDER_MAPPING (service_type : ServiceType) : option ProviderClass :=
  match service_type with
  | COINGECKO_FREE => Some CoinGeckoFreeProvider
  | COINGECKO_PRO => Some CoinGeckoProProvider
  | TRANSITIVE => Some TransitiveRateProvider
  | FRANKFURTER => Some FrankfurterProvider
  | TWELVEDATA => Some TwelveDataProvider
  | TWELVEDATA_MARKETS => Some TwelveDataMarketsProvider
  | PICTET => None
  end.

Definition requires_api_key (provider : ProviderClass) : bool :=
  match provider with
  | CoinGeckoFreeProvider | CoinGeckoProProvider => true
  | TransitiveRateProvider | FrankfurterProvider => false
  | TwelveDataProvider | TwelveDataMarketsProvider => true
  end.

Definition provider_rates_inverted (provider : ProviderClass) : bool :=
  match provider with
  | CoinGeckoFreeProvider | CoinGeckoProProvider => true
  | TransitiveRateProvider => true
  | FrankfurterProvider | TwelveDataProvider => false
  | TwelveDataMarketsProvider => true
  end.

Section FetchService.
Variable backend : Backend.
Variable clock : nat → Z.
(** what the providers that call a remote service get back: their
    [get_rates] as a function of its arguments *)
Variable remote_rates :
  ProviderClass → list Currency → gset Z → result (list (Z * Z * Decimal)).
(** the order in which [ExchangeRate.objects.all()] yields the rows *)
Variable all_rows : Table → list ExchangeRate.

Definition get_rates (provider : ProviderClass) (table : Table)
    (target_currencies : list Currency) (exchange_currencies : gset Z)
    : result (list (Z * Z * Decimal)) :=
  match provider with
  | TransitiveRateProvider =>
      transitive_get_rates (all_rows table) target_currencies exchange_currencies
  | _ => remote_rates provider target_currencies exchange_currencies
  end.

(** [not service.api_key] *)
Definition api_key_missing (api_key : option string) : bool :=
  match api_key with
  | None => true
  | Some k => bool_decide (k = ""%string)
  end.

(** [_fetch_service_rates]; [target_currencies] and [exchange_currencies] are
    what [_get_unique_currency_pairs] returned. The constructor of a provider
    keeps the key and opens a session. Every exception ends in the handler,
    which logs and returns. *)
Definition fetch_service (service : ExchangeRateService) (service_type : ServiceType)
    (api_key : option string) (target_currencies : list Currency)
    (exchange_currencies : gset Z) (table : Table) : Table * ExchangeRateService :=
  match PROVIDER_MAPPING service_type with
  | None => (table, service)
  | Some provider =>
      if requires_api_key provider && api_key_missing api_key then (table, service)
      else if bool_decide (target_currencies = []) ||
              bool_decide (exchange_currencies = ∅) then (table, service)
      else
        match get_rates provider table target_currencies exchange_currencies with
        | Raise _ => (table, service)
        | Ok rates =>
            _fetch_service_rates backend clock (provider_rates_inverted provider) service
              table rates
        end
  end.

End FetchService.
(** * Predicates used in the statements *)

(** a stored rate that is not zero *)
Definition nonzero_rate (r : ExchangeRate) : Prop := Dec.is_zero (rate r) = false.

#[global] Instance nonzero_rate_dec r : Decision (nonzero_rate r).
Proof. unfold nonzero_rate. apply _. Defined.

(** a record that touches the two edges between [a] and [b] *)
Definition touches (a b : Z) (r : ExchangeRate) : Prop :=
  (from_currency_id r = a ∧ to_currency_id r = b) ∨
  (from_currency_id r = b ∧ to_currency_id r = a).

(** [reach graph src n v]: [v] is [n] edges away from [src] along some walk *)
Inductive reach (graph : Graph) (src : Z) : nat → Z → Prop :=
  | reach_O : reach graph src 0 src
  | reach_S n u v :
      reach graph src n u → is_Some (edge_weight graph u v) →
      reach graph src (S n) v.

(** [walk graph u rest]: [u :: rest] follows edges of the graph *)
Fixpoint walk (graph : Graph) (u : Z) (rest : list Z) : Prop :=
  match rest with
  | [] => True
  | v :: rest' => is_Some (edge_weight graph u v) ∧ walk graph v rest'
  end.

(** [p] is a path of the graph from [a] to [b] *)
Definition is_path (graph : Graph) (a b : Z) (p : list Z) : Prop :=
  ∃ rest, p = a :: rest ∧ walk graph a rest ∧ last p = Some b.

(** the weights along [u :: rest] multiplied from the left into [acc] *)
Fixpoint compose_from (mul : Decimal → Decimal → Decimal) (graph : Graph)
    (u : Z) (rest : list Z) (acc : Decimal) : option Decimal :=
  match rest with
  | [] => Some acc
  | v :: rest' =>
      match edge_weight graph u v with
      | Some w => compose_from mul graph v rest' (mul acc w)
      | None => None
      end
  end.

(** the composed rate of a path, seeded with 1, with the multiplication of
    the decimal context (28 significant digits) *)
Definition path_rate (graph : Graph) (p : list Z) : option Decimal :=
  match p with
  | [] => None
  | u :: rest => compose_from Dec.mul graph u rest Dec.one
  end.


(** a path as the search builds it: from [src], one appended node at a time,
    with its composed rate *)
Inductive path_to (graph : Graph) (src : Z) : list Z → Z → Decimal → Prop :=
  | path_to_src : path_to graph src [src] src Dec.one
  | path_to_snoc p u r w wt :
      path_to graph src p u r → edge_weight graph u w = Some wt →
      path_to graph src (p ++ [w]) w (Dec.mul r wt).

Definition entry_len (e : QueueEntry) : nat := length e.1.2.

(** the queue holds its entries by non-decreasing path length *)
Fixpoint sorted_len (queue : list QueueEntry) : Prop :=
  match queue with
  | [] => True
  | e :: queue' =>
      Forall (λ e', (entry_len e ≤ entry_len e')%nat) queue' ∧ sorted_len queue'
  end.

(** the invariant of the [while queue] loop *)
Record bfs_inv (graph : Graph) (src to_id : Z)
    (queue : list QueueEntry) (visited : gset Z) : Prop := {
  inv_paths : ∀ v p r, (v, p, r) ∈ queue → path_to graph src p v r;
  inv_short : ∀ v p r n,
    (v, p, r) ∈ queue → reach graph src n v → (length p ≤ S n)%nat;
  inv_sorted : sorted_len queue;
  inv_level : ∀ e1 e2, e1 ∈ queue → e2 ∈ queue →
    (entry_len e2 ≤ S (entry_len e1))%nat;
  inv_src : src ∈ visited;
  inv_closed : ∀ v, v ∈ visited →
    (∃ p r, (v, p, r) ∈ queue) ∨
    (v ≠ to_id ∧ ∀ w, is_Some (edge_weight graph v w) → w ∈ visited)
}.




(** [sep.join(pieces)] *)
Fixpoint join (sep : ascii) (pieces : list str) : str :=
  match pieces with
  | [] => []
  | [w] => w
  | w :: ws => w ++ sep :: join sep ws
  end.

(** the token is one integer literal [h] *)
Definition is_single (t : str) (h : Z) : Prop :=
  contains "-" t = false ∧ py_int t = Some h.

(** the token is a range [lo-hi] of two integer literals *)
Definition is_range (t : str) (lo hi : Z) : Prop :=
  ∃ a b, t = a ++ "-"%char :: b ∧
    contains "-" a = false ∧ contains "-" b = false ∧
    py_int a = Some lo ∧ py_int b = Some hi.

(** a well-formed token and the hours it covers *)
Definition token_hours (t : str) (hs : list Z) : Prop :=
  (∃ h, is_single t h ∧ 0 ≤ h ≤ 23 ∧ hs = [h]) ∨
  (∃ lo hi, is_range t lo hi ∧ 0 ≤ lo ∧ lo ≤ hi ∧ hi ≤ 23 ∧ hs = hour_range lo hi).

(** the three ways a token is rejected *)
Definition token_unparseable (t : str) : Prop :=
  (∀ h, ¬ is_single t h) ∧ (∀ lo hi, ¬ is_range t lo hi).

Definition token_out_of_bounds (t : str) : Prop :=
  (∃ h, is_single t h ∧ ¬ (0 ≤ h ≤ 23)) ∨
  (∃ lo hi, is_range t lo hi ∧ ¬ (0 ≤ lo ≤ 23 ∧ 0 ≤ hi ≤ 23)).

Definition token_inverted (t : str) : Prop :=
  ∃ lo hi, is_range t lo hi ∧ hi < lo.

Definition token_fault (t : str) : Prop :=
  token_unparseable t ∨ token_out_of_bounds t ∨ token_inverted t.

(** the stripped tokens of an interval string *)
Definition tokens (interval_str : string) : list str :=
  map strip (interval_parts interval_str).

(** whole hours from [last] to [now], both taken at the start of their hour *)
Definition elapsed_hours (last now : Z) : Z :=
  (truncate_hour now - truncate_hour last) / hour_us.

(** a [fetch_interval] that does not parse under the service's interval type *)
Definition malformed_interval (service : ExchangeRateService) : Prop :=
  match interval_type service with
  | ON | NOT_ON => Exists token_fault (tokens (fetch_interval service))
  | EVERY => py_int (list_ascii_of_string (fetch_interval service)) = None
  | OtherInterval _ => False
  end.

(** [stored] is [x] at the 30 decimal places of the rate column: the same
    number when [x] has no more than 30 decimals, otherwise within half a
    unit of the 30th place *)
Definition to_30_places (x stored : Decimal) : Prop :=
  Dec.exp stored = -30 ∧
  (-30 ≤ Dec.exp x → Dec.eqb stored x = true) ∧
  (Dec.exp x < -30 →
   2 * Z.abs (Dec.coef stored * 10 ^ (-30 - Dec.exp x) - Dec.coef x)
     ≤ 10 ^ (-30 - Dec.exp x)).

(** [x] rounds to fewer than 13 integer digits: |x| < 10^12 - 10^-30 / 2 *)
Definition fits_column (x : Decimal) : Prop :=
  if -30 <=? Dec.exp x then Z.abs (Dec.coef x) * 10 ^ (Dec.exp x + 30) < 10 ^ 42
  else 2 * Z.abs (Dec.coef x) < (2 * 10 ^ 42 - 1) * 10 ^ (-30 - Dec.exp x).

(** the rows stored for the pair [(f, t)] *)
Definition count_pair (rows : Table) (f t : Z) : nat :=
  size (filter (λ kr : Z * ExchangeRate,
                  from_currency_id kr.2 = f ∧ to_currency_id kr.2 = t) rows).

(** an automatically created row of the pair [(f, t)] *)
Definition automatic_pair (f t : Z) (r : ExchangeRate) : Prop :=
  automatic r = true ∧ from_currency_id r = f ∧ to_currency_id r = t.

(** the pair a provider tuple [(a, b, _)] is stored under *)
Definition resolved (rates_inverted : bool) (a b : Z) : Z * Z :=
  if rates_inverted then (b, a) else (a, b).

(** sample inputs: a clock that advances with every reading, two services,
    and a table with one automatic row 2 -> 1 and one manual row 2 -> 1 *)
Definition sample_clock (n : nat) : Z := 1000 + Z.of_nat n.

Definition series_service : ExchangeRateService :=
  mkService "coingecko" EVERY "24" None false.

Definition singleton_service : ExchangeRateService :=
  mkService "coingecko" EVERY "24" None true.

Definition sample_table : Table :=
  {[ 7 := mkRate 2 1 (Dec.mkDec 5 (-1)) 900 true;
     8 := mkRate 2 1 (Dec.mkDec 6 (-1)) 950 false ]}.

(** the graph of the rates 1->2 = 0.9 and 2->3 = 0.8 (USD, EUR, GBP) *)
Definition usd_eur_gbp : list ExchangeRate :=
  [mkRate 1 2 (Dec.mkDec 9 (-1)) 0 true; mkRate 2 3 (Dec.mkDec 8 (-1)) 0 true].



(** a string that neither starts nor ends with white space *)
Definition nonspace_ends (w : str) : Prop :=
  (∃ c w', w = c :: w' ∧ is_space c = false) ∧
  (∃ c w', rev w = c :: w' ∧ is_space c = false).

(** what [str(h)] looks like to the parser, for the hours of a day *)
Definition hour_literal_ok (h : Z) : Prop :=
  parse_part (str_of_Z h) = Ok [h] ∧
  contains "," (str_of_Z h) = false ∧
  nonspace_ends (str_of_Z h).

(** the automatic rows stored for the pair [(f, t)] *)
Definition count_auto (rows : Table) (f t : Z) : nat :=
  size (filter (λ kr : Z * ExchangeRate, automatic_pair f t kr.2) rows).

(** the pairs [(from, to)] of a batch, as the provider gives them *)
Definition batch_pairs (rates : list (Z * Z * Decimal)) : gset (Z * Z) :=
  list_to_set (map fst rates).

(** every stored date is before the next reading of the clock *)
Definition clock_ahead (clock : nat → Z) (st : FetchState) : Prop :=
  ∀ k r, rows st !! k = Some r → date r < clock (clock_reads st).

(** every queued path is free of repetitions and runs through visited nodes *)
Definition queue_simple (queue : list QueueEntry) (visited : gset Z) : Prop :=
  ∀ v p r, (v, p, r) ∈ queue → NoDup p ∧ ∀ x, x ∈ p → x ∈ visited.

(** every rate of the batch fits the rate column *)
Definition batch_fits (rates : list (Z * Z * Decimal)) : Prop :=
  Forall (λ tuple : Z * Z * Decimal, fits_column tuple.2) rates.

(** * Properties *)

(** ** Dictionaries *)

Section DictFacts.
Context {V : Type}.
Implicit Types (d : list (Z * V)) (k : Z) (v : V).

Lemma dict_get_set_eq d k v : dict_get (dict_set d k v) k = Some v.
Proof.
  induction d as [|[k' v'] d IH]; simpl.
  - by rewrite Z.eqb_refl.
  - destruct (Z.eqb_spec k k') as [->|Hne]; simpl.
    + by rewrite Z.eqb_refl.
    + by destruct (Z.eqb_spec k k').
Qed.

Lemma dict_get_set_ne d k k' v :
  k ≠ k' → dict_get (dict_set d k v) k' = dict_get d k'.
Proof.
  intros Hne. induction d as [|[k0 v0] d IH]; simpl.
  - by destruct (Z.eqb_spec k' k); [subst|].
  - destruct (Z.eqb_spec k k0) as [->|Hk]; simpl.
    + destruct (Z.eqb_spec k' k0); [by subst|done].
    + by rewrite IH.
Qed.

Lemma dict_get_Some_In d k v : dict_get d k = Some v → (k, v) ∈ d.
Proof.
  induction d as [|[k' v'] d IH]; simpl; [done|].
  destruct (Z.eqb_spec k k') as [->|Hne].
  - intros [= ->]. apply list_elem_of_here.
  - intros H. apply list_elem_of_further. auto.
Qed.

Lemma dict_get_None_not_In d k v : dict_get d k = None → (k, v) ∉ d.
Proof.
  induction d as [|[k' v'] d IH]; simpl.
  - intros _ H. by apply not_elem_of_nil in H.
  - destruct (Z.eqb_spec k k') as [->|Hne]; [done|].
    intros H Hin. apply elem_of_cons in Hin as [[= -> ->]|Hin]; [done|].
    by apply IH.
Qed.

End DictFacts.

(** ** Graph construction *)

Lemma edge_weight_ensure graph k a b :
  edge_weight (graph_ensure graph k) a b = edge_weight graph a b.
Proof.
  unfold edge_weight, graph_ensure, graph_get, dict_mem.
  destruct (dict_get graph k) eqn:Hk; [done|].
  destruct (decide (k = a)) as [->|Hne].
  - by rewrite dict_get_set_eq, Hk.
  - by rewrite dict_get_set_ne.
Qed.

Lemma edge_weight_set_edge graph a b w x y :
  edge_weight (graph_set_edge graph a b w) x y =
  if decide (x = a ∧ y = b) then Some w else edge_weight graph x y.
Proof.
  unfold edge_weight, graph_set_edge.
  destruct (decide (x = a)) as [->|Hx].
  - unfold graph_get at 1. rewrite dict_get_set_eq.
    destruct (decide (y = b)) as [->|Hy].
    + rewrite dict_get_set_eq. by rewrite decide_True.
    + rewrite dict_get_set_ne by done. case_decide; [naive_solver|done].
  - unfold graph_get at 1. rewrite dict_get_set_ne by done.
    case_decide; [naive_solver|done].
Qed.


Lemma div_one_nonzero (x : Decimal) :
  Dec.is_zero x = false → ∃ inv, Dec.div Dec.one x = Ok inv.
Proof.
  intros Hx. unfold Dec.div. rewrite Hx.
  change (Dec.is_zero Dec.one) with false. cbv iota.
  repeat match goal with
         | |- context [let '(_, _) := ?p in _] => destruct p
         end.
  eauto.
Qed.

Lemma div_one_zero (x : Decimal) :
  Dec.is_zero x = true → Dec.div Dec.one x = Raise DivisionByZero.
Proof. intros Hx. unfold Dec.div. by rewrite Hx. Qed.

(** the edges after one record *)
Lemma add_rate_edges graph r graph' x y :
  add_rate graph r = Ok graph' →
  ∃ inv, Dec.div Dec.one (rate r) = Ok inv ∧
    edge_weight graph' x y =
      if decide (x = to_currency_id r ∧ y = from_currency_id r) then Some inv
      else if decide (x = from_currency_id r ∧ y = to_currency_id r) then Some (rate r)
      else edge_weight graph x y.
Proof.
  unfold add_rate. destruct (Dec.div Dec.one (rate r)) as [inv|e]; [|done].
  intros [= <-]. exists inv. split; [done|].
  rewrite edge_weight_set_edge. case_decide; [done|].
  rewrite edge_weight_ensure, edge_weight_set_edge. case_decide; [done|].
  by rewrite edge_weight_ensure.
Qed.

Lemma add_rate_ok graph r :
  nonzero_rate r → ∃ graph', add_rate graph r = Ok graph'.
Proof.
  intros Hr. destruct (div_one_nonzero _ Hr) as [inv Hinv].
  unfold add_rate. rewrite Hinv. simpl. eauto.
Qed.

Lemma add_rate_zero graph r :
  ¬ nonzero_rate r → add_rate graph r = Raise DivisionByZero.
Proof.
  intros Hr. unfold add_rate. rewrite div_one_zero; [done|].
  unfold nonzero_rate in Hr. by destruct (Dec.is_zero (rate r)).
Qed.

Lemma build_from_ok graph rates :
  Forall nonzero_rate rates → ∃ graph', build_from graph rates = Ok graph'.
Proof.
  intros H. revert graph. induction H as [|r rates Hr _ IH]; intros graph; simpl.
  - eauto.
  - destruct (add_rate_ok graph r Hr) as [g1 ->]. simpl. apply IH.
Qed.

Lemma build_from_zero graph rates :
  ¬ Forall nonzero_rate rates → build_from graph rates = Raise DivisionByZero.
Proof.
  revert graph. induction rates as [|r rates IH]; intros graph Hn; simpl.
  - destruct Hn. constructor.
  - destruct (decide (nonzero_rate r)) as [Hr|Hr].
    + destruct (add_rate_ok graph r Hr) as [g1 ->]. simpl. apply IH.
      intros HF. apply Hn. by constructor.
    + by rewrite add_rate_zero.
Qed.

Lemma build_from_app graph rates1 rates2 :
  build_from graph (rates1 ++ rates2) =
  (graph' ← build_from graph rates1; build_from graph' rates2).
Proof.
  revert graph. induction rates1 as [|r rates1 IH]; intros graph; simpl; [done|].
  destruct (add_rate graph r) as [g1|e]; simpl; [apply IH|done].
Qed.


Lemma build_from_untouched graph rates graph' a b :
  Forall (λ r, ¬ touches a b r) rates →
  build_from graph rates = Ok graph' →
  edge_weight graph' a b = edge_weight graph a b.
Proof.
  intros H. revert graph. induction H as [|r rates Hr _ IH]; intros graph; simpl.
  - by intros [= ->].
  - destruct (add_rate graph r) as [g1|e] eqn:Hadd; simpl; [|done].
    intros Hb. rewrite (IH _ Hb).
    destruct (add_rate_edges _ _ _ a b Hadd) as (inv & _ & ->).
    unfold touches in Hr.
    repeat case_decide; naive_solver.
Qed.

(** C5. For every record (A, B, r, date) of the input, graph construction adds
    the edge A->B with weight r and the edge B->A with weight 1/r (the decimal
    quotient [Decimal("1") / r]); when several records give an edge for the
    same ordered pair, the finished graph has the weight of the last record
    processed: if no record after [r] touches the pair, both edges are the
    ones of [r]. (A record with A = B writes the same cell twice and is left
    with the second write, 1/r.) *)
Theorem build_graph_edges_last_wins (rates1 rates2 : list ExchangeRate) (r : ExchangeRate) :
  Forall nonzero_rate (rates1 ++ r :: rates2) →
  Forall (λ x, ¬ touches (from_currency_id r) (to_currency_id r) x) rates2 →
  ∃ graph inv,
    _build_currency_graph (rates1 ++ r :: rates2) = Ok graph ∧
    Dec.div Dec.one (rate r) = Ok inv ∧
    edge_weight graph (to_currency_id r) (from_currency_id r) = Some inv ∧
    (from_currency_id r ≠ to_currency_id r →
     edge_weight graph (from_currency_id r) (to_currency_id r) = Some (rate r)).
Proof.
  intros Hnz Hlast.
  destruct (build_from_ok [] _ Hnz) as [graph Hg].
  unfold _build_currency_graph. rewrite Hg.
  rewrite build_from_app in Hg.
  destruct (build_from [] rates1) as [g1|e] eqn:H1; simpl in Hg; [|done].
  destruct (add_rate g1 r) as [g2|e] eqn:H2; simpl in Hg; [|done].
  destruct (add_rate_edges _ _ _ (to_currency_id r) (from_currency_id r) H2)
    as (inv & Hinv & Hback).
  destruct (add_rate_edges _ _ _ (from_currency_id r) (to_currency_id r) H2)
    as (inv' & Hinv' & Hfwd).
  exists graph, inv. split; [done|]. split; [done|]. split.
  - rewrite (build_from_untouched g2 rates2 graph); [|
      eapply Forall_impl; [exact Hlast|]; unfold touches; naive_solver | done].
    rewrite Hback. by rewrite decide_True.
  - intros Hne.
    rewrite (build_from_untouched g2 rates2 graph); [|done|done].
    rewrite Hfwd. case_decide; [naive_solver|]. by rewrite decide_True.
Qed.

Lemma build_graph_edges_last_wins_witness :
  ∃ graph inv,
    _build_currency_graph
      ([mkRate 10 20 (Dec.mkDec 5 (-1)) 0 true] ++
       mkRate 10 20 (Dec.mkDec 8 (-1)) 1 true ::
       [mkRate 20 30 (Dec.mkDec 3 0) 2 false]) = Ok graph ∧
    Dec.div Dec.one (Dec.mkDec 8 (-1)) = Ok inv ∧
    edge_weight graph 20 10 = Some inv ∧
    (10 ≠ 20 → edge_weight graph 10 20 = Some (Dec.mkDec 8 (-1))).
Proof.
  apply (build_graph_edges_last_wins
           [mkRate 10 20 (Dec.mkDec 5 (-1)) 0 true]
           [mkRate 20 30 (Dec.mkDec 3 0) 2 false]
           (mkRate 10 20 (Dec.mkDec 8 (-1)) 1 true)).
  - repeat constructor.
  - repeat constructor. unfold touches. simpl. lia.
Defined.

(** C10. Graph construction returns a graph exactly when every rate of the
    input is nonzero: it returns for every input whose rates are all nonzero,
    and on an input with a zero rate the reciprocal [Decimal("1") / rate]
    raises decimal.DivisionByZero (shown for every such input, and at the
    one-record input with rate 0). *)
Theorem build_graph_total_iff_nonzero :
  (∀ rates, Forall nonzero_rate rates → ∃ graph, _build_currency_graph rates = Ok graph) ∧
  (∀ rates, ¬ Forall nonzero_rate rates →
            _build_currency_graph rates = Raise DivisionByZero) ∧
  _build_currency_graph [mkRate 10 20 (Dec.mkDec 0 (-30)) 0 true] = Raise DivisionByZero.
Proof.
  split; [|split].
  - intros rates H. by apply build_from_ok.
  - intros rates H. by apply build_from_zero.
  - reflexivity.
Qed.

Lemma build_graph_total_iff_nonzero_witness :
  (∃ graph, _build_currency_graph
              [mkRate 10 20 (Dec.mkDec 9 (-1)) 0 true;
               mkRate 20 30 (Dec.mkDec 8 (-1)) 0 true] = Ok graph) ∧
  _build_currency_graph
    [mkRate 10 20 (Dec.mkDec 9 (-1)) 0 true;
     mkRate 20 30 (Dec.mkDec 0 0) 0 true] = Raise DivisionByZero.
Proof.
  split.
  - apply (proj1 build_graph_total_iff_nonzero). repeat constructor.
  - apply (proj1 (proj2 build_graph_total_iff_nonzero)).
    intros H. apply Forall_cons in H as [_ H]. apply Forall_cons in H as [H _].
    vm_compute in H. discriminate.
Defined.

(** ** The conversion-path search *)

Section Search.
Variable graph : Graph.
Variable src to_id : Z.

Lemma walk_reach u rest n :
  reach graph src n u → walk graph u rest →
  ∃ v, last (u :: rest) = Some v ∧ reach graph src (n + length rest) v.
Proof.
  revert u n. induction rest as [|w rest IH]; intros u n Hr Hw.
  - exists u. split; [done|]. by rewrite Nat.add_0_r.
  - destruct Hw as [He Hw].
    destruct (IH w (S n) (reach_S _ _ _ _ _ Hr He) Hw) as (v & Hl & Hv).
    exists v. split; [done|]. simpl. by rewrite Nat.add_succ_r.
Qed.

Lemma is_path_reach b p :
  is_path graph src b p → reach graph src (length p - 1) b.
Proof.
  intros (rest & -> & Hw & Hl).
  destruct (walk_reach src rest 0 (reach_O _ _) Hw) as (v & Hl' & Hv).
  rewrite Hl in Hl'. injection Hl' as <-.
  simpl. by rewrite Nat.sub_0_r.
Qed.

Lemma walk_snoc u rest w :
  walk graph u rest →
  (∃ x, last (u :: rest) = Some x ∧ is_Some (edge_weight graph x w)) →
  walk graph u (rest ++ [w]).
Proof.
  revert u. induction rest as [|v rest IH]; intros u Hw (x & Hl & He); simpl.
  - injection Hl as ->. done.
  - destruct Hw as [Huv Hw]. split; [done|]. apply IH; [done|]. by exists x.
Qed.

Lemma compose_from_snoc mul u rest acc w x r wt :
  compose_from mul graph u rest acc = Some r →
  last (u :: rest) = Some x →
  edge_weight graph x w = Some wt →
  compose_from mul graph u (rest ++ [w]) acc = Some (mul r wt).
Proof.
  revert u acc. induction rest as [|v rest IH]; intros u acc Hc Hl He; simpl in *.
  - injection Hc as ->. injection Hl as ->. by rewrite He.
  - destruct (edge_weight graph u v) as [w0|]; [|done]. by apply IH.
Qed.

(** a path built by the search is a path of the graph with its composed rate *)
Lemma path_to_sound p v r :
  path_to graph src p v r →
  is_path graph src v p ∧ path_rate graph p = Some r ∧
  reach graph src (length p - 1) v.
Proof.
  induction 1 as [|p u r w wt Hp (Hpath & Hrate & Hreach) He].
  - split; [|split].
    + by exists [].
    + done.
    + constructor.
  - destruct Hpath as (rest & -> & Hw & Hl). split; [|split].
    + exists (rest ++ [w]). split; [done|]. split.
      * apply walk_snoc; [done|]. exists u. by rewrite He.
      * change ((src :: rest) ++ [w]) with (src :: rest ++ [w]).
        by rewrite app_comm_cons, last_snoc.
    + simpl in *. by eapply compose_from_snoc.
    + rewrite length_app. simpl in *.
      replace (length rest + 1 - 0)%nat with (S (length rest - 0)) by lia.
      econstructor; [exact Hreach|]. by rewrite He.
Qed.

(** *** The inner loop *)

Lemma expand_spec items path current_rate queue visited :
  ∃ news,
    expand items path current_rate queue visited =
      (queue ++ news, list_to_set (map (λ e : QueueEntry, e.1.1) news) ∪ visited) ∧
    (∀ e, e ∈ news → ∃ w wt,
        e = (w, path ++ [w], Dec.mul current_rate wt) ∧
        dict_get items w = Some wt ∧ w ∉ visited) ∧
    (∀ w wt, (w, wt) ∈ items →
        w ∈ (list_to_set (map (λ e : QueueEntry, e.1.1) news) ∪ visited : gset Z)).
Proof.
  revert queue visited.
  induction items as [|[n wt0] items IH]; intros queue visited; simpl.
  - exists []. split; [|split].
    + rewrite app_nil_r. f_equal. set_solver.
    + intros e He. by apply not_elem_of_nil in He.
    + intros w wt Hin. by apply not_elem_of_nil in Hin.
  - destruct (decide (n ∈ visited)) as [Hin|Hnin].
    + destruct (IH queue visited) as (news & -> & Hnews & Hall).
      exists news. split; [done|]. split.
      * intros e He. destruct (Hnews e He) as (w & wt & -> & Hget & Hw).
        exists w, wt. split; [done|]. split; [|done].
        destruct (Z.eqb_spec w n); [by subst|done].
      * intros w wt Hw. apply elem_of_cons in Hw as [[= -> ->]|Hw].
        -- set_solver.
        -- by eapply Hall.
    + destruct (IH (queue ++ [(n, path ++ [n], Dec.mul current_rate wt0)])
                   ({[n]} ∪ visited)) as (news & -> & Hnews & Hall).
      exists ((n, path ++ [n], Dec.mul current_rate wt0) :: news).
      split; [|split].
      * rewrite <- app_assoc. simpl. f_equal. set_solver.
      * intros e He. apply elem_of_cons in He as [->|He].
        -- exists n, wt0. by rewrite Z.eqb_refl.
        -- destruct (Hnews e He) as (w & wt & -> & Hget & Hw).
           exists w, wt. split; [done|]. split; [|set_solver].
           destruct (Z.eqb_spec w n); [set_solver|done].
      * intros w wt Hw. apply elem_of_cons in Hw as [[= -> ->]|Hw].
        -- set_solver.
        -- specialize (Hall w wt Hw). set_solver.
Qed.

(** *** The invariant *)

Lemma bfs_inv_init : bfs_inv graph src to_id [(src, [src], Dec.one)] {[src]}.
Proof.
  split.
  - intros v p r Hin. apply list_elem_of_singleton in Hin as [= -> -> ->]. constructor.
  - intros v p r n Hin _. apply list_elem_of_singleton in Hin as [= -> -> ->]. simpl. lia.
  - simpl. split; [constructor|done].
  - intros e1 e2 H1 H2. apply list_elem_of_singleton in H1 as ->.
    apply list_elem_of_singleton in H2 as ->. lia.
  - set_solver.
  - intros v Hv. left. exists [src], Dec.one. set_solver.
Qed.

(** a node [n] edges away is visited, or some queued path is no longer
    than [n] nodes *)
Lemma bfs_frontier queue visited n w :
  bfs_inv graph src to_id queue visited →
  reach graph src n w →
  w ∈ visited ∨ ∃ e, e ∈ queue ∧ (entry_len e ≤ n)%nat.
Proof.
  intros Hinv. induction 1 as [|n u v Hr IH He].
  - left. apply Hinv.
  - destruct IH as [Hu|(e & Hin & Hlen)].
    + destruct (inv_closed _ _ _ _ _ Hinv u Hu) as [(p & r & Hin)|[_ Hcl]].
      * right. exists (u, p, r). split; [done|].
        apply (inv_short _ _ _ _ _ Hinv u p r n Hin Hr).
      * left. by apply Hcl.
    + right. exists e. split; [done|lia].
Qed.

Lemma sorted_len_app queue news k :
  sorted_len queue →
  Forall (λ e, (entry_len e ≤ k)%nat) queue →
  Forall (λ e, entry_len e = k) news →
  sorted_len (queue ++ news).
Proof.
  intros Hs Hq Hn. induction queue as [|e queue IH]; simpl.
  - induction Hn as [|e news He Hn IH]; simpl; [done|].
    split; [|done]. eapply Forall_impl; [exact Hn|]. simpl. intros; lia.
  - destruct Hs as [Hhd Hs]. apply Forall_cons in Hq as [He Hq]. split; [|by apply IH].
    apply Forall_app. split; [done|].
    eapply Forall_impl; [exact Hn|]. simpl. intros; lia.
Qed.

Lemma bfs_inv_step u pu ru rest visited queue' visited' :
  bfs_inv graph src to_id ((u, pu, ru) :: rest) visited →
  u ≠ to_id →
  expand (graph_get graph u) pu ru rest visited = (queue', visited') →
  bfs_inv graph src to_id queue' visited'.
Proof.
  intros Hinv Hne Hexp.
  destruct (expand_spec (graph_get graph u) pu ru rest visited)
    as (news & Heq & Hnews & Hall).
  rewrite Hexp in Heq. injection Heq as -> ->.
  assert (Hhead : path_to graph src pu u ru).
  { apply (inv_paths _ _ _ _ _ Hinv). apply list_elem_of_here. }
  assert (Hmin : ∀ e, e ∈ (u, pu, ru) :: rest → (length pu ≤ entry_len e)%nat).
  { intros e He. apply elem_of_cons in He as [->|He]; [done|].
    destruct (inv_sorted _ _ _ _ _ Hinv) as [Hhd _].
    rewrite Forall_forall in Hhd. by apply Hhd. }
  assert (Hnewlen : Forall (λ e, entry_len e = S (length pu)) news).
  { apply Forall_forall. intros e He.
    destruct (Hnews e He) as (w & wt & -> & _). unfold entry_len. simpl.
    rewrite length_app. simpl. lia. }
  assert (Hrestlen : Forall (λ e, (entry_len e ≤ S (length pu))%nat) rest).
  { apply Forall_forall. intros e He.
    apply (inv_level _ _ _ _ _ Hinv (u, pu, ru) e);
      [apply list_elem_of_here|by apply list_elem_of_further]. }
  split.
  - intros v p r Hin. apply elem_of_app in Hin as [Hin|Hin].
    + apply (inv_paths _ _ _ _ _ Hinv). by apply list_elem_of_further.
    + destruct (Hnews _ Hin) as (w & wt & [= -> -> ->] & Hget & _).
      econstructor; [exact Hhead|exact Hget].
  - intros v p r n Hin Hr. apply elem_of_app in Hin as [Hin|Hin].
    + apply (inv_short _ _ _ _ _ Hinv v p r n); [by apply list_elem_of_further|done].
    + destruct (Hnews _ Hin) as (w & wt & [= -> -> ->] & _ & Hw).
      rewrite length_app. simpl.
      destruct (bfs_frontier _ _ _ _ Hinv Hr) as [?|(e & He & Hlen)]; [done|].
      specialize (Hmin e He). lia.
  - eapply sorted_len_app; [|exact Hrestlen|exact Hnewlen].
    by destruct (inv_sorted _ _ _ _ _ Hinv).
  - rewrite Forall_forall in Hnewlen, Hrestlen.
    intros e1 e2 H1 H2.
    apply elem_of_app in H1 as [H1|H1]; apply elem_of_app in H2 as [H2|H2].
    + apply (inv_level _ _ _ _ _ Hinv); by apply list_elem_of_further.
    + rewrite (Hnewlen e2 H2).
      specialize (Hmin e1 (list_elem_of_further _ _ _ H1)). lia.
    + specialize (Hrestlen e2 H2). rewrite (Hnewlen e1 H1). lia.
    + rewrite (Hnewlen e1 H1), (Hnewlen e2 H2). lia.
  - apply elem_of_union_r. apply Hinv.
  - intros v Hv. apply elem_of_union in Hv as [Hv|Hv].
    + left. apply elem_of_list_to_set, list_elem_of_fmap in Hv as ([[v' p] r] & -> & Hin).
      exists p, r. apply elem_of_app. by right.
    + destruct (inv_closed _ _ _ _ _ Hinv v Hv) as [(p & r & Hin)|[Hvto Hcl]].
      * apply elem_of_cons in Hin as [[= -> -> ->]|Hin].
        -- right. split; [done|]. intros w [wt Hw].
           eapply Hall. apply dict_get_Some_In. exact Hw.
        -- left. exists p, r. apply elem_of_app. by left.
      * right. split; [done|]. intros w Hw. apply elem_of_union_r. by apply Hcl.
Qed.

(** *** The iteration budget *)

Lemma graph_get_targets u w wt :
  (w, wt) ∈ graph_get graph u → w ∈ targets graph.
Proof.
  unfold graph_get, targets. destruct (dict_get graph u) as [d|] eqn:Hd.
  - intros Hin. apply dict_get_Some_In in Hd.
    apply elem_of_list_to_set, list_elem_of_In, in_concat.
    exists (map fst d). split.
    + apply in_map_iff. exists (u, d). split; [done|]. by apply list_elem_of_In.
    + apply in_map_iff. exists (w, wt). split; [done|]. by apply list_elem_of_In.
  - intros Hin. by apply not_elem_of_nil in Hin.
Qed.

Lemma expand_measure (T : gset Z) items path current_rate queue visited queue' visited' :
  (∀ w wt, (w, wt) ∈ items → w ∈ T) →
  expand items path current_rate queue visited = (queue', visited') →
  (length queue' + size (T ∖ visited') ≤ length queue + size (T ∖ visited))%nat.
Proof.
  revert queue visited.
  induction items as [|[n wt0] items IH]; intros queue visited HT; simpl.
  - intros [= -> ->]. lia.
  - assert (HT' : ∀ w wt, (w, wt) ∈ items → w ∈ T).
    { intros w wt Hw. eapply HT. by apply list_elem_of_further. }
    destruct (decide (n ∈ visited)) as [Hin|Hnin].
    + by apply IH.
    + intros Hexp. apply IH in Hexp; [|done].
      rewrite length_app in Hexp. simpl in Hexp.
      assert (Hn : n ∈ T) by (eapply HT; apply list_elem_of_here).
      assert (size (T ∖ ({[n]} ∪ visited)) < size (T ∖ visited))%nat; [|lia].
      apply subset_size. set_solver.
Qed.

(** the loop returns within its budget: a path to [to_id] that no walk
    undercuts, or no path when [to_id] cannot be reached *)
Lemma bfs_loop_correct fuel queue visited :
  bfs_inv graph src to_id queue visited →
  (length queue + size (targets graph ∖ visited) ≤ fuel)%nat →
  ∃ res, bfs_loop fuel graph to_id queue visited = Some res ∧
    match res with
    | Some (p, r) =>
        path_to graph src p to_id r ∧
        ∀ n, reach graph src n to_id → (length p ≤ S n)%nat
    | None => ∀ n, ¬ reach graph src n to_id
    end.
Proof.
  revert queue visited.
  induction fuel as [|fuel IH]; intros queue visited Hinv Hfuel.
  - destruct queue as [|[[u pu] ru] rest]; simpl in *.
    + exists None. split; [done|]. intros n Hr.
      destruct (bfs_frontier _ _ _ _ Hinv Hr) as [Hv|(e & He & _)].
      * destruct (inv_closed _ _ _ _ _ Hinv _ Hv) as [(p & r & Hin)|[Hne _]]; [|done].
        by apply not_elem_of_nil in Hin.
      * by apply not_elem_of_nil in He.
    + lia.
  - destruct queue as [|[[u pu] ru] rest]; simpl in *.
    + exists None. split; [done|]. intros n Hr.
      destruct (bfs_frontier _ _ _ _ Hinv Hr) as [Hv|(e & He & _)].
      * destruct (inv_closed _ _ _ _ _ Hinv _ Hv) as [(p & r & Hin)|[Hne _]]; [|done].
        by apply not_elem_of_nil in Hin.
      * by apply not_elem_of_nil in He.
    + destruct (Z.eqb_spec u to_id) as [->|Hne].
      * exists (Some (pu, ru)). split; [done|]. split.
        -- apply (inv_paths _ _ _ _ _ Hinv). apply list_elem_of_here.
        -- intros n Hr. eapply (inv_short _ _ _ _ _ Hinv); [apply list_elem_of_here|done].
      * destruct (expand (graph_get graph u) pu ru rest visited)
          as [queue' visited'] eqn:Hexp.
        apply IH.
        -- eapply bfs_inv_step; eauto.
        -- apply (expand_measure (targets graph)) in Hexp; [lia|].
           intros w wt. apply graph_get_targets.
Qed.

End Search.

(** the search returns: its iteration budget is never exhausted *)
Lemma find_conversion_path_returns graph from_id to_id :
  ∃ res, _find_conversion_path graph from_id to_id = Some res.
Proof.
  unfold _find_conversion_path.
  destruct (negb (dict_mem graph from_id) || negb (dict_mem graph to_id)); [eauto|].
  destruct (bfs_loop_correct graph from_id to_id (bfs_fuel graph)
              [(from_id, [from_id], Dec.one)] {[from_id]}) as (res & -> & _).
  - apply bfs_inv_init.
  - unfold bfs_fuel. simpl.
    assert (size (targets graph ∖ {[from_id]}) ≤ size (targets graph))%nat; [|lia].
    apply subseteq_size. set_solver.
  - eauto.
Qed.

Lemma find_conversion_path_spec graph from_id to_id :
  dict_mem graph from_id = true → dict_mem graph to_id = true →
  ∃ res, _find_conversion_path graph from_id to_id = Some res ∧
    match res with
    | Some (p, r) =>
        path_to graph from_id p to_id r ∧
        ∀ n, reach graph from_id n to_id → (length p ≤ S n)%nat
    | None => ∀ n, ¬ reach graph from_id n to_id
    end.
Proof.
  intros Hf Ht. unfold _find_conversion_path. rewrite Hf, Ht.
  change (negb true || negb true) with false. cbv iota.
  apply bfs_loop_correct.
  - apply bfs_inv_init.
  - unfold bfs_fuel. simpl.
    assert (size (targets graph ∖ {[from_id]}) ≤ size (targets graph))%nat; [|lia].
    apply subseteq_size. set_solver.
Qed.






(** the nodes that walks from 10 can visit in the graph 10 <-> 20, 30 <-> 40 *)
Lemma two_islands_closed rest u :
  u = 10 ∨ u = 20 →
  walk [(10, [(20, Dec.mkDec 2 0)]); (20, [(10, Dec.mkDec 5 (-1))]);
        (30, [(40, Dec.mkDec 3 0)]); (40, [(30, Dec.mkDec 3 (-1))])] u rest →
  last (u :: rest) ≠ Some 40.
Proof.
  revert u. induction rest as [|v rest IH]; intros u Hu Hw.
  - simpl. intros [= ->]. lia.
  - destruct Hw as [He Hw]. rewrite last_cons_cons. apply IH; [|done].
    unfold edge_weight, graph_get in He. destruct Hu as [-> | ->]; simpl in He.
    + destruct (Z.eqb_spec v 20); [by right|]. by destruct He.
    + destruct (Z.eqb_spec v 10); [by left|]. by destruct He.
Qed.

(** C9. If either endpoint is not a key of the graph, or no chain of edges
    joins source and target, the search returns the no-path result
    [(None, None)]; it returns it within its iteration budget and raises
    nothing. *)
Theorem find_path_none graph from_id to_id :
  dict_mem graph from_id = false ∨ dict_mem graph to_id = false ∨
  (∀ p, ¬ is_path graph from_id to_id p) →
  _find_conversion_path graph from_id to_id = Some None.
Proof.
  intros H.
  destruct (dict_mem graph from_id) eqn:Hf; [|by unfold _find_conversion_path; rewrite Hf].
  destruct (dict_mem graph to_id) eqn:Ht; [|by unfold _find_conversion_path; rewrite Hf, Ht].
  destruct H as [?|[?|Hno]]; [done..|].
  destruct (find_conversion_path_spec graph from_id to_id Hf Ht) as (res & -> & Hspec).
  destruct res as [[p r]|]; [|done].
  destruct Hspec as [Hp _]. apply path_to_sound in Hp as [Hp _]. by apply Hno in Hp.
Qed.

Lemma find_path_none_witness :
  _find_conversion_path
    [(10, [(20, Dec.mkDec 2 0)]); (20, [(10, Dec.mkDec 5 (-1))]);
     (30, [(40, Dec.mkDec 3 0)]); (40, [(30, Dec.mkDec 3 (-1))])] 10 40 = Some None.
Proof.
  apply find_path_none. right. right.
  intros p (rest & -> & Hw & Hl).
  exact (two_islands_closed rest 10 (or_introl eq_refl) Hw Hl).
Defined.

(** ** The hour-set parser *)

Lemma ascii_eqb_sym (a b : ascii) : Ascii.eqb a b = Ascii.eqb b a.
Proof.
  destruct (Ascii.eqb_spec a b) as [->|Hne].
  - by rewrite Ascii.eqb_refl.
  - symmetry. apply Ascii.eqb_neq. congruence.
Qed.

Lemma split_on_nonempty sep s : split_on sep s ≠ [].
Proof.
  destruct s as [|c s]; simpl; [done|].
  destruct (Ascii.eqb c sep); [done|]. by destruct (split_on sep s).
Qed.

Lemma join_split_on sep s : join sep (split_on sep s) = s.
Proof.
  induction s as [|c s IH]; simpl; [done|].
  destruct (Ascii.eqb_spec c sep) as [->|Hne].
  - pose proof (split_on_nonempty sep s).
    destruct (split_on sep s) as [|w ws] eqn:Hs; [done|].
    simpl in *. by rewrite IH.
  - pose proof (split_on_nonempty sep s).
    destruct (split_on sep s) as [|w ws] eqn:Hs; [done|].
    destruct ws; simpl in *; by rewrite <- IH.
Qed.

Lemma split_on_pieces sep s :
  Forall (λ w, contains sep w = false) (split_on sep s).
Proof.
  induction s as [|c s IH]; simpl.
  - by repeat constructor.
  - destruct (Ascii.eqb_spec c sep) as [->|Hne].
    + by constructor.
    + pose proof (split_on_nonempty sep s).
      destruct (split_on sep s) as [|w ws]; [done|].
      apply Forall_cons in IH as [Hw Hws]. constructor; [|done].
      unfold contains in *. simpl. rewrite Hw.
      rewrite ascii_eqb_sym. by apply Ascii.eqb_neq in Hne as ->.
Qed.

Lemma split_on_app sep a b :
  contains sep a = false → split_on sep (a ++ sep :: b) = a :: split_on sep b.
Proof.
  induction a as [|c a IH]; simpl; intros Ha.
  - by rewrite Ascii.eqb_refl.
  - unfold contains in Ha. simpl in Ha. apply orb_false_iff in Ha as [Hc Ha].
    rewrite ascii_eqb_sym, Hc. by rewrite IH.
Qed.

Lemma split_on_none sep a : contains sep a = false → split_on sep a = [a].
Proof.
  induction a as [|c a IH]; simpl; intros Ha; [done|].
  unfold contains in Ha. simpl in Ha. apply orb_false_iff in Ha as [Hc Ha].
  rewrite ascii_eqb_sym, Hc. by rewrite IH.
Qed.

Lemma contains_app sep a b : contains sep (a ++ sep :: b) = true.
Proof.
  unfold contains. rewrite existsb_app. simpl. rewrite Ascii.eqb_refl.
  by rewrite orb_true_r.
Qed.

(** a string splits in two at [sep] exactly when it is two [sep]-free pieces
    around one [sep] *)
Lemma split_on_two sep t a b :
  split_on sep t = [a; b] ↔
  t = a ++ sep :: b ∧ contains sep a = false ∧ contains sep b = false.
Proof.
  split.
  - intros Hs. pose proof (join_split_on sep t) as Hj.
    pose proof (split_on_pieces sep t) as Hp. rewrite Hs in Hj, Hp.
    apply Forall_cons in Hp as [Ha Hp]. apply Forall_cons in Hp as [Hb _].
    by simpl in Hj.
  - intros (-> & Ha & Hb). by rewrite split_on_app, split_on_none.
Qed.

Lemma is_range_split t lo hi :
  is_range t lo hi ↔
  ∃ a b, split_on "-" t = [a; b] ∧ py_int a = Some lo ∧ py_int b = Some hi.
Proof.
  unfold is_range. split.
  - intros (a & b & Ht & Ha & Hb & Hlo & Hhi). exists a, b.
    split; [by apply split_on_two|done].
  - intros (a & b & Hs & Hlo & Hhi). apply split_on_two in Hs as (Ht & Ha & Hb).
    by exists a, b.
Qed.

Lemma is_range_contains t lo hi : is_range t lo hi → contains "-" t = true.
Proof. intros (a & b & -> & _). apply contains_app. Qed.

Lemma int_Ok s n : int s = Ok n ↔ py_int s = Some n.
Proof. unfold int. destruct (py_int s); naive_solver. Qed.

Lemma int_Raise s e : int s = Raise e ↔ e = ValueError ∧ py_int s = None.
Proof. unfold int. destruct (py_int s); naive_solver. Qed.

Lemma in_hours_spec h : in_hours h = true ↔ 0 ≤ h ≤ 23.
Proof. unfold in_hours. rewrite andb_true_iff, !Z.leb_le. lia. Qed.

(** what one part of the string yields *)
Lemma parse_part_Ok part hs :
  parse_part part = Ok hs ↔ token_hours (strip part) hs.
Proof.
  unfold parse_part, token_hours. set (t := strip part). clearbody t.
  destruct (contains "-" t) eqn:Hc.
  - split.
    + destruct (split_on "-" t) as [|a [|b [|c l]]] eqn:Hs; try done.
      unfold int. destruct (py_int a) as [lo|] eqn:Hlo; [|done].
      destruct (py_int b) as [hi|] eqn:Hhi; [|done]. simpl.
      destruct (in_hours lo) eqn:H1; [|done].
      destruct (in_hours hi) eqn:H2; [|done]. simpl.
      destruct (Z.ltb_spec hi lo); [done|]. intros [= <-].
      apply in_hours_spec in H1, H2.
      right. exists lo, hi. split; [apply is_range_split; eauto|].
      repeat split; (lia || done).
    + intros [(h & [Hn _] & _)|(lo & hi & Hr & H0 & Hle & H23 & ->)]; [congruence|].
      apply is_range_split in Hr as (a & b & -> & Hlo & Hhi).
      unfold int. rewrite Hlo, Hhi. simpl.
      assert (in_hours lo = true) as -> by (apply in_hours_spec; lia).
      assert (in_hours hi = true) as -> by (apply in_hours_spec; lia). simpl.
      by destruct (Z.ltb_spec hi lo); [lia|].
  - split.
    + unfold int. destruct (py_int t) as [h|] eqn:Hh; [|done]. simpl.
      destruct (in_hours h) eqn:H1; [|done]. simpl. intros [= <-].
      apply in_hours_spec in H1. left. exists h. by repeat split; try lia.
    + intros [(h & [_ Hh] & Hb & ->)|(lo & hi & Hr & _)].
      * unfold int. rewrite Hh. simpl.
        by assert (in_hours h = true) as -> by (apply in_hours_spec; lia).
      * apply is_range_contains in Hr. congruence.
Qed.

Lemma parse_part_Raise part e :
  parse_part part = Raise e ↔ e = ValueError ∧ token_fault (strip part).
Proof.
  unfold parse_part, token_fault, token_unparseable, token_out_of_bounds, token_inverted.
  set (t := strip part). clearbody t.
  destruct (contains "-" t) eqn:Hc.
  - destruct (split_on "-" t) as [|a [|b [|c l]]] eqn:Hs.
    1,2,4: split; [intros [= <-]; split; [done|]; left; split;
        [intros h [Hn _]; congruence
        |intros lo hi Hr; apply is_range_split in Hr as (a' & b' & Hs' & _); congruence]
      |by intros [-> _]].
    unfold int.
    assert (Hrange : ∀ lo hi, is_range t lo hi ↔ py_int a = Some lo ∧ py_int b = Some hi).
    { intros lo hi. rewrite is_range_split. rewrite Hs. naive_solver. }
    assert (Hsingle : ∀ h, ¬ is_single t h) by (intros h [Hn _]; congruence).
    destruct (py_int a) as [lo|] eqn:Hlo; simpl.
    2:{ split; [intros [= <-]|by intros [-> _]]. split; [done|]. left.
        split; [done|]. intros lo hi Hr. apply Hrange in Hr. naive_solver. }
    destruct (py_int b) as [hi|] eqn:Hhi; simpl.
    2:{ split; [intros [= <-]|by intros [-> _]]. split; [done|]. left.
        split; [done|]. intros lo' hi Hr. apply Hrange in Hr. naive_solver. }
    assert (Hr : is_range t lo hi) by by apply Hrange.
    assert (Huniq : ∀ lo' hi', is_range t lo' hi' → lo' = lo ∧ hi' = hi).
    { intros lo' hi' Hr'. apply Hrange in Hr'. naive_solver. }
    destruct (in_hours lo && in_hours hi) eqn:Hb; simpl.
    + apply andb_true_iff in Hb as [H1 H2]. apply in_hours_spec in H1, H2.
      destruct (Z.ltb_spec hi lo).
      * split; [intros [= <-]|by intros [-> _]]. split; [done|].
        right. right. eauto.
      * split; [done|]. intros [_ [[_ Hno]|[[(h & Hh & _)|(lo' & hi' & Hr' & Hnb)]|
                                          (lo' & hi' & Hr' & Hlt)]]].
        -- by apply Hno in Hr.
        -- by apply Hsingle in Hh.
        -- apply Huniq in Hr' as [-> ->]. lia.
        -- apply Huniq in Hr' as [-> ->]. lia.
    + split; [intros [= <-]|by intros [-> _]]. split; [done|].
      right. left. right. exists lo, hi. split; [done|].
      rewrite <- !in_hours_spec. intros [H1 H2]. by rewrite H1, H2 in Hb.
  - assert (Hrange : ∀ lo hi, ¬ is_range t lo hi).
    { intros lo hi Hr. apply is_range_contains in Hr. congruence. }
    unfold int. destruct (py_int t) as [h|] eqn:Hh; simpl.
    + assert (Hs : is_single t h) by done.
      destruct (in_hours h) eqn:H1; simpl.
      * apply in_hours_spec in H1. split; [done|].
        intros [_ [[Hno _]|[[(h' & [_ Hh'] & Hnb)|(lo & hi & Hr & _)]|(lo & hi & Hr & _)]]].
        -- by apply Hno in Hs.
        -- rewrite Hh in Hh'. injection Hh' as <-. lia.
        -- by apply Hrange in Hr.
        -- by apply Hrange in Hr.
      * split; [intros [= <-]|by intros [-> _]]. split; [done|].
        right. left. left. exists h. split; [done|].
        rewrite <- in_hours_spec. congruence.
    + split; [intros [= <-]|by intros [-> _]]. split; [done|]. left.
      split; [|done]. intros h [_ Hh']. congruence.
Qed.

Lemma parse_parts_Ok parts acc hours :
  parse_parts parts acc = Ok hours ↔
  ∃ hss, Forall2 token_hours (map strip parts) hss ∧
         hours = acc ∪ list_to_set (concat hss).
Proof.
  revert acc. induction parts as [|part parts IH]; intros acc; simpl.
  - split.
    + intros [= <-]. exists []. split; [constructor|]. simpl. set_solver.
    + intros (hss & Hf & ->). apply Forall2_nil_inv_l in Hf as ->.
      simpl. f_equal. set_solver.
  - destruct (parse_part part) as [hs|e] eqn:Hp; simpl.
    + rewrite IH. pose proof (proj1 (parse_part_Ok _ _) Hp) as Hp'. split.
      * intros (hss & Hf & ->). exists (hs :: hss). split; [by constructor|].
        simpl. rewrite list_to_set_app_L. set_solver.
      * intros (hss & Hf & ->).
        apply Forall2_cons_inv_l in Hf as (hs' & hss' & Hhs & Hf & ->).
        apply (proj2 (parse_part_Ok _ _)) in Hhs. rewrite Hp in Hhs. injection Hhs as <-.
        exists hss'. split; [done|]. simpl. rewrite list_to_set_app_L. set_solver.
    + split; [done|]. intros (hss & Hf & _).
      apply Forall2_cons_inv_l in Hf as (hs' & hss' & Hhs & _).
      apply (proj2 (parse_part_Ok _ _)) in Hhs. congruence.
Qed.

Lemma parse_parts_Raise parts acc e :
  parse_parts parts acc = Raise e ↔
  e = ValueError ∧ Exists token_fault (map strip parts).
Proof.
  revert acc. induction parts as [|part parts IH]; intros acc; simpl.
  - split; [done|]. intros [_ H]. by apply Exists_nil in H.
  - destruct (parse_part part) as [hs|e'] eqn:Hp; simpl.
    + rewrite IH. split.
      * intros [-> H]. split; [done|]. by apply Exists_cons_tl.
      * intros [-> H]. split; [done|]. apply Exists_cons in H as [H|H]; [|done].
        assert (parse_part part = Raise ValueError) by (by apply parse_part_Raise).
        congruence.
    + apply (proj1 (parse_part_Raise _ _)) in Hp as [-> Hp]. split.
      * intros [= <-]. split; [done|]. by apply Exists_cons_hd.
      * by intros [-> _].
Qed.

Lemma parse_hour_ranges_Ok s hours :
  _parse_hour_ranges s = Ok hours ↔
  ∃ hss, Forall2 token_hours (tokens s) hss ∧ hours = list_to_set (concat hss).
Proof.
  unfold _parse_hour_ranges, tokens. rewrite parse_parts_Ok.
  split; intros (hss & Hf & ->); exists hss; (split; [done|set_solver]).
Qed.

Lemma parse_hour_ranges_Raise s e :
  _parse_hour_ranges s = Raise e ↔ e = ValueError ∧ Exists token_fault (tokens s).
Proof. apply parse_parts_Raise. Qed.

(** C8. The parser maps a string all of whose comma-separated tokens are
    well formed (one integer, or a range low-high, within [0,23]) to the set
    of all the hours its tokens cover, and raises ValueError exactly when some
    token is rejected: it is neither an integer nor a range, a parsed integer
    is outside [0,23], or a range has start > end. "1-3,5" gives {1,2,3,5};
    "25" and "5-2" raise. The parser is a function of its argument alone. *)
Theorem parse_hour_ranges_spec :
  (∀ s hours,
     _parse_hour_ranges s = Ok hours ↔
     ∃ hss, Forall2 token_hours (tokens s) hss ∧ hours = list_to_set (concat hss)) ∧
  (∀ s e,
     _parse_hour_ranges s = Raise e ↔
     e = ValueError ∧ Exists token_fault (tokens s)) ∧
  _parse_hour_ranges "1-3,5" = Ok {[1; 2; 3; 5]} ∧
  _parse_hour_ranges "25" = Raise ValueError ∧
  _parse_hour_ranges "5-2" = Raise ValueError.
Proof.
  split; [|split; [|split; [|split]]].
  - apply parse_hour_ranges_Ok.
  - apply parse_hour_ranges_Raise.
  - vm_compute. reflexivity.
  - vm_compute. reflexivity.
  - vm_compute. reflexivity.
Qed.

Lemma parse_hour_ranges_spec_witness :
  (∃ hss, Forall2 token_hours (tokens "1-3,5") hss ∧
          ({[1; 2; 3; 5]} : gset Z) = list_to_set (concat hss)) ∧
  Exists token_fault (tokens "9,5-2").
Proof.
  split.
  - apply (proj1 (proj1 parse_hour_ranges_spec "1-3,5" {[1; 2; 3; 5]})).
    vm_compute. reflexivity.
  - apply (proj1 (proj1 (proj2 parse_hour_ranges_spec) "9,5-2" ValueError)).
    vm_compute. reflexivity.
Defined.

(** ** The schedule check *)

Lemma truncate_hour_multiple t : ∃ k, truncate_hour t = k * hour_us.
Proof.
  exists (t / hour_us). unfold truncate_hour.
  pose proof (Z.div_mod t hour_us). unfold hour_us in *. lia.
Qed.

Lemma elapsed_hours_exact last now :
  elapsed_hours last now * hour_us = truncate_hour now - truncate_hour last.
Proof.
  unfold elapsed_hours.
  destruct (truncate_hour_multiple now) as [a ->].
  destruct (truncate_hour_multiple last) as [b ->].
  replace (a * hour_us - b * hour_us) with ((a - b) * hour_us) by lia.
  rewrite Z.div_mul; [done|]. unfold hour_us. lia.
Qed.

Lemma truncate_hour_shift t k :
  truncate_hour (t - k * hour_us) = truncate_hour t - k * hour_us.
Proof.
  unfold truncate_hour.
  replace (t - k * hour_us) with (t + (- k) * hour_us) by lia.
  rewrite Z.mod_add; [lia|]. unfold hour_us. lia.
Qed.

Lemma elapsed_hours_ago now k : elapsed_hours (now - k * hour_us) now = k.
Proof.
  unfold elapsed_hours. rewrite truncate_hour_shift.
  replace (truncate_hour now - (truncate_hour now - k * hour_us)) with (k * hour_us) by lia.
  apply Z.div_mul. unfold hour_us. lia.
Qed.

Lemma should_fetch_every service current_hour now N :
  interval_type service = EVERY →
  py_int (list_ascii_of_string (fetch_interval service)) = Some N →
  _should_fetch_at_hour service current_hour now =
    Ok (match last_fetch service with
        | None => true
        | Some last => bool_decide (N ≤ elapsed_hours last now)
        end).
Proof.
  intros Hty HN. unfold _should_fetch_at_hour, int. rewrite Hty, HN. simpl.
  destruct (last_fetch service) as [last|]; simpl; [|done].
  f_equal. fold (elapsed_hours last now).
  destruct (Z.leb_spec N (elapsed_hours last now)).
  - by rewrite bool_decide_eq_true_2.
  - rewrite bool_decide_eq_false_2; [done|lia].
Qed.

(** C6. Under EVERY, when [fetch_interval] parses as the integer N, the check
    returns true if [last_fetch] is unset, and otherwise true exactly when
    the whole hours elapsed between [last_fetch] and the current time, both
    truncated to the start of their hour, are at least N; the truncated
    difference is a whole number of hours. With [last_fetch] three hours ago,
    N = 2 is due and N = 4 is not; with [last_fetch] unset the check is true
    whatever N. *)
Theorem every_interval_due :
  (∀ service current_hour now N,
     interval_type service = EVERY →
     py_int (list_ascii_of_string (fetch_interval service)) = Some N →
     _should_fetch_at_hour service current_hour now =
       Ok (match last_fetch service with
           | None => true
           | Some last => bool_decide (N ≤ elapsed_hours last now)
           end)) ∧
  (∀ last now,
     elapsed_hours last now * hour_us = truncate_hour now - truncate_hour last) ∧
  (∀ nm sg current_hour now,
     _should_fetch_at_hour (mkService nm EVERY "2" (Some (now - 3 * hour_us)) sg)
       current_hour now = Ok true ∧
     _should_fetch_at_hour (mkService nm EVERY "4" (Some (now - 3 * hour_us)) sg)
       current_hour now = Ok false).
Proof.
  split; [|split].
  - apply should_fetch_every.
  - apply elapsed_hours_exact.
  - intros nm sg current_hour now. split.
    + rewrite (should_fetch_every _ _ _ 2); [|done|done]. simpl.
      by rewrite elapsed_hours_ago.
    + rewrite (should_fetch_every _ _ _ 4); [|done|done]. simpl.
      by rewrite elapsed_hours_ago.
Qed.

Lemma every_interval_due_witness :
  _should_fetch_at_hour (mkService "ecb" EVERY "24" None false) 7 1730000000000000
    = Ok true ∧
  _should_fetch_at_hour
    (mkService "ecb" EVERY " 6 " (Some 1730000000000000) true) 7 1730020000000000
    = Ok (bool_decide (6 ≤ elapsed_hours 1730000000000000 1730020000000000)).
Proof.
  split.
  - apply (proj1 every_interval_due (mkService "ecb" EVERY "24" None false)
             7 1730000000000000 24); reflexivity.
  - apply (proj1 every_interval_due
             (mkService "ecb" EVERY " 6 " (Some 1730000000000000) true)
             7 1730020000000000 6); reflexivity.
Defined.

(** C7. The schedule check never raises: for every service, hour and clock
    reading it returns a boolean, and it returns false (not due) whenever
    [fetch_interval] is malformed for the interval type: a rejected token
    under ON or NOT_ON (unparseable, out of bounds, inverted range), a string
    [int()] rejects under EVERY. *)
Theorem should_fetch_never_raises service current_hour now :
  ∃ due, _should_fetch_at_hour service current_hour now = Ok due ∧
         (malformed_interval service → due = false).
Proof.
  unfold _should_fetch_at_hour, malformed_interval.
  destruct (interval_type service) as [| | |other].
  - destruct (_parse_hour_ranges (fetch_interval service)) as [hs|e] eqn:Hp; simpl.
    + eexists. split; [done|]. intros Hbad.
      assert (_parse_hour_ranges (fetch_interval service) = Raise ValueError)
        by (by apply parse_hour_ranges_Raise).
      congruence.
    + apply parse_hour_ranges_Raise in Hp as [-> _]. simpl. eauto.
  - unfold int.
    destruct (py_int (list_ascii_of_string (fetch_interval service))) as [n|]; simpl.
    + destruct (last_fetch service); simpl; eexists; (split; [done|done]).
    + eauto.
  - destruct (_parse_hour_ranges (fetch_interval service)) as [hs|e] eqn:Hp; simpl.
    + eexists. split; [done|]. intros Hbad.
      assert (_parse_hour_ranges (fetch_interval service) = Raise ValueError)
        by (by apply parse_hour_ranges_Raise).
      congruence.
    + apply parse_hour_ranges_Raise in Hp as [-> _]. simpl. eauto.
  - simpl. eauto.
Qed.

(** the token [5-2] is an inverted range *)
Lemma token_5_2_fault : Exists token_fault (tokens "5-2").
Proof. apply (proj1 (parse_hour_ranges_Raise "5-2" ValueError)). vm_compute. reflexivity. Qed.

Lemma should_fetch_never_raises_witness :
  _should_fetch_at_hour (mkService "ecb" ON "5-2" None false) 5 1730000000000000 = Ok false.
Proof.
  destruct (should_fetch_never_raises
              (mkService "ecb" ON "5-2" None false) 5 1730000000000000)
    as (due & -> & Hbad).
  f_equal. apply Hbad. exact token_5_2_fault.
Defined.

(** ** The fetch loop *)

Lemma fresh_dom_None (rows : Table) : rows !! fresh (dom rows) = None.
Proof. apply not_elem_of_dom. apply is_fresh. Qed.

Lemma conflicts_skip (rows : Table) k f t d :
  ¬ conflicts rows None f t d → ¬ conflicts rows (Some k) f t d.
Proof.
  unfold conflicts. intros Hn (k' & r & Hk & _ & Hr). apply Hn.
  exists k', r. split; [done|]. by split.
Qed.

(** the rate column: what is stored is the rate at 30 decimal places, and a
    rate is stored exactly when it fits *)
Lemma stored_rate_places backend x stored :
  stored_rate backend x = Ok stored → to_30_places x stored.
Proof.
  unfold stored_rate, to_30_places, decimal_places, max_digits.
  destruct x as [c e]. cbn [Dec.coef Dec.exp].
  destruct (Z.leb_spec (- (30) - e) 0) as [Hd|Hd].
  - destruct (10 ^ 42 <=? Z.abs c * 10 ^ (- (- (30) - e))); [done|].
    intros [= <-]. cbn [Dec.coef Dec.exp]. split; [done|]. split; [|lia].
    intros _. unfold Dec.eqb. cbn [Dec.coef Dec.exp].
    rewrite Z.min_l by lia. apply Z.eqb_eq.
    replace (-30 - -30) with 0 by lia. replace (- (- (30) - e)) with (e - -30) by lia.
    rewrite Z.pow_0_r, Z.mul_1_r, Z.mul_assoc, (Z.mul_comm (Z.sgn c)), Z.abs_sgn. done.
  - pose proof (Z.pow_pos_nonneg 10 (- (30) - e) ltac:(lia) ltac:(lia)) as Hp.
    set (p := 10 ^ (- (30) - e)) in *.
    pose proof (Z.div_mod (Z.abs c) p ltac:(lia)) as Hdm.
    pose proof (Z.mod_pos_bound (Z.abs c) p Hp) as Hr.
    set (q := Z.abs c / p) in *. set (r := Z.abs c mod p) in *.
    set (up := (p <? 2 * r) ||
               ((2 * r =? p) && match backend with django_format => Z.odd q | postgresql => true end)).
    assert (Hup : if up then p ≤ 2 * r else 2 * r ≤ p).
    { subst up. destruct (Z.ltb_spec p (2 * r)); simpl; [lia|].
      destruct (Z.eqb_spec (2 * r) p); simpl; [|lia].
      destruct (match backend with django_format => Z.odd q | postgresql => true end); lia. }
    destruct (10 ^ 42 <=? (if up then q + 1 else q)); [done|].
    intros [= <-]. cbn [Dec.coef Dec.exp]. split; [done|]. split; [lia|].
    intros _. replace (-30 - e) with (- (30) - e) by lia. fold p.
    destruct up; destruct (Z.abs_spec c) as [[? Ha]|[? Ha]];
      destruct (Z.sgn_spec c) as [[? Hs]|[[? Hs]|[? Hs]]]; rewrite Hs; nia.
Qed.

Lemma stored_rate_fits backend x :
  fits_column x ↔ ∃ stored, stored_rate backend x = Ok stored.
Proof.
  unfold stored_rate, fits_column, decimal_places, max_digits.
  destruct x as [c e]. cbn [Dec.coef Dec.exp].
  destruct (Z.leb_spec (- (30) - e) 0) as [Hd|Hd].
  - rewrite (proj2 (Z.leb_le (-30) e)) by lia.
    replace (- (- (30) - e)) with (e + 30) by lia.
    destruct (Z.leb_spec (10 ^ 42) (Z.abs c * 10 ^ (e + 30))).
    + split; [lia|]. by intros [? ?].
    + split; [eauto|done].
  - rewrite (proj2 (Z.leb_gt (-30) e)) by lia.
    replace (-30 - e) with (- (30) - e) by lia.
    pose proof (Z.pow_pos_nonneg 10 (- (30) - e) ltac:(lia) ltac:(lia)) as Hp.
    set (p := 10 ^ (- (30) - e)) in *.
    pose proof (Z.div_mod (Z.abs c) p ltac:(lia)) as Hdm.
    pose proof (Z.mod_pos_bound (Z.abs c) p Hp) as Hr.
    set (q := Z.abs c / p) in *. set (r := Z.abs c mod p) in *.
    set (up := (p <? 2 * r) ||
               ((2 * r =? p) && match backend with django_format => Z.odd q | postgresql => true end)).
    assert (Hodd : Z.odd (10 ^ 42 - 1) = true) by (vm_compute; reflexivity).
    assert (Hup : if up then p < 2 * r ∨ (2 * r = p ∧ (q = 10 ^ 42 - 1 → True))
                  else 2 * r < p ∨ (2 * r = p ∧ q ≠ 10 ^ 42 - 1)).
    { subst up. destruct (Z.ltb_spec p (2 * r)); simpl; [lia|].
      destruct (Z.eqb_spec (2 * r) p); simpl; [|lia].
      destruct backend; [|by right].
      destruct (Z.odd q) eqn:Hq; [by right|].
      right. split; [done|]. intros ->. congruence. }
    set (M := 10 ^ 42) in *. assert (HM : 0 < M) by (subst M; lia).
    destruct (Z.leb_spec M (if up then q + 1 else q)) as [Hov|Hok].
    + split; [|by intros [? ?]]. intros Hfit. exfalso.
      destruct up; nia.
    + split; [eauto|]. intros _. destruct up; nia.
Qed.

Lemma create_Ok backend (rows : Table) f t r stored now :
  stored_rate backend r = Ok stored →
  ¬ conflicts rows None f t now →
  ∃ k, rows !! k = None ∧
       create backend rows f t r now = Ok (<[k := mkRate f t stored now true]> rows).
Proof.
  intros Hs Hn. unfold create. rewrite Hs. simpl. rewrite decide_False by done.
  exists (fresh (dom rows)). split; [apply fresh_dom_None|done].
Qed.

Lemma save_Ok backend (rows : Table) k r stored :
  stored_rate backend (rate r) = Ok stored →
  ¬ conflicts rows None (from_currency_id r) (to_currency_id r) (date r) →
  save backend rows k r =
    Ok (<[k := mkRate (from_currency_id r) (to_currency_id r) stored (date r)
                      (automatic r)]> rows).
Proof.
  intros Hs Hn. unfold save. rewrite Hs. simpl.
  rewrite decide_False; [done|]. by apply conflicts_skip.
Qed.

(** a rate the column does not take: nothing is written *)
Lemma create_rejected backend (rows : Table) f t r now e :
  stored_rate backend r = Raise e → create backend rows f t r now = Raise e.
Proof. intros Hs. unfold create. by rewrite Hs. Qed.

Lemma save_rejected backend (rows : Table) k r e :
  stored_rate backend (rate r) = Raise e → save backend rows k r = Raise e.
Proof. intros Hs. unfold save. by rewrite Hs. Qed.

Lemma is_automatic_pair_spec f t kr :
  is_automatic_pair f t kr = true ↔ automatic_pair f t kr.2.
Proof.
  unfold is_automatic_pair, automatic_pair.
  rewrite !andb_true_iff, !Z.eqb_eq. naive_solver.
Qed.

Lemma fold_newer_spec l init :
  match fold_left newer l init with
  | Some b =>
      (Some b = init ∨ b ∈ l) ∧
      (∀ x, Some x = init ∨ x ∈ l → date x.2 ≤ date b.2)
  | None => init = None ∧ l = []
  end.
Proof.
  revert init. induction l as [|kr l IH]; intros init; simpl.
  - destruct init as [b|]; [|done]. split; [by left|].
    intros x [[= ->]|Hx]; [done|]. by apply not_elem_of_nil in Hx.
  - specialize (IH (newer init kr)).
    destruct (fold_left newer l (newer init kr)) as [b|].
    + destruct IH as [Hb Hmax]. split.
      * destruct Hb as [Hb|Hb]; [|right; by apply list_elem_of_further].
        unfold newer in Hb. destruct init as [b0|].
        -- destruct (date b0.2 <? date kr.2); injection Hb as ->;
             [right; apply list_elem_of_here|by left].
        -- injection Hb as ->. right. apply list_elem_of_here.
      * intros x Hx.
        assert (Hstep : ∀ y, Some y = newer init kr → date x.2 ≤ date y.2 →
                             date x.2 ≤ date b.2).
        { intros y Hy Hle. specialize (Hmax y (or_introl Hy)). lia. }
        destruct Hx as [Hx|Hx].
        -- subst init. simpl in *.
           destruct (Z.ltb_spec (date x.2) (date kr.2)).
           ++ apply (Hstep kr); [done|lia].
           ++ by apply (Hstep x).
        -- apply elem_of_cons in Hx as [->|Hx]; [|apply Hmax; by right].
           unfold newer in Hstep. destruct init as [b0|].
           ++ destruct (Z.ltb_spec (date b0.2) (date kr.2)).
              ** by apply (Hstep kr).
              ** apply (Hstep b0); [done|lia].
           ++ by apply (Hstep kr).
    + destruct IH as [Hnone _]. unfold newer in Hnone.
      destruct init as [b0|]; [destruct (date b0.2 <? date kr.2)|]; done.
Qed.

(** [.filter(...).order_by("-date").first()] is an automatic row of the pair
    with the greatest date, and is [None] only if there is no such row *)
Lemma latest_automatic_Some (rows : Table) f t k er :
  latest_automatic rows f t = Some (k, er) →
  rows !! k = Some er ∧ automatic_pair f t er ∧
  ∀ k' r', rows !! k' = Some r' → automatic_pair f t r' → date r' ≤ date er.
Proof.
  unfold latest_automatic. intros Hl.
  pose proof (fold_newer_spec (List.filter (is_automatic_pair f t) (map_to_list rows)) None)
    as Hspec.
  rewrite Hl in Hspec. destruct Hspec as [[?|Hin] Hmax]; [done|].
  apply list_elem_of_In, filter_In in Hin as [Hin Hp].
  apply list_elem_of_In, elem_of_map_to_list in Hin.
  apply is_automatic_pair_spec in Hp. split; [done|]. split; [done|].
  intros k' r' Hk' Hr'. apply (Hmax (k', r')). right.
  apply list_elem_of_In, filter_In. split.
  - apply list_elem_of_In. by apply elem_of_map_to_list.
  - by apply is_automatic_pair_spec.
Qed.

Lemma latest_automatic_None (rows : Table) f t k r :
  latest_automatic rows f t = None → rows !! k = Some r → ¬ automatic_pair f t r.
Proof.
  unfold latest_automatic. intros Hl Hk Hr.
  pose proof (fold_newer_spec (List.filter (is_automatic_pair f t) (map_to_list rows)) None)
    as Hspec.
  rewrite Hl in Hspec. destruct Hspec as [_ Hnil].
  assert (Hin : In (k, r) (List.filter (is_automatic_pair f t) (map_to_list rows))).
  { apply filter_In. split.
    - apply list_elem_of_In. by apply elem_of_map_to_list.
    - by apply is_automatic_pair_spec. }
  by rewrite Hnil in Hin.
Qed.



Section FetchFacts.
Variable backend : Backend.
Variable clock : nat → Z.
Variable service : ExchangeRateService.

(** what one iteration does to a tuple it does not skip *)
Lemma process_tuple_spec inv st a b r stored :
  let f := (resolved inv a b).1 in
  let t := (resolved inv a b).2 in
  let now := clock (clock_reads st) in
  (a, b) ∉ processed_pairs st →
  stored_rate backend r = Ok stored →
  ¬ conflicts (rows st) None f t now →
  ∃ k,
    process_tuple backend clock inv service st (a, b, r) =
      Ok (mkState (<[k := mkRate f t stored now true]> (rows st))
                  ({[(f, t)]} ∪ processed_pairs st) (S (clock_reads st))) ∧
    ((singleton service = true ∧ ∃ old, latest_automatic (rows st) f t = Some (k, old)) ∨
     (rows st !! k = None ∧
      (singleton service = false ∨ latest_automatic (rows st) f t = None))).
Proof.
  intros f t now Hkey Hstored Hfree. unfold process_tuple.
  rewrite decide_False by done. fold now.
  assert (Hgen : ∃ k,
    (rows' ← match (if singleton service then latest_automatic (rows st) f t else None) with
             | None => create backend (rows st) f t r now
             | Some (k, er) =>
                 save backend (rows st) k
                   (mkRate (from_currency_id er) (to_currency_id er) r now (automatic er))
             end;
     Ok (mkState rows' ({[(f, t)]} ∪ processed_pairs st) (S (clock_reads st)))) =
    Ok (mkState (<[k := mkRate f t stored now true]> (rows st))
                ({[(f, t)]} ∪ processed_pairs st) (S (clock_reads st))) ∧
    ((singleton service = true ∧ ∃ old, latest_automatic (rows st) f t = Some (k, old)) ∨
     (rows st !! k = None ∧
      (singleton service = false ∨ latest_automatic (rows st) f t = None)))).
  { destruct (singleton service).
    - destruct (latest_automatic (rows st) f t) as [[k er]|] eqn:Hl.
      + apply latest_automatic_Some in Hl as (Hk & (Hauto & Hf & Ht) & _).
        exists k. rewrite Hauto, Hf, Ht.
        rewrite (save_Ok backend (rows st) k (mkRate f t r now true) stored) by done.
        split; [done|]. left. eauto.
      + destruct (create_Ok backend (rows st) f t r stored now Hstored Hfree)
          as (k & Hk & ->).
        exists k. split; [done|]. right. eauto.
    - destruct (create_Ok backend (rows st) f t r stored now Hstored Hfree)
        as (k & Hk & ->).
      exists k. split; [done|]. right. eauto. }
  subst f t. destruct inv; exact Hgen.
Qed.

(** a tuple that is not skipped and whose rate the column does not take
    raises: the table stays as it is *)
Lemma process_tuple_rejected inv st a b r e :
  (a, b) ∉ processed_pairs st →
  stored_rate backend r = Raise e →
  process_tuple backend clock inv service st (a, b, r) = Raise e.
Proof.
  intros Hkey Hs. unfold process_tuple. rewrite decide_False by done.
  destruct inv.
  - destruct (if singleton service then _ else _) as [[k er]|].
    + by rewrite (save_rejected backend (rows st) k _ e).
    + by rewrite (create_rejected backend (rows st) _ _ r _ e).
  - destruct (if singleton service then _ else _) as [[k er]|].
    + by rewrite (save_rejected backend (rows st) k _ e).
    + by rewrite (create_rejected backend (rows st) _ _ r _ e).
Qed.

(** a tuple whose own pair is in [processed_pairs] is skipped: the state,
    table included, stays as it is *)
Lemma process_tuple_skip inv st a b r :
  (a, b) ∈ processed_pairs st →
  process_tuple backend clock inv service st (a, b, r) = Ok st.
Proof. intros H. unfold process_tuple. by rewrite decide_True. Qed.

Lemma process_tuple_processed inv st st' tuple :
  process_tuple backend clock inv service st tuple = Ok st' →
  processed_pairs st ⊆ processed_pairs st' ∧
  (resolved inv tuple.1.1 tuple.1.2 ∈ processed_pairs st' ∨
   (tuple.1.1, tuple.1.2) ∈ processed_pairs st).
Proof.
  destruct tuple as [[a b] r]. unfold process_tuple, resolved. simpl.
  destruct (decide ((a, b) ∈ processed_pairs st)) as [Hin|Hnin].
  - intros [= <-]. split; [done|by right].
  - destruct inv.
    + match goal with |- context [mbind _ ?m] => destruct m as [rows'|e] end;
        simpl; [|done].
      intros [= <-]. simpl. split; set_solver.
    + match goal with |- context [mbind _ ?m] => destruct m as [rows'|e] end;
        simpl; [|done].
      intros [= <-]. simpl. split; set_solver.
Qed.

(** a provider that is not inverted: once a tuple of the pair went through
    the loop, the pair is in [processed_pairs] *)
Lemma fetch_loop_processed st rates st' a b r0 :
  fetch_loop backend clock false service st rates = (st', None) →
  (a, b, r0) ∈ rates → (a, b) ∈ processed_pairs st'.
Proof.
  revert st. induction rates as [|tuple rates IH]; intros st Hloop Hin; simpl in *.
  - by apply not_elem_of_nil in Hin.
  - destruct (process_tuple backend clock false service st tuple) as [st1|e] eqn:Hstep; [|done].
    apply elem_of_cons in Hin as [<-|Hin]; [|by eapply IH].
    apply process_tuple_processed in Hstep as [Hsub Hnow]. simpl in Hnow.
    assert (Hmono : ∀ rs s s', fetch_loop backend clock false service s rs = (s', None) →
                               processed_pairs s ⊆ processed_pairs s').
    { clear. induction rs as [|x rs IHrs]; intros s s' Hl; simpl in Hl.
      - by injection Hl as <-.
      - destruct (process_tuple backend clock false service s x) as [s1|e] eqn:Hx; [|done].
        apply process_tuple_processed in Hx as [Hsub _].
        etrans; [exact Hsub|]. by eapply IHrs. }
    apply (Hmono _ _ _ Hloop). unfold resolved in Hnow. set_solver.
Qed.

(** one iteration either skips the tuple or writes one automatic row of the
    resolved pair, at a new key or over an automatic row of that pair; the
    row holds the rate as the column stores it *)
Lemma process_tuple_cases inv st a b x st' :
  process_tuple backend clock inv service st (a, b, x) = Ok st' →
  st' = st ∨
  ∃ k f t stored, (f, t) = resolved inv a b ∧ stored_rate backend x = Ok stored ∧
       st' = mkState (<[k := mkRate f t stored (clock (clock_reads st)) true]> (rows st))
                     ({[(f, t)]} ∪ processed_pairs st) (S (clock_reads st)) ∧
       ((a, b) ∉ processed_pairs st) ∧
       ((rows st !! k = None ∧
         (singleton service = false ∨ latest_automatic (rows st) f t = None)) ∨
        (singleton service = true ∧ ∃ old, latest_automatic (rows st) f t = Some (k, old))).
Proof.
  unfold process_tuple.
  destruct (decide ((a, b) ∈ processed_pairs st)) as [Hin|Hnin]; [intros [= <-]; by left|].
  set (f := (resolved inv a b).1). set (t := (resolved inv a b).2).
  set (now := clock (clock_reads st)).
  assert (Hgen :
    (rows' ← match (if singleton service then latest_automatic (rows st) f t else None) with
             | None => create backend (rows st) f t x now
             | Some (k, er) =>
                 save backend (rows st) k
                   (mkRate (from_currency_id er) (to_currency_id er) x now (automatic er))
             end;
     Ok (mkState rows' ({[(f, t)]} ∪ processed_pairs st) (S (clock_reads st)))) = Ok st' →
    ∃ k stored, stored_rate backend x = Ok stored ∧
         st' = mkState (<[k := mkRate f t stored now true]> (rows st))
                       ({[(f, t)]} ∪ processed_pairs st) (S (clock_reads st)) ∧
         ((rows st !! k = None ∧
           (singleton service = false ∨ latest_automatic (rows st) f t = None)) ∨
          (singleton service = true ∧ ∃ old, latest_automatic (rows st) f t = Some (k, old)))).
  { destruct (singleton service).
    - destruct (latest_automatic (rows st) f t) as [[k er]|] eqn:Hl.
      + pose proof (latest_automatic_Some _ _ _ _ _ Hl) as (Hk & (Hauto & Hf & Ht) & _).
        rewrite Hauto, Hf, Ht. unfold save. simpl.
        destruct (stored_rate backend x) as [stored|e]; simpl; [|done].
        case_decide; [done|].
        simpl. intros [= <-]. exists k, stored. split; [done|]. split; [done|]. right. eauto.
      + unfold create. destruct (stored_rate backend x) as [stored|e]; simpl; [|done].
        case_decide; [done|]. simpl. intros [= <-].
        exists (fresh (dom (rows st))), stored. split; [done|]. split; [done|]. left.
        split; [apply fresh_dom_None|by right].
    - unfold create. destruct (stored_rate backend x) as [stored|e]; simpl; [|done].
      case_decide; [done|]. simpl. intros [= <-].
      exists (fresh (dom (rows st))), stored. split; [done|]. split; [done|]. left.
      split; [apply fresh_dom_None|by left]. }
  intros Hstep. right.
  assert (∃ k stored, stored_rate backend x = Ok stored ∧
         st' = mkState (<[k := mkRate f t stored now true]> (rows st))
                       ({[(f, t)]} ∪ processed_pairs st) (S (clock_reads st)) ∧
         ((rows st !! k = None ∧
           (singleton service = false ∨ latest_automatic (rows st) f t = None)) ∨
          (singleton service = true ∧ ∃ old, latest_automatic (rows st) f t = Some (k, old))))
    as (k & stored & Hs & Hst & Hcase).
  { apply Hgen. subst f t. destruct inv; exact Hstep. }
  exists k, f, t, stored. split; [subst f t; by destruct (resolved inv a b)|done].
Qed.

(** the loop over a batch in two parts *)
Lemma fetch_loop_app inv st rates1 rates2 :
  fetch_loop backend clock inv service st (rates1 ++ rates2) =
  match fetch_loop backend clock inv service st rates1 with
  | (st1, None) => fetch_loop backend clock inv service st1 rates2
  | (st1, Some e) => (st1, Some e)
  end.
Proof.
  revert st. induction rates1 as [|tuple rates1 IH]; intros st; cbn [app fetch_loop]; [done|].
  destruct (process_tuple backend clock inv service st tuple) as [st1|e]; [apply IH|done].
Qed.

(** an inverted provider: the set receives only swapped pairs of the batch *)
Lemma fetch_loop_inverted_keys st rates st' err f t :
  fetch_loop backend clock true service st rates = (st', err) →
  (f, t) ∈ processed_pairs st' →
  (f, t) ∈ processed_pairs st ∨ ∃ x, (t, f, x) ∈ rates.
Proof.
  revert st. induction rates as [|[[a b] x] rates IH]; intros st; cbn [fetch_loop].
  - intros [= <- <-]. by left.
  - destruct (process_tuple backend clock true service st (a, b, x)) as [st1|e] eqn:Hstep.
    + intros Hloop Hin. destruct (IH _ Hloop Hin) as [Hin1|(x' & Hx')].
      * apply process_tuple_cases in Hstep
          as [->|(k & f0 & t0 & stored & Hft & _ & -> & _)]; [by left|].
        cbn [processed_pairs] in Hin1. unfold resolved in Hft. injection Hft as -> ->.
        apply elem_of_union in Hin1 as [Hin1|Hin1]; [|by left].
        apply elem_of_singleton in Hin1. injection Hin1 as -> ->.
        right. exists x. apply list_elem_of_here.
      * right. exists x'. by apply list_elem_of_further.
    + intros [= <- <-]. by left.
Qed.

End FetchFacts.

(** C1. Within one batch a stored pair should be written at most once. The
    loop does skip a later tuple of a pair already met when the provider is
    not inverted. For an inverted provider the membership test uses the raw
    pair (from, to) while the set receives the swapped pair (to, from): a
    second tuple of the same pair is stored again. With the tuples
    (1, 2, 0.9) and (1, 2, 0.8) an inverted provider leaves two rows 2 -> 1
    in a time-series service, and overwrites the single row twice in a
    singleton service. *)
Theorem fetch_batch_duplicate_pairs :
  (∀ backend clock service st rates st' a b r0 r,
     fetch_loop backend clock false service st rates = (st', None) →
     (a, b, r0) ∈ rates →
     process_tuple backend clock false service st' (a, b, r) = Ok st') ∧
  (∀ backend,
     (_fetch_service_rates backend sample_clock true series_service ∅
        [(1, 2, Dec.mkDec 9 (-1)); (1, 2, Dec.mkDec 8 (-1))]).1 =
       {[ 0 := mkRate 2 1 (Dec.mkDec 900000000000000000000000000000 (-30)) 1000 true;
          1 := mkRate 2 1 (Dec.mkDec 800000000000000000000000000000 (-30)) 1001 true ]}) ∧
  (∀ backend,
     (_fetch_service_rates backend sample_clock true singleton_service ∅
        [(1, 2, Dec.mkDec 9 (-1)); (1, 2, Dec.mkDec 8 (-1))]).1 =
       {[ 0 := mkRate 2 1 (Dec.mkDec 800000000000000000000000000000 (-30)) 1001 true ]}) ∧
  (∀ backend,
     (_fetch_service_rates backend sample_clock false series_service ∅
        [(1, 2, Dec.mkDec 9 (-1)); (1, 2, Dec.mkDec 8 (-1))]).1 =
       {[ 0 := mkRate 1 2 (Dec.mkDec 900000000000000000000000000000 (-30)) 1000 true ]}).
Proof.
  split; [|split; [|split]].
  - intros backend clock service st rates st' a b r0 r Hloop Hin.
    apply process_tuple_skip. by eapply fetch_loop_processed.
  - intros []; vm_compute; reflexivity.
  - intros []; vm_compute; reflexivity.
  - intros []; vm_compute; reflexivity.
Qed.

Lemma fetch_batch_duplicate_pairs_witness :
  process_tuple postgresql sample_clock false series_service
    (fetch_loop postgresql sample_clock false series_service (mkState ∅ ∅ 0)
       [(1, 2, Dec.mkDec 9 (-1))]).1 (1, 2, Dec.mkDec 8 (-1)) =
  Ok (fetch_loop postgresql sample_clock false series_service (mkState ∅ ∅ 0)
        [(1, 2, Dec.mkDec 9 (-1))]).1.
Proof.
  apply (proj1 fetch_batch_duplicate_pairs postgresql sample_clock series_service
           (mkState ∅ ∅ 0) [(1, 2, Dec.mkDec 9 (-1))] _ 1 2 (Dec.mkDec 9 (-1))).
  - vm_compute. reflexivity.
  - apply list_elem_of_here.
Defined.

(** the same mismatch of keys drops a tuple of a pair not yet stored: after
    (1, 2, 0.9) an inverted provider's tuple (2, 1, 0.8), to be stored as
    1 -> 2, finds its raw key (2, 1) in the set and is skipped *)
Lemma fetch_inverted_reverse_pair_dropped backend :
  (_fetch_service_rates backend sample_clock true series_service ∅
     [(1, 2, Dec.mkDec 9 (-1)); (2, 1, Dec.mkDec 8 (-1))]).1 =
    {[ 0 := mkRate 2 1 (Dec.mkDec 900000000000000000000000000000 (-30)) 1000 true ]}.
Proof. destruct backend; vm_compute; reflexivity. Qed.

(** C2, as the code has it. Take a tuple (A, B, r) of an inverted provider
    that is the first of its batch to name the currencies A and B, in either
    order, and whose write goes through: r fits the rate column, and no
    stored row already holds (B, A) at the clock's date. The loop processes
    it, and the one row it creates or overwrites for it is from = B, to = A
    (dated by the clock, automatic); its rate is r at the 30 decimal places
    of the column: the number r when r has no more than 30 decimals, and r
    rounded to the 30th place otherwise. *)
Theorem inverted_tuple_stored_swapped backend clock service table rates1 a b r rates2 st1 :
  (∀ a' b' x, (a', b', x) ∈ rates1 → (a', b') ≠ (a, b) ∧ (a', b') ≠ (b, a)) →
  fetch_loop backend clock true service (mkState table ∅ 0) rates1 = (st1, None) →
  fits_column r →
  ¬ conflicts (rows st1) None b a (clock (clock_reads st1)) →
  ∃ st2 k stored,
    fetch_loop backend clock true service (mkState table ∅ 0) (rates1 ++ [(a, b, r)]) =
      (st2, None) ∧
    fetch_loop backend clock true service (mkState table ∅ 0) (rates1 ++ (a, b, r) :: rates2) =
      fetch_loop backend clock true service st2 rates2 ∧
    rows st2 = <[k := mkRate b a stored (clock (clock_reads st1)) true]> (rows st1) ∧
    stored_rate backend r = Ok stored ∧ to_30_places r stored ∧
    (rows st1 !! k = None ∨
     ∃ old, rows st1 !! k = Some old ∧
            from_currency_id old = b ∧ to_currency_id old = a).
Proof.
  intros Hfirst Hloop Hfits Hfree.
  apply (stored_rate_fits backend) in Hfits as [stored Hstored].
  assert (Hkey : (a, b) ∉ processed_pairs st1).
  { intros Hin.
    destruct (fetch_loop_inverted_keys backend clock service _ _ _ _ _ _ Hloop Hin)
      as [Hin0|(x & Hx)]; [by apply not_elem_of_empty in Hin0|].
    by destruct (Hfirst _ _ _ Hx) as [_ []]. }
  destruct (process_tuple_spec backend clock service true st1 a b r stored Hkey Hstored Hfree)
    as (k & Hstep & Hcase).
  cbn [resolved fst snd] in Hstep, Hcase.
  eexists _, k, stored. split; [|split; [|split; [|split; [|split]]]].
  - rewrite fetch_loop_app, Hloop. cbn [fetch_loop]. by rewrite Hstep.
  - rewrite fetch_loop_app, Hloop. cbn [fetch_loop]. by rewrite Hstep.
  - done.
  - done.
  - by eapply stored_rate_places.
  - destruct Hcase as [[_ (old & Hl)]|[Hk _]]; [|by left].
    right. exists old. apply latest_automatic_Some in Hl as (Hk & (_ & Hf & Ht) & _). done.
Qed.


Lemma inverted_tuple_stored_swapped_witness :
  ∃ st2 k stored,
    fetch_loop postgresql sample_clock true singleton_service (mkState sample_table ∅ 0)
      ([(3, 4, Dec.mkDec 8 (-1))] ++
       [(1, 2, Dec.mkDec 3333333333333333333333333333 (-32))]) = (st2, None) ∧
    fetch_loop postgresql sample_clock true singleton_service (mkState sample_table ∅ 0)
      ([(3, 4, Dec.mkDec 8 (-1))] ++
       (1, 2, Dec.mkDec 3333333333333333333333333333 (-32)) :: [(2, 3, Dec.mkDec 7 (-1))]) =
      fetch_loop postgresql sample_clock true singleton_service st2
        [(2, 3, Dec.mkDec 7 (-1))] ∧
    rows st2 =
      <[k := mkRate 2 1 stored (sample_clock 1) true]>
        (<[9 := mkRate 4 3 (Dec.mkDec 800000000000000000000000000000 (-30)) 1000 true]>
           sample_table) ∧
    stored_rate postgresql (Dec.mkDec 3333333333333333333333333333 (-32)) = Ok stored ∧
    to_30_places (Dec.mkDec 3333333333333333333333333333 (-32)) stored ∧
    ((<[9 := mkRate 4 3 (Dec.mkDec 800000000000000000000000000000 (-30)) 1000 true]>
        sample_table) !! k = None ∨
     ∃ old,
       (<[9 := mkRate 4 3 (Dec.mkDec 800000000000000000000000000000 (-30)) 1000 true]>
          sample_table) !! k = Some old ∧
       from_currency_id old = 2 ∧ to_currency_id old = 1).
Proof.
  refine (inverted_tuple_stored_swapped postgresql sample_clock singleton_service sample_table
            [(3, 4, Dec.mkDec 8 (-1))] 1 2 (Dec.mkDec 3333333333333333333333333333 (-32))
            [(2, 3, Dec.mkDec 7 (-1))]
            (mkState
               (<[9 := mkRate 4 3 (Dec.mkDec 800000000000000000000000000000 (-30)) 1000 true]>
                  sample_table)
               {[(4, 3)]} 1) _ _ _ _).
  - intros a' b' x Hin. apply list_elem_of_singleton in Hin. injection Hin as -> -> ->.
    split; discriminate.
  - vm_compute. reflexivity.
  - vm_compute. reflexivity.
  - apply (proj1 (bool_decide_eq_false _)). vm_compute. reflexivity.
Defined.

(** C2 as stated fails: the number is not always unchanged. The rate
    1 / 30000 = 0.00003333333333333333333333333333 of an inverted provider
    has 32 decimals, and the row stored for it holds
    0.000033333333333333333333333333, a different number, whoever rounds. *)
Lemma inverted_rate_rounded :
  (_fetch_service_rates postgresql sample_clock true series_service ∅
     [(1, 2, Dec.mkDec 3333333333333333333333333333 (-32))]).1 =
    {[ 0 := mkRate 2 1 (Dec.mkDec 33333333333333333333333333 (-30)) 1000 true ]} ∧
  (_fetch_service_rates django_format sample_clock true series_service ∅
     [(1, 2, Dec.mkDec 3333333333333333333333333333 (-32))]).1 =
    {[ 0 := mkRate 2 1 (Dec.mkDec 33333333333333333333333333 (-30)) 1000 true ]} ∧
  Dec.div Dec.one (Dec.mkDec 30000 0) = Ok (Dec.mkDec 3333333333333333333333333333 (-32)) ∧
  Dec.eqb (Dec.mkDec 33333333333333333333333333 (-30))
          (Dec.mkDec 3333333333333333333333333333 (-32)) = false.
Proof. repeat split; vm_compute; reflexivity. Qed.



(** * Further properties *)

(** ** The hour-set parser and the schedule check, continued *)

Lemma token_hours_bounds t hs :
  token_hours t hs → hs ≠ [] ∧ ∀ h, h ∈ hs → 0 ≤ h ≤ 23.
Proof.
  intros [(h & _ & Hb & ->)|(lo & hi & _ & H0 & Hle & H23 & ->)].
  - split; [done|]. intros h' Hin. apply list_elem_of_singleton in Hin as ->. done.
  - unfold hour_range. split.
    + rewrite seqZ_cons by lia. done.
    + intros h Hin. apply elem_of_seqZ in Hin. lia.
Qed.

Lemma interval_parts_nonempty s : interval_parts s ≠ [].
Proof. apply split_on_nonempty. Qed.

Lemma parsed_hours_within_day_holds s hours :
  _parse_hour_ranges s = Ok hours →
  hours ≠ ∅ ∧ ∀ h, h ∈ hours → 0 ≤ h ≤ 23.
Proof.
  intros Hp. apply parse_hour_ranges_Ok in Hp as (hss & Hf & ->).
  assert (Hall : Forall (λ hs, hs ≠ [] ∧ ∀ h, h ∈ hs → 0 ≤ h ≤ 23) hss).
  { clear -Hf. induction Hf as [|t hs ts hss Ht _ IH]; constructor; [|done].
    by eapply token_hours_bounds. }
  split.
  - unfold tokens in Hf. pose proof (interval_parts_nonempty s) as Hne.
    destruct (interval_parts s) as [|part parts]; [done|]. simpl in Hf.
    apply Forall2_cons_inv_l in Hf as (hs & hss' & _ & _ & ->).
    apply Forall_cons in Hall as [[Hhs _] _].
    destruct hs as [|h hs]; [done|]. simpl. set_solver.
  - intros h Hin. apply elem_of_list_to_set, list_elem_of_In, in_concat in Hin
      as (hs & Hhs & Hh).
    rewrite Forall_forall in Hall. apply list_elem_of_In in Hhs, Hh.
    by apply (Hall hs Hhs).
Qed.

(** X1. A parsed hour set is never empty and holds only hours of a day: every
    element is between 0 and 23. *)
Theorem parsed_hours_within_day s hours :
  _parse_hour_ranges s = Ok hours →
  hours ≠ ∅ ∧ ∀ h, h ∈ hours → 0 ≤ h ≤ 23.
Proof. apply parsed_hours_within_day_holds. Qed.

Lemma parsed_hours_within_day_witness :
  ({[9; 10; 11]} : gset Z) ≠ ∅ ∧ ∀ h, h ∈ ({[9; 10; 11]} : gset Z) → 0 ≤ h ≤ 23.
Proof.
  apply (parsed_hours_within_day "9-11" {[9; 10; 11]}). vm_compute. reflexivity.
Defined.

(** X3. Under ON the check is due exactly when every token of [fetch_interval] is
    well formed and some token covers the current hour; under NOT_ON exactly
    when every token is well formed and no token covers it. On a malformed
    string both are not due: NOT_ON is the complement of ON only for strings
    that parse. *)
Theorem on_not_on_due nm fi lf sg current_hour now :
  (_should_fetch_at_hour (mkService nm ON fi lf sg) current_hour now = Ok true ↔
   ∃ hss, Forall2 token_hours (tokens fi) hss ∧ current_hour ∈ concat hss) ∧
  (_should_fetch_at_hour (mkService nm NOT_ON fi lf sg) current_hour now = Ok true ↔
   ∃ hss, Forall2 token_hours (tokens fi) hss ∧ current_hour ∉ concat hss) ∧
  (Exists token_fault (tokens fi) →
   _should_fetch_at_hour (mkService nm ON fi lf sg) current_hour now = Ok false ∧
   _should_fetch_at_hour (mkService nm NOT_ON fi lf sg) current_hour now = Ok false).
Proof.
  unfold _should_fetch_at_hour. simpl.
  destruct (_parse_hour_ranges fi) as [hours|e] eqn:Hp; simpl.
  - pose proof (proj1 (parse_hour_ranges_Ok _ _) Hp) as (hss & Hf & ->).
    assert (Huniq : ∀ hss', Forall2 token_hours (tokens fi) hss' →
              (list_to_set (concat hss') : gset Z) = list_to_set (concat hss)).
    { intros hss' Hf'.
      assert (_parse_hour_ranges fi = Ok (list_to_set (concat hss')))
        by (apply parse_hour_ranges_Ok; eauto).
      congruence. }
    split; [|split].
    + split.
      * intros [= Hb]. apply bool_decide_eq_true in Hb. exists hss.
        split; [done|]. by apply elem_of_list_to_set in Hb.
      * intros (hss' & Hf' & Hin). f_equal. apply bool_decide_eq_true.
        rewrite <- (Huniq hss' Hf'). by apply elem_of_list_to_set.
    + split.
      * intros [= Hb]. apply negb_true_iff, bool_decide_eq_false in Hb. exists hss.
        split; [done|]. intros Hin. apply Hb. by apply elem_of_list_to_set.
      * intros (hss' & Hf' & Hin). f_equal. apply negb_true_iff, bool_decide_eq_false.
        rewrite <- (Huniq hss' Hf'). intros Hc. apply Hin.
        by apply elem_of_list_to_set in Hc.
    + intros Hbad.
      assert (_parse_hour_ranges fi = Raise ValueError)
        by (by apply parse_hour_ranges_Raise).
      congruence.
  - apply parse_hour_ranges_Raise in Hp as [-> Hbad]. simpl.
    split; [|split; [|done]].
    + split; [done|]. intros (hss & Hf & _).
      assert (_parse_hour_ranges fi = Ok (list_to_set (concat hss)))
        by (apply parse_hour_ranges_Ok; eauto).
      assert (_parse_hour_ranges fi = Raise ValueError)
        by (by apply parse_hour_ranges_Raise).
      congruence.
    + split; [done|]. intros (hss & Hf & _).
      assert (_parse_hour_ranges fi = Ok (list_to_set (concat hss)))
        by (apply parse_hour_ranges_Ok; eauto).
      assert (_parse_hour_ranges fi = Raise ValueError)
        by (by apply parse_hour_ranges_Raise).
      congruence.
Qed.

Lemma on_not_on_due_witness :
  _should_fetch_at_hour (mkService "ecb" ON "9,5-2" None false) 9 0 = Ok false ∧
  _should_fetch_at_hour (mkService "ecb" NOT_ON "9,5-2" None false) 9 0 = Ok false.
Proof.
  apply (proj2 (proj2 (on_not_on_due "ecb" "9,5-2" None false 9 0))).
  apply (proj1 (parse_hour_ranges_Raise "9,5-2" ValueError)). vm_compute. reflexivity.
Defined.

Lemma truncate_hour_le t : truncate_hour t ≤ t < truncate_hour t + hour_us.
Proof.
  unfold truncate_hour. pose proof (Z.mod_pos_bound t hour_us). unfold hour_us in *. lia.
Qed.

Lemma every_due_threshold_holds service current_hour now N last :
  interval_type service = EVERY →
  py_int (list_ascii_of_string (fetch_interval service)) = Some N →
  last_fetch service = Some last →
  (_should_fetch_at_hour service current_hour now = Ok true ↔
   truncate_hour last + N * hour_us ≤ now) ∧
  (_should_fetch_at_hour service current_hour now = Ok false ↔
   now < truncate_hour last + N * hour_us).
Proof.
  intros Hty HN Hlast. rewrite (should_fetch_every _ _ _ N Hty HN), Hlast.
  pose proof (elapsed_hours_exact last now) as Hex.
  destruct (truncate_hour_multiple now) as [a Ha].
  destruct (truncate_hour_multiple last) as [b Hb].
  pose proof (truncate_hour_le now) as Hnow.
  assert (Hiff : N ≤ elapsed_hours last now ↔ truncate_hour last + N * hour_us ≤ now).
  { rewrite Ha, Hb in Hex. rewrite Hb. rewrite Ha in Hnow. unfold hour_us in *.
    split; intros H; nia. }
  split.
  - split.
    + intros [= Hd]. apply bool_decide_eq_true in Hd. by apply Hiff.
    + intros H. f_equal. apply bool_decide_eq_true. by apply Hiff.
  - split.
    + intros [= Hd]. apply bool_decide_eq_false in Hd.
      destruct (Z.lt_ge_cases now (truncate_hour last + N * hour_us)); [done|].
      exfalso. apply Hd. by apply Hiff.
    + intros H. f_equal. apply bool_decide_eq_false. intros Hd. apply Hiff in Hd. lia.
Qed.

(** X4. Under EVERY with interval N and a recorded [last_fetch], the check is due
    exactly from the instant N hours after the start of the hour of
    [last_fetch]: once due it stays due, and for N >= 1 it is never due within
    the clock hour of the last fetch. *)
Theorem every_due_threshold service current_hour now N last :
  interval_type service = EVERY →
  py_int (list_ascii_of_string (fetch_interval service)) = Some N →
  last_fetch service = Some last →
  (_should_fetch_at_hour service current_hour now = Ok true ↔
   truncate_hour last + N * hour_us ≤ now) ∧
  (_should_fetch_at_hour service current_hour now = Ok false ↔
   now < truncate_hour last + N * hour_us).
Proof. apply every_due_threshold_holds. Qed.

Lemma every_due_threshold_witness :
  (_should_fetch_at_hour (mkService "ecb" EVERY "2" (Some 1730000000000000) false)
     7 1730010000000000 = Ok true ↔
   truncate_hour 1730000000000000 + 2 * hour_us ≤ 1730010000000000) ∧
  (_should_fetch_at_hour (mkService "ecb" EVERY "2" (Some 1730000000000000) false)
     7 1730010000000000 = Ok false ↔
   1730010000000000 < truncate_hour 1730000000000000 + 2 * hour_us).
Proof.
  apply (every_due_threshold
           (mkService "ecb" EVERY "2" (Some 1730000000000000) false)
           7 1730010000000000 2 1730000000000000); reflexivity.
Defined.

Lemma is_range_functional t lo hi lo' hi' :
  is_range t lo hi → is_range t lo' hi' → lo = lo' ∧ hi = hi'.
Proof.
  intros H1 H2. apply is_range_split in H1 as (a & b & Hs & Hlo & Hhi).
  apply is_range_split in H2 as (a' & b' & Hs' & Hlo' & Hhi').
  rewrite Hs in Hs'. injection Hs' as <- <-. split; congruence.
Qed.

Lemma token_hours_functional t hs hs' : token_hours t hs → token_hours t hs' → hs = hs'.
Proof.
  intros [(h & [Hc Hh] & _ & ->)|(lo & hi & Hr & _ & _ & _ & ->)]
         [(h' & [Hc' Hh'] & _ & ->)|(lo' & hi' & Hr' & _ & _ & _ & ->)].
  - congruence.
  - apply is_range_contains in Hr'. congruence.
  - apply is_range_contains in Hr. congruence.
  - by destruct (is_range_functional _ _ _ _ _ Hr Hr') as [-> ->].
Qed.

Lemma Forall2_token_hours_elem ts hss h :
  Forall2 token_hours ts hss →
  (h ∈ concat hss ↔ ∃ t hs, t ∈ ts ∧ token_hours t hs ∧ h ∈ hs).
Proof.
  induction 1 as [|t hs ts hss Ht Hf IH]; simpl.
  - split; [intros Hin; by apply not_elem_of_nil in Hin|].
    intros (t & hs & Hin & _). by apply not_elem_of_nil in Hin.
  - rewrite elem_of_app, IH. split.
    + intros [Hh|(t' & hs' & Hin & Ht' & Hh)].
      * exists t, hs. split; [apply list_elem_of_here|done].
      * exists t', hs'. split; [by apply list_elem_of_further|done].
    + intros (t' & hs' & Hin & Ht' & Hh).
      apply elem_of_cons in Hin as [->|Hin].
      * left. by rewrite (token_hours_functional _ _ _ Ht Ht').
      * right. by exists t', hs'.
Qed.

(** X2. The parser's result depends only on which tokens occur in the string, not
    on their order or on repetitions: two strings with the same set of
    stripped tokens parse to the same set of hours, or both fail. *)
Theorem parse_hour_ranges_token_set s1 s2 :
  (∀ t, t ∈ tokens s1 ↔ t ∈ tokens s2) →
  _parse_hour_ranges s1 = _parse_hour_ranges s2.
Proof.
  intros Hsame.
  assert (Hfault : Exists token_fault (tokens s1) ↔ Exists token_fault (tokens s2)).
  { rewrite !Exists_exists. split; intros (t & Hin & Ht); exists t; (split; [|done]);
      by apply Hsame. }
  destruct (_parse_hour_ranges s1) as [h1|e1] eqn:H1,
           (_parse_hour_ranges s2) as [h2|e2] eqn:H2.
  - apply parse_hour_ranges_Ok in H1 as (hss1 & Hf1 & ->).
    apply parse_hour_ranges_Ok in H2 as (hss2 & Hf2 & ->).
    f_equal. apply set_eq. intros h. rewrite !elem_of_list_to_set.
    rewrite (Forall2_token_hours_elem _ _ h Hf1), (Forall2_token_hours_elem _ _ h Hf2).
    split; intros (t & hs & Hin & ?); exists t, hs; (split; [|done]); by apply Hsame.
  - apply parse_hour_ranges_Raise in H2 as [_ Hbad]. apply Hfault in Hbad.
    assert (_parse_hour_ranges s1 = Raise ValueError) by (by apply parse_hour_ranges_Raise).
    congruence.
  - apply parse_hour_ranges_Raise in H1 as [_ Hbad]. apply Hfault in Hbad.
    assert (_parse_hour_ranges s2 = Raise ValueError) by (by apply parse_hour_ranges_Raise).
    congruence.
  - apply parse_hour_ranges_Raise in H1 as [-> _].
    apply parse_hour_ranges_Raise in H2 as [-> _]. done.
Qed.

Lemma parse_hour_ranges_token_set_witness :
  _parse_hour_ranges "8, 1-5,8" = _parse_hour_ranges "1-5 ,8".
Proof.
  apply (parse_hour_ranges_token_set "8, 1-5,8" "1-5 ,8").
  intros t. vm_compute tokens. rewrite !elem_of_cons, !elem_of_nil. tauto.
Defined.

(** ** [ExchangeRateService.clean] *)

Lemma lstrip_with_head sp c s : sp c = false → lstrip_with sp (c :: s) = c :: s.
Proof. intros H. simpl. by rewrite H. Qed.


Lemma strip_nonspace_ends w : nonspace_ends w → strip w = w.
Proof.
  intros [(c & w' & -> & Hc) (d & w'' & Hr & Hd)].
  unfold strip, strip_with. rewrite (lstrip_with_head _ _ _ Hc), Hr.
  rewrite (lstrip_with_head _ _ _ Hd), <- Hr. apply rev_involutive.
Qed.

Lemma str_join_nonspace_ends sep ws :
  ws ≠ [] → Forall nonspace_ends ws → nonspace_ends (str_join sep ws).
Proof.
  intros Hne Hall. induction Hall as [|w ws Hw Hws IH]; [done|].
  destruct ws as [|w2 ws]; [done|].
  specialize (IH ltac:(done)).
  change (str_join sep (w :: w2 :: ws)) with (w ++ sep :: str_join sep (w2 :: ws)).
  remember (str_join sep (w2 :: ws)) as j eqn:Hj. clear Hj.
  destruct Hw as [(c & w' & -> & Hc) _]. destruct IH as [_ (d & w'' & Hr & Hd)].
  split.
  - by exists c, (w' ++ sep :: j).
  - rewrite rev_app_distr. change (rev (sep :: j)) with (rev j ++ [sep]).
    rewrite Hr. exists d. eexists. split; [reflexivity|done].
Qed.

Lemma split_on_str_join sep ws :
  ws ≠ [] → Forall (λ w, contains sep w = false) ws →
  split_on sep (str_join sep ws) = ws.
Proof.
  intros Hne Hall. induction Hall as [|w ws Hw Hws IH]; [done|].
  destruct ws as [|w2 ws].
  - simpl. by apply split_on_none.
  - change (str_join sep (w :: w2 :: ws)) with (w ++ sep :: str_join sep (w2 :: ws)).
    rewrite split_on_app by done. f_equal. by apply IH.
Qed.


Lemma hour_literals_ok : Forall hour_literal_ok (seqZ 0 24).
Proof.
  vm_compute seqZ.
  repeat (constructor;
          [split; [vm_compute; reflexivity|]; split; [vm_compute; reflexivity|];
           split; eexists _, _; (split; [vm_compute; reflexivity|reflexivity])|]).
  constructor.
Qed.

Lemma hour_literal_ok_of h : 0 ≤ h ≤ 23 → hour_literal_ok h.
Proof.
  intros Hh. pose proof hour_literals_ok as Hall. rewrite Forall_forall in Hall.
  apply Hall. apply elem_of_seqZ. lia.
Qed.

Lemma parse_parts_literals l acc :
  Forall (λ h, 0 ≤ h ≤ 23) l →
  parse_parts (map str_of_Z l) acc = Ok (acc ∪ list_to_set l).
Proof.
  intros Hall. revert acc. induction Hall as [|h l Hh _ IH]; intros acc; simpl.
  - f_equal. set_solver.
  - destruct (hour_literal_ok_of h Hh) as (-> & _). simpl. rewrite IH.
    f_equal. set_solver.
Qed.

(** the round trip of the normal form: it parses back to the set *)
Lemma parse_normalized_interval (hours : gset Z) :
  hours ≠ ∅ → (∀ h, h ∈ hours → 0 ≤ h ≤ 23) →
  _parse_hour_ranges (normalized_interval hours) = Ok hours.
Proof.
  intros Hne Hb. unfold _parse_hour_ranges, interval_parts, normalized_interval.
  rewrite list_ascii_of_string_of_list_ascii.
  set (l := merge_sort Z.le (elements hours)).
  assert (Hperm : l ≡ₚ elements hours) by apply merge_sort_Permutation.
  assert (Hl : Forall (λ h, 0 ≤ h ≤ 23) l).
  { apply Forall_forall. intros h Hh. apply Hb. rewrite Hperm in Hh.
    by apply elem_of_elements in Hh. }
  assert (Hlne : l ≠ []).
  { intros Hnil. rewrite Hnil in Hperm. symmetry in Hperm.
    apply Permutation_nil_r in Hperm. apply elements_empty_inv in Hperm.
    apply Hne. by apply leibniz_equiv. }
  assert (Hok : Forall hour_literal_ok l).
  { eapply Forall_impl; [exact Hl|]. apply hour_literal_ok_of. }
  rewrite strip_nonspace_ends.
  2:{ apply str_join_nonspace_ends; [by destruct l|].
      apply Forall_fmap. eapply Forall_impl; [exact Hok|]. by intros h (_ & _ & ?). }
  rewrite split_on_str_join.
  2:{ by destruct l. }
  2:{ apply Forall_fmap. eapply Forall_impl; [exact Hok|]. by intros h (_ & ? & _). }
  rewrite parse_parts_literals by done. f_equal.
  apply set_eq. intros h. rewrite elem_of_union, elem_of_list_to_set, Hperm, elem_of_elements.
  set_solver.
Qed.

Lemma clean_normalizes_hours_holds service service' :
  interval_type service ≠ EVERY →
  (clean service = inr service' ↔
   ∃ hours, _parse_hour_ranges (fetch_interval service) = Ok hours ∧
     service' = mkService (name service) (interval_type service)
                  (normalized_interval hours) (last_fetch service) (singleton service) ∧
     _parse_hour_ranges (fetch_interval service') = Ok hours).
Proof.
  intros Hty. unfold clean.
  destruct (interval_type service) as [| | |other] eqn:Hit; [|done| |].
  all: destruct (_parse_hour_ranges (fetch_interval service)) as [hours|e] eqn:Hp.
  all: try (split; [by destruct e|by intros (hours & ? & _)]).
  all: destruct (parsed_hours_within_day_holds _ _ Hp) as [Hne Hb].
  all: split;
    [intros [= <-]; exists hours; split; [done|]; split; [done|];
       by apply parse_normalized_interval
    |by intros (hours' & [= <-] & -> & _)].
Qed.

(** X5. Under ON, NOT_ON (and any other stored interval type) [clean] accepts the
    service exactly when the hour-set parser accepts [fetch_interval]; it then
    replaces the string by its normal form, and the normal form parses to the
    same set of hours. *)
Theorem clean_normalizes_hours service service' :
  interval_type service ≠ EVERY →
  (clean service = inr service' ↔
   ∃ hours, _parse_hour_ranges (fetch_interval service) = Ok hours ∧
     service' = mkService (name service) (interval_type service)
                  (normalized_interval hours) (last_fetch service) (singleton service) ∧
     _parse_hour_ranges (fetch_interval service') = Ok hours).
Proof. apply clean_normalizes_hours_holds. Qed.

Lemma clean_normalizes_hours_witness :
  ∃ hours, _parse_hour_ranges " 10-12, 8,1-5,8 " = Ok hours ∧
    mkService "ecb" ON "1,2,3,4,5,8,10,11,12" None false =
      mkService "ecb" ON (normalized_interval hours) None false ∧
    _parse_hour_ranges "1,2,3,4,5,8,10,11,12" = Ok hours.
Proof.
  apply (proj1 (clean_normalizes_hours
                  (mkService "ecb" ON " 10-12, 8,1-5,8 " None false)
                  (mkService "ecb" ON "1,2,3,4,5,8,10,11,12" None false)
                  ltac:(discriminate))).
  vm_compute. reflexivity.
Defined.

Lemma isdigit_py_int s : isdigit s = true → ∃ n, py_int s = Some n ∧ 0 ≤ n.
Proof.
  intros Hd.
  assert (Hgo : ∀ s acc b, 0 ≤ acc →
            forallb (λ c, match digit_val c with Some _ => true | None => false end) s = true →
            (s = [] → b = true) →
            ∃ n, parse_digits acc b s = Some n ∧ 0 ≤ n).
  { clear. induction s as [|c s IH]; intros acc b Hacc Hall Hb; simpl in *.
    - rewrite Hb by done. eauto.
    - apply andb_true_iff in Hall as [Hc Hall].
      destruct (digit_val c) as [v|] eqn:Hv; [|done].
      apply IH; [|done|done].
      unfold digit_val in Hv.
      destruct ((48 <=? Z.of_nat (nat_of_ascii c)) && (Z.of_nat (nat_of_ascii c) <=? 57))
        eqn:Hr; [|done].
      injection Hv as <-. apply andb_true_iff in Hr as [H1 _]. apply Z.leb_le in H1. lia. }
  destruct s as [|c s]; [done|]. unfold isdigit in Hd.
  assert (Hc : digit_val c ≠ None).
  { simpl in Hd. by destruct (digit_val c). }
  assert (Hsp : ∀ a, digit_val a ≠ None → is_int_space a = false ∧
                     Ascii.eqb a "+" = false ∧ Ascii.eqb a "-" = false).
  { clear. intros a Ha. unfold digit_val in Ha.
    destruct ((48 <=? Z.of_nat (nat_of_ascii a)) && (Z.of_nat (nat_of_ascii a) <=? 57))
      eqn:Hr; [|done].
    apply andb_true_iff in Hr as [H1 H2]. apply Z.leb_le in H1, H2.
    split; [|split].
    - unfold is_int_space. apply orb_false_iff. split.
      + apply andb_false_iff. right. apply Z.leb_gt. lia.
      + apply Z.eqb_neq. lia.
    - apply Ascii.eqb_neq. intros ->. vm_compute in H1. by apply H1.
    - apply Ascii.eqb_neq. intros ->. vm_compute in H1. by apply H1. }
  assert (Hlast : ∃ d w, rev (c :: s) = d :: w ∧ digit_val d ≠ None).
  { assert (Hall : Forall (λ a, digit_val a ≠ None) (rev (c :: s))).
    { apply Forall_forall. intros a Ha. apply list_elem_of_In, in_rev in Ha.
      rewrite forallb_forall in Hd. specialize (Hd a Ha). by destruct (digit_val a). }
    destruct (rev (c :: s)) as [|d w] eqn:Hr.
    - apply (f_equal (@length _)) in Hr. rewrite length_rev in Hr. done.
    - apply Forall_cons in Hall as [Hdv _]. eauto. }
  destruct Hlast as (d & w & Hr & Hdv).
  unfold py_int, strip_with.
  rewrite (lstrip_with_head _ _ _ (proj1 (Hsp c Hc))), Hr.
  rewrite (lstrip_with_head _ _ _ (proj1 (Hsp d Hdv))), <- Hr, rev_involutive.
  destruct (Hsp c Hc) as (_ & -> & ->).
  apply Hgo; [lia|done|done].
Qed.

Lemma clean_every_accepts_holds service service' :
  interval_type service = EVERY →
  (clean service = inr service' ↔
   service' = service ∧
   isdigit (list_ascii_of_string (fetch_interval service)) = true ∧
   ∃ n, py_int (list_ascii_of_string (fetch_interval service)) = Some n ∧ 1 ≤ n ≤ 24).
Proof.
  intros Hty. unfold clean, int. rewrite Hty.
  destruct (isdigit (list_ascii_of_string (fetch_interval service))) eqn:Hd; simpl.
  - destruct (isdigit_py_int _ Hd) as (n & Hn & _). rewrite Hn.
    destruct (Z.ltb_spec n 1); simpl.
    + split; [done|]. intros (_ & _ & n' & [= <-] & ?). lia.
    + destruct (Z.ltb_spec 24 n); simpl.
      * split; [done|]. intros (_ & _ & n' & [= <-] & ?). lia.
      * split; [intros [= <-]|by intros [-> _]].
        split; [done|]. split; [done|]. exists n. split; [done|lia].
  - split; [done|]. by intros (_ & ? & _).
Qed.

(** X6. Under EVERY [clean] accepts the service exactly when [fetch_interval] is a
    non-empty string of digits whose value is between 1 and 24, and leaves the
    service as it is; a string that is not all digits (a sign, a space, a
    range) is rejected even where [int()] would read it. *)
Theorem clean_every_accepts service service' :
  interval_type service = EVERY →
  (clean service = inr service' ↔
   service' = service ∧
   isdigit (list_ascii_of_string (fetch_interval service)) = true ∧
   ∃ n, py_int (list_ascii_of_string (fetch_interval service)) = Some n ∧ 1 ≤ n ≤ 24).
Proof. apply clean_every_accepts_holds. Qed.

Lemma clean_every_accepts_witness :
  mkService "ecb" EVERY "024" None false = mkService "ecb" EVERY "024" None false ∧
  isdigit (list_ascii_of_string "024") = true ∧
  ∃ n, py_int (list_ascii_of_string "024") = Some n ∧ 1 ≤ n ≤ 24.
Proof.
  apply (proj1 (clean_every_accepts (mkService "ecb" EVERY "024" None false)
                  (mkService "ecb" EVERY "024" None false) eq_refl)).
  vm_compute. reflexivity.
Defined.

(** X7. A service that [clean] accepted is accepted again unchanged ([clean] is
    idempotent), and its [fetch_interval] is never malformed for the schedule
    check. *)
Theorem cleaned_service_stable service service' :
  clean service = inr service' →
  clean service' = inr service' ∧ ¬ malformed_interval service'.
Proof.
  intros Hc.
  assert (interval_type service = EVERY ∨ interval_type service ≠ EVERY) as [Hty|Hty]
    by (destruct (interval_type service); [right|left|right|right]; done).
  - apply (clean_every_accepts_holds _ _ Hty) in Hc as (-> & Hd & n & Hn & Hb).
    split.
    + apply clean_every_accepts_holds; [done|]. eauto 6.
    + unfold malformed_interval. rewrite Hty. congruence.
  - apply (clean_normalizes_hours_holds _ _ Hty) in Hc as (hours & Hp & -> & Hp').
    simpl in Hp'. split.
    + apply clean_normalizes_hours_holds; [done|]. exists hours. simpl. done.
    + unfold malformed_interval. simpl.
      assert (Hno : ¬ Exists token_fault (tokens (normalized_interval hours))).
      { intros Hbad.
        assert (_parse_hour_ranges (normalized_interval hours) = Raise ValueError)
          by (by apply parse_hour_ranges_Raise).
        congruence. }
      destruct (interval_type service); [done|congruence|done|by intros []].
Qed.

Lemma cleaned_service_stable_witness :
  clean (mkService "ecb" ON "1,2,3,4,5,8,10,11,12" None false) =
    inr (mkService "ecb" ON "1,2,3,4,5,8,10,11,12" None false) ∧
  ¬ malformed_interval (mkService "ecb" ON "1,2,3,4,5,8,10,11,12" None false).
Proof.
  apply (cleaned_service_stable (mkService "ecb" ON " 10-12, 8,1-5,8 " None false)).
  vm_compute. reflexivity.
Defined.

(** ** [TwelveDataMarketsProvider._parse_code] *)

Lemma startswith_app p s : startswith p s = true ↔ ∃ r, s = p ++ r.
Proof.
  revert s. induction p as [|c p IH]; intros s; simpl.
  - split; [by exists s|done].
  - destruct s as [|c' s].
    + split; [done|]. by intros (r & ?).
    + rewrite andb_true_iff, IH. split.
      * intros [Hc (r & ->)]. apply Ascii.eqb_eq in Hc as ->. by exists r.
      * intros (r & [= -> ->]). split; [apply Ascii.eqb_refl|by exists r].
Qed.

Lemma removeprefix_app p r : removeprefix p (p ++ r) = r.
Proof.
  unfold removeprefix.
  assert (startswith p (p ++ r) = true) as -> by (apply startswith_app; by exists r).
  by rewrite drop_app_length.
Qed.

(** X8. [_parse_code] loses nothing: either the code carries one of the prefixes
    [figi:], [cusip:], [isin:] and is that type, a colon and the returned
    value, or it carries none of them and is returned whole as a [symbol].
    Only the first prefix is taken off, and only by exact (lower-case)
    match. *)
Theorem parse_code_round_trip raw_code :
  (∃ ty, (ty = "figi" ∨ ty = "cusip" ∨ ty = "isin")%string ∧
         (_parse_code raw_code).1 = list_ascii_of_string ty ∧
         raw_code = list_ascii_of_string ty ++ ":"%char :: (_parse_code raw_code).2) ∨
  ((_parse_code raw_code).1 = list_ascii_of_string "symbol" ∧
   (_parse_code raw_code).2 = raw_code ∧
   ∀ ty, (ty = "figi" ∨ ty = "cusip" ∨ ty = "isin")%string →
         startswith (list_ascii_of_string ty ++ [":"%char]) raw_code = false).
Proof.
  unfold _parse_code.
  destruct (startswith (list_ascii_of_string "figi:") raw_code) eqn:H1.
  { left. exists "figi"%string. apply startswith_app in H1 as (r & ->).
    rewrite removeprefix_app. simpl. auto. }
  destruct (startswith (list_ascii_of_string "cusip:") raw_code) eqn:H2.
  { left. exists "cusip"%string. apply startswith_app in H2 as (r & ->).
    rewrite removeprefix_app. simpl. auto. }
  destruct (startswith (list_ascii_of_string "isin:") raw_code) eqn:H3.
  { left. exists "isin"%string. apply startswith_app in H3 as (r & ->).
    rewrite removeprefix_app. simpl. auto. }
  right. split; [done|]. split; [done|].
  intros ty [->|[->| ->]]; done.
Qed.

(** ** The rate graph and the path search, continued *)

Lemma dict_mem_set {V} (d : list (Z * V)) k v k' :
  dict_mem (dict_set d k v) k' = true ↔ k = k' ∨ dict_mem d k' = true.
Proof.
  unfold dict_mem. destruct (decide (k = k')) as [->|Hne].
  - rewrite dict_get_set_eq. naive_solver.
  - rewrite dict_get_set_ne by done. naive_solver.
Qed.

Lemma dict_mem_ensure graph k k' :
  dict_mem (graph_ensure graph k) k' = true ↔ k = k' ∨ dict_mem graph k' = true.
Proof.
  unfold graph_ensure. destruct (dict_mem graph k) eqn:Hk.
  - split; [by right|]. intros [<-|?]; done.
  - apply dict_mem_set.
Qed.

Lemma dict_mem_set_edge graph a b w k :
  dict_mem (graph_set_edge graph a b w) k = true ↔ a = k ∨ dict_mem graph k = true.
Proof. apply dict_mem_set. Qed.

Lemma add_rate_keys graph r graph' k :
  add_rate graph r = Ok graph' →
  (dict_mem graph' k = true ↔
   from_currency_id r = k ∨ to_currency_id r = k ∨ dict_mem graph k = true).
Proof.
  unfold add_rate. destruct (Dec.div Dec.one (rate r)) as [inv|e]; [|done].
  intros [= <-].
  rewrite dict_mem_set_edge, dict_mem_ensure, dict_mem_set_edge, dict_mem_ensure.
  naive_solver.
Qed.

Lemma add_rate_edge_exists graph r graph' a b :
  add_rate graph r = Ok graph' →
  (is_Some (edge_weight graph' a b) ↔ touches a b r ∨ is_Some (edge_weight graph a b)).
Proof.
  intros Hadd. destruct (add_rate_edges _ _ _ a b Hadd) as (inv & _ & ->).
  unfold touches. repeat case_decide; naive_solver.
Qed.

Lemma build_from_shape graph rates graph' :
  build_from graph rates = Ok graph' →
  (∀ k, dict_mem graph' k = true ↔
        (∃ r, r ∈ rates ∧ (from_currency_id r = k ∨ to_currency_id r = k)) ∨
        dict_mem graph k = true) ∧
  (∀ a b, is_Some (edge_weight graph' a b) ↔
          (∃ r, r ∈ rates ∧ touches a b r) ∨ is_Some (edge_weight graph a b)).
Proof.
  revert graph. induction rates as [|r rates IH]; intros graph; simpl.
  - intros [= <-]. split; intros; (split; [by right|]);
      (intros [(r & Hin & _)|?]; [by apply not_elem_of_nil in Hin|done]).
  - destruct (add_rate graph r) as [g1|e] eqn:Hadd; simpl; [|done].
    intros Hb. destruct (IH _ Hb) as [Hkeys Hedges]. split.
    + intros k. rewrite Hkeys, (add_rate_keys _ _ _ k Hadd). split.
      * intros [(r' & Hin & Hr')|[?|[?|?]]]; eauto.
        -- left. exists r'. split; [by apply list_elem_of_further|done].
        -- left. exists r. split; [apply list_elem_of_here|by left].
        -- left. exists r. split; [apply list_elem_of_here|by right].
      * intros [(r' & Hin & Hr')|?]; [|by auto].
        apply elem_of_cons in Hin as [->|Hin]; [naive_solver|eauto].
    + intros a b. rewrite Hedges, (add_rate_edge_exists _ _ _ a b Hadd). split.
      * intros [(r' & Hin & Hr')|[?|?]]; eauto.
        -- left. exists r'. split; [by apply list_elem_of_further|done].
        -- left. exists r. split; [apply list_elem_of_here|done].
      * intros [(r' & Hin & Hr')|?]; [|by auto].
        apply elem_of_cons in Hin as [->|Hin]; [by auto|eauto].
Qed.

Lemma built_graph_shape_holds rates graph :
  _build_currency_graph rates = Ok graph →
  (∀ k, dict_mem graph k = true ↔
        ∃ r, r ∈ rates ∧ (from_currency_id r = k ∨ to_currency_id r = k)) ∧
  (∀ a b, is_Some (edge_weight graph a b) ↔ ∃ r, r ∈ rates ∧ touches a b r) ∧
  (∀ a b, is_Some (edge_weight graph a b) →
          is_Some (edge_weight graph b a) ∧
          dict_mem graph a = true ∧ dict_mem graph b = true).
Proof.
  intros Hb. destruct (build_from_shape [] rates graph Hb) as [Hkeys Hedges].
  assert (Hk : ∀ k, dict_mem graph k = true ↔
        ∃ r, r ∈ rates ∧ (from_currency_id r = k ∨ to_currency_id r = k)).
  { intros k. rewrite Hkeys. split; [|by left]. by intros [?|?]. }
  assert (He : ∀ a b, is_Some (edge_weight graph a b) ↔ ∃ r, r ∈ rates ∧ touches a b r).
  { intros a b. rewrite Hedges. split; [|by left]. intros [?|[x Hx]]; [done|].
    by unfold edge_weight, graph_get in Hx. }
  split; [done|]. split; [done|].
  intros a b Hab. apply He in Hab as (r & Hin & Ht). split; [|split].
  - apply He. exists r. split; [done|]. unfold touches in *. naive_solver.
  - apply Hk. exists r. split; [done|]. unfold touches in Ht. naive_solver.
  - apply Hk. exists r. split; [done|]. unfold touches in Ht. naive_solver.
Qed.

(** X9. The graph built from a list of rates has as keys exactly the currencies
    that occur in some record, and an edge a -> b exactly when some record
    joins a and b in either direction. Hence it is symmetric, and every
    neighbour of a node is itself a key. *)
Theorem built_graph_shape rates graph :
  _build_currency_graph rates = Ok graph →
  (∀ k, dict_mem graph k = true ↔
        ∃ r, r ∈ rates ∧ (from_currency_id r = k ∨ to_currency_id r = k)) ∧
  (∀ a b, is_Some (edge_weight graph a b) ↔ ∃ r, r ∈ rates ∧ touches a b r) ∧
  (∀ a b, is_Some (edge_weight graph a b) →
          is_Some (edge_weight graph b a) ∧
          dict_mem graph a = true ∧ dict_mem graph b = true).
Proof. apply built_graph_shape_holds. Qed.

Lemma built_graph_shape_witness :
  (∀ k, dict_mem
          [(1, [(2, Dec.mkDec 9 (-1))]);
           (2, [(1, Dec.mkDec 1111111111111111111111111111 (-27))])] k = true ↔
        ∃ r, r ∈ [mkRate 1 2 (Dec.mkDec 9 (-1)) 0 true] ∧
             (from_currency_id r = k ∨ to_currency_id r = k)) ∧
  (∀ a b, is_Some (edge_weight
                     [(1, [(2, Dec.mkDec 9 (-1))]);
                      (2, [(1, Dec.mkDec 1111111111111111111111111111 (-27))])] a b) ↔
          ∃ r, r ∈ [mkRate 1 2 (Dec.mkDec 9 (-1)) 0 true] ∧ touches a b r) ∧
  (∀ a b, is_Some (edge_weight
                     [(1, [(2, Dec.mkDec 9 (-1))]);
                      (2, [(1, Dec.mkDec 1111111111111111111111111111 (-27))])] a b) →
          is_Some (edge_weight
                     [(1, [(2, Dec.mkDec 9 (-1))]);
                      (2, [(1, Dec.mkDec 1111111111111111111111111111 (-27))])] b a) ∧
          dict_mem [(1, [(2, Dec.mkDec 9 (-1))]);
                    (2, [(1, Dec.mkDec 1111111111111111111111111111 (-27))])] a = true ∧
          dict_mem [(1, [(2, Dec.mkDec 9 (-1))]);
                    (2, [(1, Dec.mkDec 1111111111111111111111111111 (-27))])] b = true).
Proof.
  apply (built_graph_shape [mkRate 1 2 (Dec.mkDec 9 (-1)) 0 true]
           [(1, [(2, Dec.mkDec 9 (-1))]);
            (2, [(1, Dec.mkDec 1111111111111111111111111111 (-27))])]).
  vm_compute. reflexivity.
Defined.

Section Symmetric.
Variable graph : Graph.
Hypothesis graph_sym :
  ∀ a b, is_Some (edge_weight graph a b) → is_Some (edge_weight graph b a).

Lemma reach_cons s u n v :
  is_Some (edge_weight graph s u) → reach graph u n v → reach graph s (S n) v.
Proof.
  intros He. induction 1 as [|n x y Hr IH Hxy].
  - econstructor; [constructor|done].
  - econstructor; [exact IH|done].
Qed.

Lemma reach_sym a n b : reach graph a n b → reach graph b n a.
Proof.
  induction 1 as [|n u v Hr IH He]; [constructor|].
  eapply reach_cons; [by apply graph_sym|done].
Qed.

End Symmetric.

(** X10. In a graph built from rates the search is symmetric: it finds a path from
    a to b exactly when it finds one from b to a, and the two paths have the
    same number of nodes. *)
Theorem built_graph_search_symmetric rates graph a b p r :
  _build_currency_graph rates = Ok graph →
  _find_conversion_path graph a b = Some (Some (p, r)) →
  ∃ p' r', _find_conversion_path graph b a = Some (Some (p', r')) ∧
           length p' = length p.
Proof.
  intros Hb Hfind.
  destruct (built_graph_shape_holds _ _ Hb) as (_ & _ & Hsym).
  assert (Hsym' : ∀ x y, is_Some (edge_weight graph x y) → is_Some (edge_weight graph y x))
    by (intros x y Hxy; by apply Hsym).
  assert (Hfa : dict_mem graph a = true ∧ dict_mem graph b = true).
  { unfold _find_conversion_path in Hfind.
    destruct (dict_mem graph a), (dict_mem graph b); simpl in Hfind; done. }
  destruct Hfa as [Hfa Hfb].
  destruct (find_conversion_path_spec graph a b Hfa Hfb) as (res & Hres & Hspec).
  rewrite Hfind in Hres. injection Hres as <-. destruct Hspec as [Hp Hmin].
  apply path_to_sound in Hp as (Hpath & _ & Hreach).
  destruct (find_conversion_path_spec graph b a Hfb Hfa) as (res' & Hres' & Hspec').
  destruct res' as [[p' r']|].
  - exists p', r'. split; [done|]. destruct Hspec' as [Hp' Hmin'].
    apply path_to_sound in Hp' as (Hpath' & _ & Hreach').
    pose proof (Hmin' _ (reach_sym graph Hsym' _ _ _ Hreach)) as H1.
    pose proof (Hmin _ (reach_sym graph Hsym' _ _ _ Hreach')) as H2.
    destruct Hpath' as (rest' & -> & _).
    destruct Hpath as (rest & -> & _).
    simpl in *. lia.
  - exfalso. eapply Hspec'. apply (reach_sym graph Hsym'). exact Hreach.
Qed.

Lemma built_graph_search_symmetric_witness :
  ∃ p' r', _find_conversion_path
             [(1, [(2, Dec.mkDec 9 (-1))]);
              (2, [(1, Dec.mkDec 1111111111111111111111111111 (-27));
                   (3, Dec.mkDec 8 (-1))]);
              (3, [(2, Dec.mkDec 125 (-2))])] 3 1 = Some (Some (p', r')) ∧
           length p' = length [1; 2; 3].
Proof.
  apply (built_graph_search_symmetric usd_eur_gbp _ 1 3 [1; 2; 3] (Dec.mkDec 72 (-2))).
  - vm_compute. reflexivity.
  - vm_compute. reflexivity.
Defined.

Lemma expand_simple items path current_rate queue visited queue' visited' :
  queue_simple queue visited →
  (NoDup path ∧ ∀ x, x ∈ path → x ∈ visited) →
  expand items path current_rate queue visited = (queue', visited') →
  queue_simple queue' visited'.
Proof.
  intros Hq Hpath Hexp.
  destruct (expand_spec items path current_rate queue visited) as (news & Heq & Hnews & _).
  rewrite Hexp in Heq. injection Heq as -> ->.
  intros v p r Hin. apply elem_of_app in Hin as [Hin|Hin].
  - destruct (Hq v p r Hin) as [Hnd Hvis]. split; [done|].
    intros x Hx. apply elem_of_union_r. by apply Hvis.
  - destruct (Hnews _ Hin) as (w & wt & [= -> -> ->] & _ & Hw).
    destruct Hpath as [Hnd Hvis]. split.
    + apply NoDup_app. split; [done|]. split; [|apply NoDup_singleton].
      intros x Hx Hxw. apply list_elem_of_singleton in Hxw as ->. by apply Hw, Hvis.
    + intros x Hx. apply elem_of_app in Hx as [Hx|Hx].
      * apply elem_of_union_r. by apply Hvis.
      * apply list_elem_of_singleton in Hx as ->. apply elem_of_union_l.
        apply elem_of_list_to_set, list_elem_of_fmap. by exists (w, path ++ [w], Dec.mul current_rate wt).
Qed.

Lemma bfs_loop_simple fuel graph to_id queue visited p r :
  queue_simple queue visited →
  bfs_loop fuel graph to_id queue visited = Some (Some (p, r)) → NoDup p.
Proof.
  revert queue visited. induction fuel as [|fuel IH]; intros queue visited Hq;
    destruct queue as [|[[u pu] ru] rest]; simpl; try done.
  - destruct (u =? to_id); [|done]. intros [= <- <-].
    apply (Hq u pu ru). apply list_elem_of_here.
  - destruct (u =? to_id).
    + intros [= <- <-]. apply (Hq u pu ru). apply list_elem_of_here.
    + destruct (expand (graph_get graph u) pu ru rest visited) as [q' v'] eqn:Hexp.
      apply IH. eapply expand_simple; [| |exact Hexp].
      * intros v p' r' Hin. apply (Hq v p' r'). by apply list_elem_of_further.
      * apply (Hq u pu ru). apply list_elem_of_here.
Qed.

Lemma found_path_simple_holds :
  (∀ graph from_id to_id p r,
     _find_conversion_path graph from_id to_id = Some (Some (p, r)) →
     NoDup p ∧ head p = Some from_id ∧ last p = Some to_id) ∧
  (∀ graph from_id,
     dict_mem graph from_id = true →
     _find_conversion_path graph from_id from_id = Some (Some ([from_id], Dec.one))).
Proof.
  split.
  - intros graph a b p r Hfind.
    assert (Hfa : dict_mem graph a = true ∧ dict_mem graph b = true).
    { unfold _find_conversion_path in Hfind.
      destruct (dict_mem graph a), (dict_mem graph b); simpl in Hfind; done. }
    destruct Hfa as [Hfa Hfb]. split.
    + unfold _find_conversion_path in Hfind. rewrite Hfa, Hfb in Hfind.
      change (negb true || negb true) with false in Hfind. cbv iota in Hfind.
      eapply bfs_loop_simple; [|exact Hfind].
      intros v p' r' Hin. apply list_elem_of_singleton in Hin as [= -> -> ->].
      split; [apply NoDup_singleton|]. intros x Hx.
      apply list_elem_of_singleton in Hx as ->. set_solver.
    + destruct (find_conversion_path_spec graph a b Hfa Hfb) as (res & Hres & Hspec).
      rewrite Hfind in Hres. injection Hres as <-. destruct Hspec as [Hp _].
      apply path_to_sound in Hp as ((rest & -> & _ & Hl) & _). done.
  - intros graph a Ha. unfold _find_conversion_path. rewrite Ha.
    change (negb true || negb true) with false. cbv iota.
    unfold bfs_loop. destruct (bfs_fuel graph); by rewrite Z.eqb_refl.
Qed.

(** X11. A path the search returns visits no currency twice, starts at the source
    and ends at the target; the search from a key of the graph to itself
    returns the one-node path with rate 1. *)
Theorem found_path_simple :
  (∀ graph from_id to_id p r,
     _find_conversion_path graph from_id to_id = Some (Some (p, r)) →
     NoDup p ∧ head p = Some from_id ∧ last p = Some to_id) ∧
  (∀ graph from_id,
     dict_mem graph from_id = true →
     _find_conversion_path graph from_id from_id = Some (Some ([from_id], Dec.one))).
Proof. apply found_path_simple_holds. Qed.

Lemma found_path_simple_witness :
  NoDup [1; 2; 3] ∧ head [1; 2; 3] = Some 1 ∧ last [1; 2; 3] = Some 3.
Proof.
  apply (proj1 found_path_simple
           [(1, [(2, Dec.mkDec 9 (-1))]); (2, [(3, Dec.mkDec 8 (-1))]); (3, [])]
           1 3 [1; 2; 3] (Dec.mkDec 72 (-2))).
  vm_compute. reflexivity.
Defined.

(** ** The fetch loop, continued *)

Section FetchLoopFacts.
Variable backend : Backend.
Variable clock : nat → Z.
Variable service : ExchangeRateService.

(** what a row of the table can become in one iteration *)
Lemma process_tuple_rows inv st a b x st' :
  process_tuple backend clock inv service st (a, b, x) = Ok st' →
  (∀ k r, rows st !! k = Some r →
     ∃ r', rows st' !! k = Some r' ∧
           from_currency_id r' = from_currency_id r ∧
           to_currency_id r' = to_currency_id r ∧
           (automatic r = false → r' = r)) ∧
  (∀ k r', rows st' !! k = Some r' →
     rows st !! k = Some r' ∨
     (automatic r' = true ∧
      (from_currency_id r', to_currency_id r') = resolved inv a b ∧
      stored_rate backend x = Ok (rate r') ∧ date r' = clock (clock_reads st))).
Proof.
  intros Hstep.
  apply process_tuple_cases in Hstep
    as [->|(k & f & t & stored & Hft & Hstored & Hst & _ & Hcase)].
  - split; [intros k r Hk; by exists r|intros k r' Hk; by left].
  - subst st'. simpl. split.
    + intros k' r Hk'. destruct (decide (k = k')) as [<-|Hne].
      * rewrite lookup_insert_eq. eexists. split; [done|].
        destruct Hcase as [[Hnone _]|[_ (old & Hl)]]; [congruence|].
        apply latest_automatic_Some in Hl as (Hk & (Hauto & Hf & Ht) & _).
        rewrite Hk in Hk'. injection Hk' as <-. simpl. split; [done|]. split; [done|].
        congruence.
      * rewrite lookup_insert_ne by done. by exists r.
    + intros k' r' Hk'. destruct (decide (k = k')) as [<-|Hne].
      * rewrite lookup_insert_eq in Hk'. injection Hk' as <-. right. simpl.
        split; [done|]. split; [done|done].
      * rewrite lookup_insert_ne in Hk' by done. by left.
Qed.

(** X14. Whatever the batch and however it ends, the loop deletes no row, moves no
    row to another currency pair and leaves manually entered rows exactly as
    they are; every row it adds or changes is automatic, belongs to the
    stored pair of some tuple of the batch, holds that tuple's rate as the
    rate column stores it (at 30 decimal places) and is dated by a reading
    of the clock. *)
Theorem fetch_loop_preserves_rows inv st rates st' err :
  fetch_loop backend clock inv service st rates = (st', err) →
  (∀ k r, rows st !! k = Some r →
     ∃ r', rows st' !! k = Some r' ∧
           from_currency_id r' = from_currency_id r ∧
           to_currency_id r' = to_currency_id r ∧
           (automatic r = false → r' = r)) ∧
  (∀ k r', rows st' !! k = Some r' →
     rows st !! k = Some r' ∨
     (automatic r' = true ∧
      ∃ a b x i, (a, b, x) ∈ rates ∧
        (from_currency_id r', to_currency_id r') = resolved inv a b ∧
        stored_rate backend x = Ok (rate r') ∧ to_30_places x (rate r') ∧
        date r' = clock i)).
Proof.
  revert st. induction rates as [|[[a b] x] rates IH]; intros st; cbn [fetch_loop].
  - intros [= <- <-]. split; [intros k r Hk; by exists r|intros k r' Hk; by left].
  - destruct (process_tuple backend clock inv service st (a, b, x)) as [st1|e] eqn:Hstep.
    + intros Hloop. destruct (IH _ Hloop) as [Hkeep Hnew].
      destruct (process_tuple_rows _ _ _ _ _ _ Hstep) as [Hkeep1 Hnew1]. split.
      * intros k r Hk. destruct (Hkeep1 k r Hk) as (r1 & Hk1 & Hf1 & Ht1 & Hm1).
        destruct (Hkeep k r1 Hk1) as (r' & Hk' & Hf' & Ht' & Hm').
        exists r'. split; [done|]. split; [congruence|]. split; [congruence|].
        intros Hman. rewrite <- (Hm1 Hman). apply Hm'. by rewrite (Hm1 Hman).
      * intros k r' Hk'. destruct (Hnew k r' Hk') as [Hk1|(Hauto & a' & b' & x' & i & Hin & ?)].
        -- destruct (Hnew1 k r' Hk1) as [?|(Hauto & Hpair & Hrate & Hdate)]; [by left|].
           right. split; [done|]. exists a, b, x, (clock_reads st).
           split; [apply list_elem_of_here|]. split; [done|]. split; [done|].
           split; [by eapply stored_rate_places|done].
        -- right. split; [done|]. exists a', b', x', i.
           split; [by apply list_elem_of_further|done].
    + intros [= <- <-]. split; [intros k r Hk; by exists r|intros k r' Hk; by left].
Qed.

End FetchLoopFacts.

Lemma fetch_loop_preserves_rows_witness :
  ∃ r', rows (fetch_loop postgresql sample_clock true singleton_service (mkState sample_table ∅ 0)
                [(1, 2, Dec.mkDec 9 (-1))]).1 !! 8 = Some r' ∧
        from_currency_id r' = 2 ∧ to_currency_id r' = 1 ∧
        (false = false → r' = mkRate 2 1 (Dec.mkDec 6 (-1)) 950 false).
Proof.
  apply (proj1 (fetch_loop_preserves_rows postgresql sample_clock singleton_service true
                  (mkState sample_table ∅ 0) [(1, 2, Dec.mkDec 9 (-1))] _ _
                  ltac:(apply surjective_pairing)) 8
               (mkRate 2 1 (Dec.mkDec 6 (-1)) 950 false)).
  vm_compute. reflexivity.
Defined.

Lemma count_auto_insert_same (rows : Table) k f t old r f' t' :
  rows !! k = Some old → automatic_pair f t old → automatic_pair f t r →
  count_auto (<[k := r]> rows) f' t' = count_auto rows f' t'.
Proof.
  intros Hk Hold Hr. unfold count_auto.
  destruct (decide (f' = f ∧ t' = t)) as [[-> ->]|Hne].
  - rewrite map_filter_insert_True by done.
    apply map_size_insert_Some. exists old. by apply map_lookup_filter_Some_2.
  - rewrite map_filter_insert_not'; [done| |].
    + unfold automatic_pair in *. simpl. naive_solver.
    + intros y Hy. rewrite Hk in Hy. injection Hy as <-.
      unfold automatic_pair in *. simpl. naive_solver.
Qed.

Lemma count_auto_insert_new (rows : Table) k f t r f' t' :
  rows !! k = None → automatic_pair f t r →
  count_auto (<[k := r]> rows) f' t' =
    if decide (f' = f ∧ t' = t) then S (count_auto rows f' t') else count_auto rows f' t'.
Proof.
  intros Hk Hr. unfold count_auto. case_decide as Hd.
  - destruct Hd as [-> ->]. rewrite map_filter_insert_True by done.
    apply map_size_insert_None. by apply map_lookup_filter_None_2; left.
  - rewrite map_filter_insert_not'; [done| |].
    + unfold automatic_pair in *. simpl. naive_solver.
    + intros y Hy. congruence.
Qed.

Lemma count_auto_none (rows : Table) f t :
  latest_automatic rows f t = None → count_auto rows f t = 0%nat.
Proof.
  intros Hl. unfold count_auto.
  assert (filter (λ kr : Z * ExchangeRate, automatic_pair f t kr.2) rows = ∅) as ->.
  { apply map_empty. intros k. apply map_lookup_filter_None_2.
    destruct (rows !! k) as [r|] eqn:Hk; [right|by left].
    intros y [= <-]. simpl. by eapply latest_automatic_None. }
  apply map_size_empty.
Qed.

(** X15. A singleton service never grows the automatic rows of a pair beyond one:
    for every pair, after the loop there are no more automatic rows than
    before, or at most one where there was none. This holds for inverted
    providers too, and however the loop ends. *)
Theorem singleton_keeps_one_automatic_row backend clock service inv st rates st' err f t :
  singleton service = true →
  fetch_loop backend clock inv service st rates = (st', err) →
  (count_auto (rows st') f t ≤ Nat.max 1 (count_auto (rows st) f t))%nat.
Proof.
  intros Hsing. revert st. induction rates as [|[[a b] x] rates IH]; intros st;
    cbn [fetch_loop].
  - intros [= <- <-]. lia.
  - destruct (process_tuple backend clock inv service st (a, b, x)) as [st1|e] eqn:Hstep.
    + intros Hloop. specialize (IH _ Hloop).
      apply process_tuple_cases in Hstep
        as [->|(k & f0 & t0 & stored & _ & _ & -> & _ & [[Hk [?|Hnone]]|[_ (old & Hl)]])];
        [done|congruence| |].
      * simpl in IH. rewrite (count_auto_insert_new _ _ f0 t0) in IH by done.
        case_decide as Hd; [|done]. destruct Hd as [-> ->].
        rewrite (count_auto_none _ _ _ Hnone) in *. lia.
      * simpl in IH. apply latest_automatic_Some in Hl as (Hk & Hold & _).
        by rewrite (count_auto_insert_same _ _ f0 t0 old) in IH.
    + intros [= <- <-]. lia.
Qed.

Lemma singleton_keeps_one_automatic_row_witness :
  Nat.le
    (count_auto (rows (fetch_loop postgresql sample_clock true singleton_service
                         (mkState sample_table ∅ 0)
                         [(1, 2, Dec.mkDec 9 (-1)); (1, 2, Dec.mkDec 8 (-1))]).1) 2 1)
    (Nat.max 1 (count_auto sample_table 2 1)).
Proof.
  apply (singleton_keeps_one_automatic_row postgresql sample_clock singleton_service true
           (mkState sample_table ∅ 0)
           [(1, 2, Dec.mkDec 9 (-1)); (1, 2, Dec.mkDec 8 (-1))] _ _ 2 1 eq_refl
           ltac:(apply surjective_pairing)).
Defined.

Lemma clock_ahead_free clock st f t :
  clock_ahead clock st → ¬ conflicts (rows st) None f t (clock (clock_reads st)).
Proof.
  intros Hahead (k & r & Hk & _ & _ & _ & Hd). specialize (Hahead k r Hk). lia.
Qed.

Lemma clock_ahead_step backend clock service inv st a b x :
  (∀ i j, (i < j)%nat → clock i < clock j) →
  clock_ahead clock st →
  fits_column x →
  ∃ st', process_tuple backend clock inv service st (a, b, x) = Ok st' ∧
         clock_ahead clock st' ∧
         (clock_reads st ≤ clock_reads st' ≤ S (clock_reads st))%nat.
Proof.
  intros Hmono Hahead Hfits.
  destruct (decide ((a, b) ∈ processed_pairs st)) as [Hin|Hnin].
  - exists st. rewrite process_tuple_skip by done. split; [done|]. split; [done|lia].
  - apply (stored_rate_fits backend) in Hfits as [stored Hstored].
    destruct (process_tuple_spec backend clock service inv st a b x stored Hnin Hstored
                (clock_ahead_free _ _ _ _ Hahead)) as (k & -> & _).
    eexists. split; [done|]. simpl. split; [|lia].
    intros k' r Hk'. simpl in *.
    assert (clock (clock_reads st) < clock (S (clock_reads st))) by (apply Hmono; lia).
    destruct (decide (k = k')) as [<-|Hne].
    + rewrite lookup_insert_eq in Hk'. injection Hk' as <-. done.
    + rewrite lookup_insert_ne in Hk' by done. specialize (Hahead _ _ Hk'). lia.
Qed.

Lemma fetch_loop_completes backend clock service inv st rates :
  (∀ i j, (i < j)%nat → clock i < clock j) →
  clock_ahead clock st →
  batch_fits rates →
  ∃ st', fetch_loop backend clock inv service st rates = (st', None) ∧
         clock_ahead clock st' ∧
         (clock_reads st' ≤ clock_reads st + length rates)%nat.
Proof.
  intros Hmono. revert st. induction rates as [|[[a b] x] rates IH]; intros st Hahead Hfit;
    cbn [fetch_loop].
  - exists st. split; [done|]. split; [done|lia].
  - apply Forall_cons in Hfit as [Hx Hfit].
    destruct (clock_ahead_step backend clock service inv st a b x Hmono Hahead Hx)
      as (st1 & -> & Hahead1 & Hreads).
    destruct (IH st1 Hahead1 Hfit) as (st' & -> & Hahead' & Hreads').
    exists st'. split; [done|]. split; [done|]. simpl. lia.
Qed.

Lemma batch_completes_with_running_clock_holds backend clock service inv table rates :
  (∀ i j, (i < j)%nat → clock i < clock j) →
  (∀ k r, table !! k = Some r → date r < clock 0%nat) →
  batch_fits rates →
  ∃ n, (n ≤ length rates)%nat ∧
       last_fetch (_fetch_service_rates backend clock inv service table rates).2
         = Some (clock n) ∧
       ∀ k r, (_fetch_service_rates backend clock inv service table rates).1 !! k = Some r →
              date r < clock n.
Proof.
  intros Hmono Htable Hfit.
  destruct (fetch_loop_completes backend clock service inv (mkState table ∅ 0) rates Hmono)
    as (st' & Hloop & Hahead & Hreads); [done|done|].
  unfold _fetch_service_rates. rewrite Hloop. simpl in *.
  exists (clock_reads st'). split; [lia|]. split; [done|]. exact Hahead.
Qed.

(** X17. With a clock that runs forward and is ahead of every stored date,
    and a batch whose rates all fit the rate column, no write of the loop is
    refused: the batch completes, [last_fetch] is set to a reading of the
    clock, at most one reading per tuple is used, and every row of the table
    is dated before [last_fetch]. *)
Theorem batch_completes_with_running_clock backend clock service inv table rates :
  (∀ i j, (i < j)%nat → clock i < clock j) →
  (∀ k r, table !! k = Some r → date r < clock 0%nat) →
  batch_fits rates →
  ∃ n, (n ≤ length rates)%nat ∧
       last_fetch (_fetch_service_rates backend clock inv service table rates).2
         = Some (clock n) ∧
       ∀ k r, (_fetch_service_rates backend clock inv service table rates).1 !! k = Some r →
              date r < clock n.
Proof. apply batch_completes_with_running_clock_holds. Qed.

Lemma sample_clock_mono i j : (i < j)%nat → sample_clock i < sample_clock j.
Proof. unfold sample_clock. lia. Qed.

Lemma sample_table_dates k r : sample_table !! k = Some r → date r < sample_clock 0.
Proof.
  unfold sample_table. intros Hk.
  destruct (decide (k = 7)) as [->|H7]; [vm_compute in Hk; injection Hk as <-; done|].
  destruct (decide (k = 8)) as [->|H8]; [vm_compute in Hk; injection Hk as <-; done|].
  rewrite lookup_insert_ne, lookup_singleton_ne in Hk by done. done.
Qed.

Lemma batch_completes_with_running_clock_witness :
  ∃ n, (n ≤ 2)%nat ∧
       last_fetch (_fetch_service_rates postgresql sample_clock true series_service sample_table
                     [(1, 2, Dec.mkDec 9 (-1)); (3, 2, Dec.mkDec 8 (-1))]).2
         = Some (sample_clock n) ∧
       ∀ k r, (_fetch_service_rates postgresql sample_clock true series_service sample_table
                 [(1, 2, Dec.mkDec 9 (-1)); (3, 2, Dec.mkDec 8 (-1))]).1 !! k = Some r →
              date r < sample_clock n.
Proof.
  apply (batch_completes_with_running_clock postgresql sample_clock series_service true
           sample_table [(1, 2, Dec.mkDec 9 (-1)); (3, 2, Dec.mkDec 8 (-1))]
           sample_clock_mono sample_table_dates).
  repeat constructor.
Defined.

Lemma count_pair_insert_fresh (rows : Table) k r f t :
  rows !! k = None →
  count_pair (<[k := r]> rows) f t =
    if decide (from_currency_id r = f ∧ to_currency_id r = t)
    then S (count_pair rows f t) else count_pair rows f t.
Proof.
  intros Hk. unfold count_pair. case_decide as Hd.
  - rewrite map_filter_insert_True by done.
    apply map_size_insert_None. by apply map_lookup_filter_None_2; left.
  - rewrite map_filter_insert_not'; [done|done|].
    intros y Hy. congruence.
Qed.

Lemma fetch_loop_series_size backend clock service st rates :
  singleton service = false →
  (∀ i j, (i < j)%nat → clock i < clock j) →
  clock_ahead clock st →
  batch_fits rates →
  ∃ st', fetch_loop backend clock false service st rates = (st', None) ∧
         (∀ f t, count_pair (rows st') f t =
            (count_pair (rows st) f t +
             (if decide ((f, t) ∈ batch_pairs rates ∖ processed_pairs st) then 1 else 0))%nat) ∧
         size (rows st') =
           (size (rows st) + size (batch_pairs rates ∖ processed_pairs st))%nat.
Proof.
  intros Hsing Hmono. revert st.
  induction rates as [|[[a b] x] rates IH]; intros st Hahead Hfit; cbn [fetch_loop].
  - exists st. split; [done|]. unfold batch_pairs. simpl.
    replace ((∅ : gset (Z * Z)) ∖ processed_pairs st) with (∅ : gset (Z * Z)) by set_solver.
    split.
    + intros f t. rewrite decide_False by set_solver. lia.
    + rewrite size_empty. lia.
  - apply Forall_cons in Hfit as [Hx Hfit].
    destruct (decide ((a, b) ∈ processed_pairs st)) as [Hin|Hnin].
    + rewrite process_tuple_skip by done.
      destruct (IH st Hahead Hfit) as (st' & -> & Hcount & Hsize). exists st'.
      split; [done|].
      assert (Heq : batch_pairs ((a, b, x) :: rates) ∖ processed_pairs st =
                    batch_pairs rates ∖ processed_pairs st).
      { unfold batch_pairs. simpl. set_solver. }
      rewrite Heq. done.
    + pose proof Hx as Hx'. apply (stored_rate_fits backend) in Hx' as [stored Hstored].
      destruct (process_tuple_spec backend clock service false st a b x stored Hnin Hstored
                  (clock_ahead_free _ _ _ _ Hahead)) as (k & Hstep & [[Hs _]|[Hk _]]);
        [congruence|].
      destruct (clock_ahead_step backend clock service false st a b x Hmono Hahead Hx)
        as (st1 & Hstep1 & Hahead1 & _).
      rewrite Hstep in Hstep1. injection Hstep1 as <-. rewrite Hstep.
      destruct (IH _ Hahead1 Hfit) as (st' & Hloop & Hcount & Hsize).
      exists st'. split; [exact Hloop|].
      cbn [rows processed_pairs resolved fst snd] in Hcount, Hsize.
      assert (Heq : batch_pairs ((a, b, x) :: rates) ∖ processed_pairs st =
                    ({[(a, b)]} ∪
                     (batch_pairs rates ∖ ({[(a, b)]} ∪ processed_pairs st))
                     : gset (Z * Z))).
      { unfold batch_pairs. cbn [map fst]. rewrite list_to_set_cons.
        apply set_eq. intros p.
        destruct (decide (p = (a, b))) as [->|?]; set_solver. }
      rewrite Heq. split.
      * intros f t. rewrite Hcount.
        rewrite (count_pair_insert_fresh (rows st) k _ f t Hk). cbn [from_currency_id to_currency_id].
        destruct (decide (a = f ∧ b = t)) as [[-> ->]|Hne].
        -- rewrite (decide_False (P := (f, t) ∈ _ ∖ _)) by set_solver.
           rewrite (decide_True (P := (f, t) ∈ _ ∪ _)) by set_solver. lia.
        -- destruct (decide ((f, t) ∈ batch_pairs rates ∖ ({[(a, b)]} ∪ processed_pairs st)))
             as [Hin'|Hnin'].
           ++ rewrite decide_True by set_solver. done.
           ++ rewrite decide_False; [done|].
              intros [Hab|?]%elem_of_union; [|done].
              apply elem_of_singleton in Hab. injection Hab as -> ->. by apply Hne.
      * rewrite Hsize. rewrite map_size_insert_None by done.
        set (rest := batch_pairs rates ∖ ({[(a, b)]} ∪ processed_pairs st)).
        assert (Hu : size (({[(a, b)]} : gset (Z * Z)) ∪ rest) =
                     Nat.add (size ({[(a, b)]} : gset (Z * Z))) (size rest)).
        { apply size_union. subst rest. set_solver. }
        rewrite Hu, size_singleton. lia.
Qed.

(** X16. A time-series service (not singleton) fed by a provider that is not
    inverted adds exactly one row for each distinct pair of the batch and
    none for any other pair, whatever the number of tuples: the rows of a
    pair grow by one if the pair occurs in the batch and stay as many
    otherwise. This holds when the clock runs forward and is ahead of every
    stored date and every rate of the batch fits the rate column. *)
Theorem series_adds_one_row_per_pair backend clock service table rates :
  singleton service = false →
  (∀ i j, (i < j)%nat → clock i < clock j) →
  (∀ k r, table !! k = Some r → date r < clock 0%nat) →
  batch_fits rates →
  (∀ f t,
     count_pair (_fetch_service_rates backend clock false service table rates).1 f t =
       (count_pair table f t +
        (if decide ((f, t) ∈ batch_pairs rates) then 1 else 0))%nat) ∧
  size (_fetch_service_rates backend clock false service table rates).1 =
    (size table + size (batch_pairs rates))%nat.
Proof.
  intros Hsing Hmono Htable Hfit.
  destruct (fetch_loop_series_size backend clock service (mkState table ∅ 0) rates
              Hsing Hmono) as (st' & Hloop & Hcount & Hsize); [done|done|].
  unfold _fetch_service_rates. rewrite Hloop. simpl in *.
  replace (batch_pairs rates ∖ (∅ : gset (Z * Z))) with (batch_pairs rates) in *
    by set_solver.
  done.
Qed.

Lemma series_adds_one_row_per_pair_witness :
  (∀ f t,
     count_pair (_fetch_service_rates postgresql sample_clock false series_service sample_table
                   [(1, 2, Dec.mkDec 9 (-1)); (3, 2, Dec.mkDec 8 (-1));
                    (1, 2, Dec.mkDec 7 (-1))]).1 f t =
       Nat.add (count_pair sample_table f t)
         (if decide ((f, t) ∈ batch_pairs
                        [(1, 2, Dec.mkDec 9 (-1)); (3, 2, Dec.mkDec 8 (-1));
                         (1, 2, Dec.mkDec 7 (-1))]) then 1%nat else 0%nat)) ∧
  size (_fetch_service_rates postgresql sample_clock false series_service sample_table
          [(1, 2, Dec.mkDec 9 (-1)); (3, 2, Dec.mkDec 8 (-1)); (1, 2, Dec.mkDec 7 (-1))]).1 =
    Nat.add (size sample_table)
      (size (batch_pairs
               [(1, 2, Dec.mkDec 9 (-1)); (3, 2, Dec.mkDec 8 (-1)); (1, 2, Dec.mkDec 7 (-1))])).
Proof.
  apply (series_adds_one_row_per_pair postgresql sample_clock series_service sample_table
           [(1, 2, Dec.mkDec 9 (-1)); (3, 2, Dec.mkDec 8 (-1)); (1, 2, Dec.mkDec 7 (-1))]
           eq_refl sample_clock_mono sample_table_dates).
  repeat constructor.
Defined.

(** X22. A tuple that the loop does not skip and whose rate does not fit the
    rate column stops the batch: its write raises, the rows written for the
    tuples before it stay, nothing is written for it or for the tuples after
    it, and [last_fetch] is not updated. *)
Theorem unstorable_rate_stops_batch backend clock service inv table rates1 a b x rates2 st1 :
  fetch_loop backend clock inv service (mkState table ∅ 0) rates1 = (st1, None) →
  (a, b) ∉ processed_pairs st1 →
  ¬ fits_column x →
  _fetch_service_rates backend clock inv service table (rates1 ++ (a, b, x) :: rates2) =
    (rows st1, service).
Proof.
  intros Hloop Hkey Hfit.
  unfold _fetch_service_rates. rewrite fetch_loop_app, Hloop. cbn [fetch_loop].
  destruct (stored_rate backend x) as [stored|e] eqn:Hs.
  - exfalso. apply Hfit. apply (stored_rate_fits backend). by exists stored.
  - by rewrite (process_tuple_rejected backend clock service inv st1 a b x e Hkey Hs).
Qed.

Lemma unstorable_rate_stops_batch_witness :
  _fetch_service_rates postgresql sample_clock true series_service sample_table
    ([(3, 4, Dec.mkDec 8 (-1))] ++ (1, 2, Dec.mkDec 1 13) :: [(5, 6, Dec.mkDec 7 (-1))]) =
    (<[9 := mkRate 4 3 (Dec.mkDec 800000000000000000000000000000 (-30)) 1000 true]>
       sample_table,
     series_service).
Proof.
  refine (unstorable_rate_stops_batch postgresql sample_clock series_service true sample_table
            [(3, 4, Dec.mkDec 8 (-1))] 1 2 (Dec.mkDec 1 13) [(5, 6, Dec.mkDec 7 (-1))]
            (mkState
               (<[9 := mkRate 4 3 (Dec.mkDec 800000000000000000000000000000 (-30)) 1000 true]>
                  sample_table)
               {[(4, 3)]} 1) _ _ _).
  - vm_compute. reflexivity.
  - apply (proj1 (bool_decide_eq_false _)). vm_compute. reflexivity.
  - vm_compute. discriminate.
Defined.

(** ** Decimal arithmetic: results that are not zero *)

Lemma ndigits_fuel_pos fuel n : 1 ≤ Dec.ndigits_fuel fuel n.
Proof.
  revert n. induction fuel as [|fuel IH]; intros n; simpl; [lia|].
  destruct (n <? 10); [lia|]. specialize (IH (n / 10)). lia.
Qed.

Lemma ndigits_fuel_lower fuel n :
  1 ≤ n → 10 ^ (Dec.ndigits_fuel fuel n - 1) ≤ n.
Proof.
  revert n. induction fuel as [|fuel IH]; intros n Hn; simpl; [lia|].
  destruct (Z.ltb_spec n 10); [simpl; lia|].
  replace (1 + Dec.ndigits_fuel fuel (n / 10) - 1)
    with (Z.succ (Dec.ndigits_fuel fuel (n / 10) - 1)) by lia.
  pose proof (ndigits_fuel_pos fuel (n / 10)).
  rewrite Z.pow_succ_r by lia.
  assert (1 ≤ n / 10) by (apply Z.div_le_lower_bound; lia).
  specialize (IH (n / 10) ltac:(done)).
  pose proof (Z.mul_div_le n 10 ltac:(lia)). lia.
Qed.

Lemma ndigits_fuel_upper fuel n :
  0 ≤ n < 10 ^ (Z.of_nat fuel + 1) → n < 10 ^ Dec.ndigits_fuel fuel n.
Proof.
  revert n. induction fuel as [|fuel IH]; intros n Hn.
  - simpl in *. lia.
  - cbn [Dec.ndigits_fuel]. destruct (Z.ltb_spec n 10); [simpl; lia|].
    pose proof (ndigits_fuel_pos fuel (n / 10)).
    replace (1 + Dec.ndigits_fuel fuel (n / 10))
      with (Z.succ (Dec.ndigits_fuel fuel (n / 10))) by lia.
    rewrite Z.pow_succ_r by lia.
    assert (n / 10 < 10 ^ (Z.of_nat fuel + 1)).
    { apply Z.div_lt_upper_bound; [lia|].
      replace (Z.of_nat (S fuel) + 1) with (Z.succ (Z.of_nat fuel + 1)) in Hn by lia.
      rewrite Z.pow_succ_r in Hn by lia. lia. }
    specialize (IH (n / 10) ltac:(split; [apply Z.div_pos; lia|done])).
    pose proof (Z.div_mod n 10 ltac:(lia)). pose proof (Z.mod_pos_bound n 10 ltac:(lia)).
    lia.
Qed.

Lemma ndigits_upper n : 0 ≤ n → n < 10 ^ Dec.ndigits n.
Proof.
  intros Hn. unfold Dec.ndigits. apply ndigits_fuel_upper. split; [done|].
  rewrite Z2Nat.id by apply Z.log2_nonneg.
  destruct (Z.eq_dec n 0) as [->|Hne]; [simpl; lia|].
  pose proof (Z.log2_spec n ltac:(lia)) as [_ Hlt].
  replace (Z.succ (Z.log2 n)) with (Z.log2 n + 1) in Hlt by lia.
  eapply Z.lt_le_trans; [exact Hlt|].
  apply Z.pow_le_mono_l. pose proof (Z.log2_nonneg n). lia.
Qed.

Lemma ndigits_lower n : 1 ≤ n → 10 ^ (Dec.ndigits n - 1) ≤ n.
Proof. apply ndigits_fuel_lower. Qed.

Lemma ndigits_pos n : 1 ≤ Dec.ndigits n.
Proof. apply ndigits_fuel_pos. Qed.

(** rounding to the precision of the context keeps a nonzero number nonzero *)
Lemma fix_nonzero d : Dec.is_zero d = false → Dec.is_zero (Dec.fix_ d) = false.
Proof.
  unfold Dec.is_zero. intros Hd. apply Z.eqb_neq in Hd. apply Z.eqb_neq.
  unfold Dec.fix_.
  set (c := Z.abs (Dec.coef d)). assert (Hc : 1 ≤ c) by (subst c; lia).
  destruct (Z.leb_spec (Dec.ndigits c) Dec.prec) as [|Hbig]; [done|].
  set (drop := Dec.ndigits c - Dec.prec) in *.
  assert (Hdrop : 0 < drop) by (subst drop; lia).
  assert (Hq : 1 ≤ c / 10 ^ drop).
  { apply Z.div_le_lower_bound; [apply Z.pow_pos_nonneg; lia|].
    pose proof (ndigits_lower c Hc) as Hl.
    eapply Z.le_trans; [|exact Hl]. rewrite Z.mul_1_r.
    apply Z.pow_le_mono_r; [lia|]. subst drop. unfold Dec.prec. lia. }
  set (q' := if (10 ^ drop <? 2 * (c mod 10 ^ drop))
                || (2 * (c mod 10 ^ drop) =? 10 ^ drop) && Z.odd (c / 10 ^ drop)
             then c / 10 ^ drop + 1 else c / 10 ^ drop).
  assert (Hq' : 1 ≤ q') by (subst q'; destruct (_ || _); lia).
  destruct (Z.gtb_spec (Dec.ndigits q') Dec.prec) as [Hover|_]; simpl.
  - assert (10 ≤ q').
    { pose proof (ndigits_lower q' Hq') as Hl.
      eapply Z.le_trans; [|exact Hl].
      change 10 with (10 ^ 1) at 1. apply Z.pow_le_mono_r; [lia|].
      unfold Dec.prec in Hover. lia. }
    assert (1 ≤ q' / 10) by (apply Z.div_le_lower_bound; lia).
    destruct (Dec.coef d); simpl; lia.
  - destruct (Dec.coef d); simpl; lia.
Qed.

Lemma mul_nonzero a b :
  Dec.is_zero a = false → Dec.is_zero b = false → Dec.is_zero (Dec.mul a b) = false.
Proof.
  intros Ha Hb. unfold Dec.mul. apply fix_nonzero.
  unfold Dec.is_zero in *. simpl. apply Z.eqb_neq in Ha, Hb. apply Z.eqb_neq. lia.
Qed.

Lemma to_ideal_nonzero fuel c e ideal :
  c ≠ 0 → (Dec.to_ideal fuel c e ideal).1 ≠ 0.
Proof.
  revert c e. induction fuel as [|fuel IH]; intros c e Hc; simpl; [done|].
  destruct ((e <? ideal) && (c mod 10 =? 0)) eqn:Hcond; [|done].
  apply IH. apply andb_true_iff in Hcond as [_ Hm]. apply Z.eqb_eq in Hm.
  pose proof (Z.div_mod c 10 ltac:(lia)). lia.
Qed.

(** the reciprocal of a nonzero decimal exists and is not zero *)
Lemma div_one_nonzero_result x :
  Dec.is_zero x = false →
  ∃ inv, Dec.div Dec.one x = Ok inv ∧ Dec.is_zero inv = false.
Proof.
  intros Hx. unfold Dec.div. rewrite Hx.
  change (Dec.is_zero Dec.one) with false. cbv iota.
  change (Z.abs (Dec.coef Dec.one)) with 1. change (Dec.ndigits 1) with 1.
  set (cb := Z.abs (Dec.coef x)).
  assert (Hcb : 1 ≤ cb).
  { subst cb. unfold Dec.is_zero in Hx. apply Z.eqb_neq in Hx. lia. }
  set (shift := Dec.ndigits cb - 1 + Dec.prec + 1).
  pose proof (ndigits_pos cb) as Hnd.
  assert (Hshift : 0 ≤ shift) by (subst shift; unfold Dec.prec; lia).
  destruct (Z.leb_spec 0 shift) as [_|]; [|lia].
  assert (Hq : 1 ≤ 1 * 10 ^ shift / cb).
  { apply Z.div_le_lower_bound; [lia|]. rewrite Z.mul_1_r, Z.mul_1_l.
    pose proof (ndigits_upper cb ltac:(lia)) as Hu.
    assert (10 ^ Dec.ndigits cb ≤ 10 ^ shift); [|lia].
    apply Z.pow_le_mono_r; [lia|]. subst shift. unfold Dec.prec. lia. }
  set (q := 1 * 10 ^ shift / cb) in *.
  set (r := (1 * 10 ^ shift) mod cb).
  match goal with
  | |- ∃ inv, (let '(c', e') := ?ce in _) = _ ∧ _ =>
      assert (Hce : ce.1 ≠ 0); [|destruct ce as [c' e']]
  end.
  { destruct (r =? 0).
    - apply to_ideal_nonzero. lia.
    - simpl. destruct (q mod 5 =? 0); lia. }
  eexists. split; [reflexivity|]. apply fix_nonzero.
  unfold Dec.is_zero. simpl in *. apply Z.eqb_neq.
  assert (Z.sgn (Dec.coef x) ≠ 0).
  { unfold Dec.is_zero in Hx. apply Z.eqb_neq in Hx. destruct (Dec.coef x); simpl; lia. }
  destruct (Z.sgn (Dec.coef x)); lia.
Qed.

(** ** The transitive provider *)

Lemma find_path_eq graph a b :
  _find_conversion_path graph a b = Some (find_path graph a b).
Proof.
  unfold find_path. by destruct (find_conversion_path_returns graph a b) as (res & ->).
Qed.

Lemma transitive_loop_elem graph ex targets acc e t x :
  (e, t, x) ∈ transitive_loop graph ex targets acc ↔
  (e, t, x) ∈ acc ∨
  ∃ target p, target ∈ targets ∧ currency_id target = t ∧
    exchange_currency_id target = Some e ∧ e ∈ ex ∧
    find_path graph e t = Some (p, x) ∧ Dec.is_zero x = false.
Proof.
  revert acc. induction targets as [|target targets IH]; intros acc; simpl.
  - split; [by left|]. intros [?|(target & p & Hin & _)]; [done|].
    by apply not_elem_of_nil in Hin.
  - assert (Hskip :
      (¬ ∃ p, exchange_currency_id target = Some e ∧ currency_id target = t ∧ e ∈ ex ∧
              find_path graph e t = Some (p, x) ∧ Dec.is_zero x = false) →
      ((e, t, x) ∈ transitive_loop graph ex targets acc ↔
       (e, t, x) ∈ acc ∨
       ∃ target0 p, target0 ∈ target :: targets ∧ currency_id target0 = t ∧
         exchange_currency_id target0 = Some e ∧ e ∈ ex ∧
         find_path graph e t = Some (p, x) ∧ Dec.is_zero x = false)).
    { intros Hno. rewrite IH. split.
      - intros [?|(t0 & p & Hin & ?)]; [by left|].
        right. exists t0, p. split; [by apply list_elem_of_further|done].
      - intros [?|(t0 & p & Hin & Hid & Hex & He & Hf & Hz)]; [by left|].
        apply elem_of_cons in Hin as [->|Hin]; [|right; by exists t0, p].
        destruct Hno. by exists p. }
    destruct (exchange_currency_id target) as [e0|] eqn:Hex.
    2:{ apply Hskip. by intros (p & ? & _). }
    destruct (decide (e0 ∉ ex)) as [Hnin|Hin].
    { apply Hskip. intros (p & [= ->] & _ & He & _). done. }
    assert (He0 : e0 ∈ ex) by (by destruct (decide (e0 ∈ ex))).
    destruct (find_path graph e0 (currency_id target)) as [[path r]|] eqn:Hf.
    2:{ apply Hskip. intros (p & [= ->] & <- & _ & Hf' & _). congruence. }
    destruct (bool_decide (path = [])) eqn:Hnil; simpl.
    { apply bool_decide_eq_true in Hnil as ->. exfalso.
      pose proof (find_path_eq graph e0 (currency_id target)) as Heq. rewrite Hf in Heq.
      by destruct (proj1 found_path_simple_holds _ _ _ _ _ Heq) as (_ & ? & _). }
    destruct (Dec.is_zero r) eqn:Hz; simpl.
    { apply Hskip. intros (p & [= ->] & <- & _ & Hf' & Hz'). congruence. }
    rewrite IH. split.
    + intros [Hacc|(t0 & p & Hin0 & ?)].
      * apply elem_of_app in Hacc as [?|Hnew]; [by left|].
        apply list_elem_of_singleton in Hnew as [= -> -> ->].
        right. exists target, path. split; [apply list_elem_of_here|done].
      * right. exists t0, p. split; [by apply list_elem_of_further|done].
    + intros [?|(t0 & p & Hin0 & Hid & Hex0 & He & Hf0 & Hz0)].
      * left. apply elem_of_app. by left.
      * apply elem_of_cons in Hin0 as [->|Hin0]; [|right; by exists t0, p].
        left. apply elem_of_app. right.
        rewrite Hex in Hex0. injection Hex0 as <-. subst t.
        rewrite Hf in Hf0. injection Hf0 as <- <-. apply list_elem_of_here.
Qed.

Lemma transitive_loop_length graph ex targets acc :
  (length (transitive_loop graph ex targets acc) ≤ length acc + length targets)%nat.
Proof.
  revert acc. induction targets as [|target targets IH]; intros acc; simpl; [lia|].
  destruct (exchange_currency_id target) as [e0|]; [|specialize (IH acc); lia].
  destruct (decide (e0 ∉ ex)); [specialize (IH acc); lia|].
  destruct (find_path graph e0 (currency_id target)) as [[path r]|];
    [|specialize (IH acc); lia].
  destruct (negb (bool_decide (path = [])) && negb (Dec.is_zero r));
    [|specialize (IH acc); lia].
  specialize (IH (acc ++ [(e0, currency_id target, r)])).
  rewrite length_app in IH. simpl in IH. lia.
Qed.

Lemma find_path_Some graph a b p x :
  find_path graph a b = Some (p, x) →
  is_path graph a b p ∧ path_rate graph p = Some x ∧
  ∀ q, is_path graph a b q → (length p ≤ length q)%nat.
Proof.
  intros Hf. pose proof (find_path_eq graph a b) as Heq. rewrite Hf in Heq.
  assert (Hk : dict_mem graph a = true ∧ dict_mem graph b = true).
  { unfold _find_conversion_path in Heq.
    destruct (dict_mem graph a), (dict_mem graph b); simpl in Heq; done. }
  destruct Hk as [Ha Hb].
  destruct (find_conversion_path_spec graph a b Ha Hb) as (res & Hres & Hspec).
  rewrite Heq in Hres. injection Hres as <-. destruct Hspec as [Hp Hmin].
  apply path_to_sound in Hp as (Hpath & Hrate & _). split; [done|]. split; [done|].
  intros q Hq. pose proof (is_path_reach _ _ _ _ Hq) as Hr. specialize (Hmin _ Hr).
  destruct Hq as (rest & -> & _). simpl in *. lia.
Qed.

Lemma find_path_connected graph a b q :
  dict_mem graph a = true → dict_mem graph b = true → is_path graph a b q →
  ∃ p x, find_path graph a b = Some (p, x).
Proof.
  intros Ha Hb Hq.
  destruct (find_conversion_path_spec graph a b Ha Hb) as (res & Hres & Hspec).
  pose proof (find_path_eq graph a b) as Heq. rewrite Hres in Heq. injection Heq as ->.
  destruct (find_path graph a b) as [[p x]|]; [eauto|].
  exfalso. apply (Hspec (length q - 1)%nat). by apply is_path_reach.
Qed.

(** X12. Every tuple (E, T, r) that the transitive provider yields comes from a
    target T whose exchange currency E is in the requested set; r is not zero
    and is the composed rate of a path from E to T with the fewest edges in
    the graph of the stored rates. There is at most one tuple per target. *)
Theorem transitive_rates_sound recent_rates target_currencies exchange_currencies results :
  transitive_get_rates recent_rates target_currencies exchange_currencies = Ok results →
  (length results ≤ length target_currencies)%nat ∧
  ∃ graph, _build_currency_graph recent_rates = Ok graph ∧
    ∀ e t x, (e, t, x) ∈ results →
      (∃ target, target ∈ target_currencies ∧ currency_id target = t ∧
                 exchange_currency_id target = Some e) ∧
      e ∈ exchange_currencies ∧ Dec.is_zero x = false ∧
      ∃ p, is_path graph e t p ∧ path_rate graph p = Some x ∧
           ∀ q, is_path graph e t q → (length p ≤ length q)%nat.
Proof.
  unfold transitive_get_rates.
  destruct (_build_currency_graph recent_rates) as [graph|err]; simpl; [|done].
  intros [= <-]. split.
  - pose proof (transitive_loop_length graph exchange_currencies target_currencies []) as H.
    simpl in H. done.
  - exists graph. split; [done|]. intros e t x Hin.
    apply transitive_loop_elem in Hin as [Hin|(target & p & Hin & Hid & Hex & He & Hf & Hz)].
    { by apply not_elem_of_nil in Hin. }
    split; [by exists target|]. split; [done|]. split; [done|].
    exists p. by apply find_path_Some.
Qed.

Lemma transitive_rates_sound_witness :
  Nat.le (length [(1, 3, Dec.mkDec 72 (-2))]) (length [mkCurrency 3 "GBP" (Some 1)]) ∧
  ∃ graph, _build_currency_graph usd_eur_gbp = Ok graph ∧
    ∀ e t x, (e, t, x) ∈ [(1, 3, Dec.mkDec 72 (-2))] →
      (∃ target, target ∈ [mkCurrency 3 "GBP" (Some 1)] ∧ currency_id target = t ∧
                 exchange_currency_id target = Some e) ∧
      e ∈ ({[1]} : gset Z) ∧ Dec.is_zero x = false ∧
      ∃ p, is_path graph e t p ∧ path_rate graph p = Some x ∧
           ∀ q, is_path graph e t q → (length p ≤ length q)%nat.
Proof.
  apply (transitive_rates_sound usd_eur_gbp [mkCurrency 3 "GBP" (Some 1)] {[1]}).
  vm_compute. reflexivity.
Defined.

(** X13. A target of the transitive provider whose exchange currency is in
    the requested set and is joined to it by a chain of at least one stored
    rate gets a tuple, carrying the rate of the path the search returns,
    unless that composed rate is zero. *)
Theorem transitive_rates_complete recent_rates target_currencies exchange_currencies
    results graph target e q :
  transitive_get_rates recent_rates target_currencies exchange_currencies = Ok results →
  _build_currency_graph recent_rates = Ok graph →
  target ∈ target_currencies →
  exchange_currency_id target = Some e → e ∈ exchange_currencies →
  is_path graph e (currency_id target) q → (2 ≤ length q)%nat →
  ∃ p x, find_path graph e (currency_id target) = Some (p, x) ∧
         (Dec.is_zero x = false → (e, currency_id target, x) ∈ results).
Proof.
  unfold transitive_get_rates. intros Hres Hg Hin Hex He Hq Hlen.
  rewrite Hg in Hres. simpl in Hres. injection Hres as <-.
  destruct (build_from_shape [] recent_rates graph Hg) as [Hkeys Hedges].
  assert (Hends : ∀ a b, is_Some (edge_weight graph a b) →
                         dict_mem graph a = true ∧ dict_mem graph b = true).
  { intros a b Hab. apply Hedges in Hab as [(r & Hr & Ht)|[? Hx]];
      [|by unfold edge_weight, graph_get in Hx].
    split; apply Hkeys; left; exists r; (split; [done|]);
      unfold touches in Ht; naive_solver. }
  assert (Hka : dict_mem graph e = true).
  { destruct Hq as (rest & -> & Hw & _). destruct rest as [|v rest]; [simpl in Hlen; lia|].
    destruct Hw as [Hev _]. by apply Hends in Hev as [? _]. }
  assert (Hkb : dict_mem graph (currency_id target) = true).
  { destruct Hq as (rest & -> & Hw & Hl).
    assert (Hgen : ∀ rest u, rest ≠ [] → walk graph u rest →
              last (u :: rest) = Some (currency_id target) →
              dict_mem graph (currency_id target) = true).
    { clear -Hends. induction rest as [|v rest IH]; intros u Hne Hw Hl; [done|].
      destruct Hw as [Huv Hw]. rewrite last_cons_cons in Hl.
      destruct rest as [|v' rest].
      - simpl in Hl. injection Hl as <-. by apply Hends in Huv as [_ ?].
      - by apply (IH v). }
    apply (Hgen rest e); [|done|done]. destruct rest; [simpl in Hlen; lia|done]. }
  destruct (find_path_connected graph e (currency_id target) q Hka Hkb Hq) as (p & x & Hf).
  exists p, x. split; [done|]. intros Hz. apply transitive_loop_elem. right.
  by exists target, p.
Qed.

Lemma transitive_rates_complete_witness :
  ∃ p x, find_path [(1, [(2, Dec.mkDec 9 (-1))]);
                    (2, [(1, Dec.mkDec 1111111111111111111111111111 (-27));
                         (3, Dec.mkDec 8 (-1))]);
                    (3, [(2, Dec.mkDec 125 (-2))])] 1 3 = Some (p, x) ∧
         (Dec.is_zero x = false → (1, 3, x) ∈ [(1, 3, Dec.mkDec 72 (-2))]).
Proof.
  apply (transitive_rates_complete usd_eur_gbp [mkCurrency 3 "GBP" (Some 1)] {[1]}
           [(1, 3, Dec.mkDec 72 (-2))] _ (mkCurrency 3 "GBP" (Some 1)) 1 [1; 2; 3]).
  - vm_compute. reflexivity.
  - vm_compute. reflexivity.
  - apply list_elem_of_here.
  - reflexivity.
  - by apply elem_of_singleton.
  - exists [2; 3]. split; [reflexivity|]. split; [|reflexivity].
    simpl. unfold edge_weight. simpl. eauto.
  - simpl. lia.
Defined.

(** ** [_fetch_service_rates] as a whole *)

Section FetchServiceFacts.
Variable backend : Backend.
Variable clock : nat → Z.
Variable remote_rates :
  ProviderClass → list Currency → gset Z → result (list (Z * Z * Decimal)).
Variable all_rows : Table → list ExchangeRate.

(** X19. One stored rate equal to zero stops the transitive service altogether:
    building the graph raises, [_fetch_service_rates] logs it, no row is
    written for any target and [last_fetch] is not updated. *)
Theorem transitive_zero_rate_blocks service api_key target_currencies
    exchange_currencies table r :
  r ∈ all_rows table → Dec.is_zero (rate r) = true →
  fetch_service backend clock remote_rates all_rows service TRANSITIVE api_key
    target_currencies exchange_currencies table = (table, service).
Proof.
  intros Hin Hz. unfold fetch_service. simpl.
  destruct (bool_decide (target_currencies = []) || bool_decide (exchange_currencies = ∅));
    [done|].
  unfold transitive_get_rates, _build_currency_graph.
  rewrite build_from_zero; [done|].
  intros Hall. rewrite Forall_forall in Hall. specialize (Hall r Hin).
  unfold nonzero_rate in Hall. congruence.
Qed.

End FetchServiceFacts.

Lemma transitive_zero_rate_blocks_witness :
  fetch_service postgresql sample_clock (λ _ _ _, Ok []) (λ t, (map_to_list t).*2)
    series_service TRANSITIVE None [mkCurrency 3 "GBP" (Some 1)] {[1]}
    {[ 1 := mkRate 1 2 (Dec.mkDec 9 (-1)) 0 true;
       2 := mkRate 2 3 (Dec.mkDec 0 (-30)) 0 false ]} =
  ({[ 1 := mkRate 1 2 (Dec.mkDec 9 (-1)) 0 true;
      2 := mkRate 2 3 (Dec.mkDec 0 (-30)) 0 false ]}, series_service).
Proof.
  apply (transitive_zero_rate_blocks postgresql sample_clock (λ _ _ _, Ok [])
           (λ t, (map_to_list t).*2)
           series_service None [mkCurrency 3 "GBP" (Some 1)] {[1]}
           {[ 1 := mkRate 1 2 (Dec.mkDec 9 (-1)) 0 true;
              2 := mkRate 2 3 (Dec.mkDec 0 (-30)) 0 false ]}
           (mkRate 2 3 (Dec.mkDec 0 (-30)) 0 false)).
  - vm_compute. apply list_elem_of_In. simpl. tauto.
  - reflexivity.
Defined.

(** the graph of one stored rate T -> E = x and the search from E to T *)
Lemma direct_rate_path T E x d au inv :
  T ≠ E → Dec.div Dec.one x = Ok inv →
  _build_currency_graph [mkRate T E x d au] = Ok [(T, [(E, x)]); (E, [(T, inv)])] ∧
  find_path [(T, [(E, x)]); (E, [(T, inv)])] E T = Some ([E; T], Dec.mul Dec.one inv).
Proof.
  intros Hne Hinv.
  assert (HET : (E =? T) = false) by (apply Z.eqb_neq; congruence).
  assert (HTE : (T =? E) = false) by (by apply Z.eqb_neq).
  split.
  - unfold _build_currency_graph, build_from, add_rate. simpl.
    rewrite Hinv. simpl.
    unfold graph_ensure, graph_set_edge, graph_get, dict_mem. simpl.
    rewrite ?Z.eqb_refl, ?HET, ?HTE. simpl.
    rewrite ?Z.eqb_refl, ?HET, ?HTE. simpl.
    rewrite ?Z.eqb_refl, ?HET, ?HTE. done.
  - unfold find_path, _find_conversion_path, dict_mem. simpl.
    rewrite ?Z.eqb_refl, ?HET, ?HTE. simpl.
    unfold graph_get. cbn [dict_get]. rewrite ?Z.eqb_refl, ?HET. cbn [expand].
    destruct (decide (T ∈ ({[E]} : gset Z))) as [Hin|_]; [set_solver|].
    cbn [app]. destruct (set_size _); cbn [bfs_loop]; by rewrite Z.eqb_refl.
Qed.

(** X21. When the only stored rate is the direct one from a target T to its
    exchange currency E, with rate x, the transitive service searches from E
    to T, finds the reverse edge, and writes a row from = T, to = E whose rate
    is the reciprocal 1 * (1 / x), not x, at the 30 decimal places of the
    rate column. A singleton service writes it over the stored row if that
    row is automatic; otherwise a second row T -> E is added. When the
    reciprocal does not fit the column the write raises, and the table and
    [last_fetch] stay as they are. *)
Theorem transitive_stores_reciprocal backend clock remote_rates all_rows service api_key
    T E x d au k cd :
  T ≠ E → Dec.is_zero x = false → d ≠ clock 0%nat →
  all_rows {[k := mkRate T E x d au]} = [mkRate T E x d au] →
  ∃ inv,
    Dec.div Dec.one x = Ok inv ∧
    (∀ stored, stored_rate backend (Dec.mul Dec.one inv) = Ok stored →
       to_30_places (Dec.mul Dec.one inv) stored ∧
       ∃ k',
         fetch_service backend clock remote_rates all_rows service TRANSITIVE api_key
           [mkCurrency T cd (Some E)] {[E]} {[k := mkRate T E x d au]} =
           (<[k' := mkRate T E stored (clock 0%nat) true]> {[k := mkRate T E x d au]},
            mkService (name service) (interval_type service) (fetch_interval service)
              (Some (clock 1%nat)) (singleton service)) ∧
         (k' = k ↔ singleton service = true ∧ au = true)) ∧
    (∀ e, stored_rate backend (Dec.mul Dec.one inv) = Raise e →
       fetch_service backend clock remote_rates all_rows service TRANSITIVE api_key
         [mkCurrency T cd (Some E)] {[E]} {[k := mkRate T E x d au]} =
         ({[k := mkRate T E x d au]}, service)).
Proof.
  intros Hne Hx Hd Hrows.
  destruct (div_one_nonzero_result x Hx) as (inv & Hinv & Hinvz).
  destruct (direct_rate_path T E x d au inv Hne Hinv) as [Hgraph Hpath].
  set (table := ({[k := mkRate T E x d au]} : Table)) in *.
  assert (Hfetch :
    fetch_service backend clock remote_rates all_rows service TRANSITIVE api_key
      [mkCurrency T cd (Some E)] {[E]} table =
    _fetch_service_rates backend clock true service table [(E, T, Dec.mul Dec.one inv)]).
  { unfold fetch_service. simpl.
    rewrite bool_decide_eq_false_2 by (intros Hempty; set_solver).
    unfold transitive_get_rates. rewrite Hrows, Hgraph. simpl.
    rewrite Hpath. simpl.
    rewrite (mul_nonzero Dec.one inv eq_refl Hinvz). simpl.
    destruct (decide (E ∉ ({[E]} : gset Z))) as [Hnin|_]; [set_solver|]. done. }
  assert (Hkey : (E, T) ∉ processed_pairs (mkState table ∅ 0)) by set_solver.
  exists inv. split; [done|]. split.
  - intros stored Hstored. split; [by eapply stored_rate_places|].
    assert (Hfree : ¬ conflicts table None T E (clock 0%nat)).
    { intros (k0 & r0 & Hk0 & _ & _ & _ & Hdate).
      apply lookup_singleton_Some in Hk0 as [_ <-]. done. }
    destruct (process_tuple_spec backend clock service true (mkState table ∅ 0) E T
                (Dec.mul Dec.one inv) stored Hkey Hstored Hfree) as (k' & Hstep & Hcase).
    exists k'. split.
    + rewrite Hfetch. unfold _fetch_service_rates. cbn [fetch_loop]. rewrite Hstep. done.
    + simpl in Hcase. split.
      * intros ->. destruct Hcase as [[Hs (old & Hl)]|[Hk _]].
        -- split; [done|].
           apply latest_automatic_Some in Hl as (Hk & (Hauto & _) & _).
           apply lookup_singleton_Some in Hk as [_ <-]. done.
        -- subst table. by rewrite lookup_singleton_eq in Hk.
      * intros [Hs Hau]. destruct Hcase as [[_ (old & Hl)]|[_ [?|Hnone]]].
        -- apply latest_automatic_Some in Hl as (Hk & _).
           by apply lookup_singleton_Some in Hk as [-> _].
        -- congruence.
        -- exfalso. eapply (latest_automatic_None table T E k); [done| |].
           ++ subst table. apply lookup_singleton_eq.
           ++ by subst au.
  - intros e He. rewrite Hfetch. unfold _fetch_service_rates. cbn [fetch_loop].
    by rewrite (process_tuple_rejected backend clock service true (mkState table ∅ 0)
                  E T (Dec.mul Dec.one inv) e Hkey He).
Qed.

Lemma transitive_stores_reciprocal_witness :
  ∃ inv,
    Dec.div Dec.one (Dec.mkDec 30000000000000000000000000000000000 (-30)) = Ok inv ∧
    (∀ stored, stored_rate postgresql (Dec.mul Dec.one inv) = Ok stored →
       to_30_places (Dec.mul Dec.one inv) stored ∧
       ∃ k',
         fetch_service postgresql sample_clock (λ _ _ _, Ok []) (λ t, (map_to_list t).*2)
           singleton_service TRANSITIVE None
           [mkCurrency 2 "EUR" (Some 1)] {[1]}
           {[5 := mkRate 2 1 (Dec.mkDec 30000000000000000000000000000000000 (-30)) 900 true]} =
           (<[k' := mkRate 2 1 stored (sample_clock 0) true]>
              {[5 := mkRate 2 1 (Dec.mkDec 30000000000000000000000000000000000 (-30))
                       900 true]},
            mkService "coingecko" EVERY "24" (Some (sample_clock 1)) true) ∧
         (k' = 5 ↔ true = true ∧ true = true)) ∧
    (∀ e, stored_rate postgresql (Dec.mul Dec.one inv) = Raise e →
       fetch_service postgresql sample_clock (λ _ _ _, Ok []) (λ t, (map_to_list t).*2)
         singleton_service TRANSITIVE None
         [mkCurrency 2 "EUR" (Some 1)] {[1]}
         {[5 := mkRate 2 1 (Dec.mkDec 30000000000000000000000000000000000 (-30)) 900 true]} =
         ({[5 := mkRate 2 1 (Dec.mkDec 30000000000000000000000000000000000 (-30)) 900 true]},
          singleton_service)).
Proof.
  apply (transitive_stores_reciprocal postgresql sample_clock (λ _ _ _, Ok [])
           (λ t, (map_to_list t).*2) singleton_service None
           2 1 (Dec.mkDec 30000000000000000000000000000000000 (-30)) 900 true 5 "EUR").
  - lia.
  - reflexivity.
  - vm_compute. discriminate.
  - vm_compute. reflexivity.
Defined.

(** X18. With a clock that runs forward and is ahead of every stored date,
    and a batch whose rates all fit the rate column, the batch of an EVERY
    service with interval N records its [last_fetch], and the service is due
    again exactly from the instant N hours after the start of the hour in
    which the batch ended; for N >= 1 a second run within that clock hour
    skips the service. *)
Theorem fetched_every_service_rests backend clock inv service table rates N :
  interval_type service = EVERY →
  py_int (list_ascii_of_string (fetch_interval service)) = Some N →
  (∀ i j, (i < j)%nat → clock i < clock j) →
  (∀ k r, table !! k = Some r → date r < clock 0%nat) →
  batch_fits rates →
  ∃ fetched,
    last_fetch (_fetch_service_rates backend clock inv service table rates).2 = Some fetched ∧
    (∀ current_hour now,
       _should_fetch_at_hour (_fetch_service_rates backend clock inv service table rates).2
         current_hour now = Ok true ↔
       truncate_hour fetched + N * hour_us ≤ now) ∧
    (1 ≤ N → ∀ current_hour now,
       truncate_hour now = truncate_hour fetched →
       _should_fetch_at_hour (_fetch_service_rates backend clock inv service table rates).2
         current_hour now = Ok false).
Proof.
  intros Hty HN Hmono Htable Hfit.
  destruct (batch_completes_with_running_clock_holds backend clock service inv table rates
              Hmono Htable Hfit) as (n & _ & Hlast & _).
  set (service' := (_fetch_service_rates backend clock inv service table rates).2) in *.
  assert (Hty' : interval_type service' = EVERY ∧
                 fetch_interval service' = fetch_interval service).
  { subst service'. unfold _fetch_service_rates.
    destruct (fetch_loop backend clock inv service (mkState table ∅ 0) rates) as [st [e|]];
      done. }
  destruct Hty' as [Hty' Hfi'].
  exists (clock n). split; [done|]. split.
  - intros current_hour now.
    apply (every_due_threshold_holds service' current_hour now N (clock n)); [done| |done].
    by rewrite Hfi'.
  - intros HN1 current_hour now Hsame.
    apply (every_due_threshold_holds service' current_hour now N (clock n)); [done| |done|].
    + by rewrite Hfi'.
    + pose proof (truncate_hour_le now). unfold hour_us in *. lia.
Qed.

Lemma fetched_every_service_rests_witness :
  ∃ fetched,
    last_fetch (_fetch_service_rates postgresql sample_clock true series_service sample_table
                  [(1, 2, Dec.mkDec 9 (-1))]).2 = Some fetched ∧
    (∀ current_hour now,
       _should_fetch_at_hour (_fetch_service_rates postgresql sample_clock true series_service
                                sample_table [(1, 2, Dec.mkDec 9 (-1))]).2
         current_hour now = Ok true ↔
       truncate_hour fetched + 24 * hour_us ≤ now) ∧
    (1 ≤ 24 → ∀ current_hour now,
       truncate_hour now = truncate_hour fetched →
       _should_fetch_at_hour (_fetch_service_rates postgresql sample_clock true series_service
                                sample_table [(1, 2, Dec.mkDec 9 (-1))]).2
         current_hour now = Ok false).
Proof.
  apply (fetched_every_service_rests postgresql sample_clock true series_service sample_table
           [(1, 2, Dec.mkDec 9 (-1))] 24 eq_refl eq_refl
           sample_clock_mono sample_table_dates).
  repeat constructor.
Defined.
